(** * Whisprin: the pencil-sound generator [scripts/generate_test_audio.py]

    A shallow embedding of [generate_pencil_sound] and [main], and the
    properties of the generated sample buffer.

    Number model.  Python [int]s are [Z].  A float64 is a [float]: a real
    number, or one of the IEEE special values (the two infinities and NaN).
    The special values are kept because the script can create them (a zero
    divisor under numpy yields an infinity or NaN and a RuntimeWarning, not
    an exception).

    Rounding.  Three products of the script decide an integer.  The one
    [int(...)] truncates on line 15 and the one [astype(np.int16)]
    truncates on line 51 are rounded to the nearest float64, ties to even
    ([fmul64]), because rounding there moves the integer at ordinary
    inputs.  The one of line 44, [0.05 * sample_rate], is kept exact:
    rounded, it truncates to the same integer for every rate up to 2^52
    ([fade_samples_of_float64]).  The other operations are carried out
    exactly: the sample values of the statements are the values of the
    script up to rounding error.  Magnitudes of 2^53 and beyond, where the
    integers themselves stop being float64 values, and overflow to infinity
    are outside what the model follows; the sign of zero is not modelled.

    Effects.  The script reads the process-wide random generator, may raise
    Python exceptions, may emit numpy RuntimeWarnings, and writes one file,
    which the operating system can refuse.  All of them live in the monad
    [M] over a [world]. *)

From Stdlib Require Import Reals Lra Lia ZArith List Bool.
From Stdlib Require String.
Import String.StringSyntax.
Delimit Scope string_scope with string.
Import ListNotations.

Open Scope R_scope.

(* ================================================================== *)
(** ** Floating-point values *)

Inductive float : Type :=
| Fin (x : R)
| Inf (neg : bool)      (* [Inf false] is +inf, [Inf true] is -inf *)
| NaN.

Definition Reqb (x y : R) : bool := if Req_dec_T x y then true else false.
Definition Rltb (x y : R) : bool := if Rlt_dec x y then true else false.

(** Truncation toward zero: Python's [int(x)] and C's cast to an integer. *)
Definition Rtrunc (x : R) : Z :=
  if Rle_dec 0 x then Int_part x else (- Int_part (- x))%Z.

(** *** Rounding to float64

    [round64 x] is [x] rounded to the nearest float64, ties to even, with
    the subnormal numbers and without an upper limit on the exponent:
    [mag a] is the exponent of the binade of [a], [ulp a] the distance
    between the float64 values of that binade, and [rne] rounds to the
    nearest integer, ties to even. *)
Definition bpow (e : Z) : R := powerRZ 2 e.

Definition mag (a : R) : Z := Int_part (ln a / ln 2).

Definition rne (y : R) : Z :=
  let f := Int_part y in
  if Rlt_dec (y - IZR f) (1 / 2) then f
  else if Rlt_dec (1 / 2) (y - IZR f) then (f + 1)%Z
  else if Z.even f then f else (f + 1)%Z.

Definition ulp (a : R) : R := bpow (Z.max (mag a) (-1022) - 52).

Definition round_pos (a : R) : R := IZR (rne (a / ulp a)) * ulp a.

Definition round64 (x : R) : R :=
  if Rlt_dec 0 x then round_pos x
  else if Rlt_dec x 0 then - round_pos (- x) else 0.

(** The rounding of the model: float64 rounding below 2^53 in magnitude,
    the value itself from there on. *)
Definition fl64 (x : R) : R :=
  if Rlt_dec (Rabs x) 9007199254740992 then round64 x else x.

Definition fneg (a : float) : float :=
  match a with
  | Fin x => Fin (- x)
  | Inf s => Inf (negb s)
  | NaN => NaN
  end.

Definition fabs (a : float) : float :=
  match a with
  | Fin x => Fin (Rabs x)
  | Inf _ => Inf false
  | NaN => NaN
  end.

Definition fadd (a b : float) : float :=
  match a, b with
  | NaN, _ | _, NaN => NaN
  | Fin x, Fin y => Fin (x + y)
  | Inf s, Fin _ | Fin _, Inf s => Inf s
  | Inf s, Inf s' => if Bool.eqb s s' then Inf s else NaN
  end.

Definition fsub (a b : float) : float := fadd a (fneg b).

Definition fmul (a b : float) : float :=
  match a, b with
  | NaN, _ | _, NaN => NaN
  | Fin x, Fin y => Fin (x * y)
  | Inf s, Fin y | Fin y, Inf s =>
      if Reqb y 0 then NaN else Inf (xorb s (Rltb y 0))
  | Inf s, Inf s' => Inf (xorb s s')
  end.

(** The product as float64 arithmetic rounds it. *)
Definition fmul64 (a b : float) : float :=
  match fmul a b with
  | Fin x => Fin (fl64 x)
  | c => c
  end.

(** The warnings numpy's floating-point error handling can report. *)
Inductive warning : Type :=
| DivideByZero     (* "divide by zero encountered in divide" *)
| InvalidValue     (* "invalid value encountered in divide" *)
| InvalidCast.     (* "invalid value encountered in cast" *)

(** IEEE division.  A zero divisor does not fail: it gives an infinity
    (or NaN for 0/0). *)
Definition fdiv (a b : float) : float :=
  match a, b with
  | NaN, _ | _, NaN => NaN
  | Fin x, Fin y =>
      if Reqb y 0 then (if Reqb x 0 then NaN else Inf (Rltb x 0))
      else Fin (x / y)
  | Fin _, Inf _ => Fin 0
  | Inf s, Fin y => Inf (xorb s (Rltb y 0))
  | Inf _, Inf _ => NaN
  end.

(** The floating-point exception flag the division raises, if any. *)
Definition fdiv_flag (a b : float) : option warning :=
  match a, b with
  | Fin x, Fin y =>
      if Reqb y 0 then Some (if Reqb x 0 then InvalidValue else DivideByZero)
      else None
  | Inf _, Inf _ => Some InvalidValue
  | _, _ => None
  end.

Definition fsqrt (a : float) : float :=
  match a with
  | Fin x => if Rltb x 0 then NaN else Fin (sqrt x)
  | Inf false => Inf false
  | Inf true => NaN
  | NaN => NaN
  end.

Definition fsin (a : float) : float :=
  match a with
  | Fin x => Fin (sin x)
  | _ => NaN
  end.

Definition fexp (a : float) : float :=
  match a with
  | Fin x => Fin (exp x)
  | Inf false => Inf false
  | Inf true => Fin 0
  | NaN => NaN
  end.

(** [np.maximum] and [np.minimum]: NaN propagates. *)
Definition fmaximum (a b : float) : float :=
  match a, b with
  | NaN, _ | _, NaN => NaN
  | Fin x, Fin y => Fin (Rmax x y)
  | Inf false, _ | _, Inf false => Inf false
  | Inf true, c | c, Inf true => c
  end.

Definition fminimum (a b : float) : float :=
  match a, b with
  | NaN, _ | _, NaN => NaN
  | Fin x, Fin y => Fin (Rmin x y)
  | Inf true, _ | _, Inf true => Inf true
  | Inf false, c | c, Inf false => c
  end.

(** [a != b] on floats: NaN differs from everything. *)
Definition fne (a b : float) : bool :=
  match a, b with
  | Fin x, Fin y => negb (Reqb x y)
  | Inf s, Inf s' => negb (Bool.eqb s s')
  | _, _ => true
  end.

Definition of_int (z : Z) : float := Fin (IZR z).

(** Complex numbers as (real, imaginary). *)
Definition complex : Type := (float * float)%type.

Definition cadd (a b : complex) : complex :=
  (fadd (fst a) (fst b), fadd (snd a) (snd b)).

Definition cmul (a b : complex) : complex :=
  (fsub (fmul (fst a) (fst b)) (fmul (snd a) (snd b)),
   fadd (fmul (fst a) (snd b)) (fmul (snd a) (fst b))).

Definition of_real (a : float) : complex := (a, Fin 0).

(* ================================================================== *)
(** ** The world and the monad *)

Inductive exn : Type :=
| ValueError
| ZeroDivisionError
| OverflowError
| IndexError
| OSError.

(** A WAV file as [scipy.io.wavfile.write] lays it out for an int16 array of
    one dimension: PCM, one channel, 16 bits per sample. *)
Record wav_file : Type := {
  wav_rate : Z;
  wav_channels : Z;
  wav_bits : Z;
  wav_data : list Z
}.

Record world : Type := {
  rng : nat -> R;               (* the standard-normal variates still to come *)
  warnings : list warning;      (* RuntimeWarnings emitted so far, oldest first *)
  dirs : list String.string;           (* directories created *)
  files : list (String.string * wav_file);  (* files written, newest first *)
  refused : String.string -> bool  (* the paths the operating system refuses
                                      to create or to write: no permission,
                                      a file in the way, a full disk *)
}.

Definition M (A : Type) : Type := world -> (exn + A) * world.

Definition ret {A} (a : A) : M A := fun w => (inr a, w).
Definition raise {A} (e : exn) : M A := fun w => (inl e, w).
Definition bind {A B} (m : M A) (k : A -> M B) : M B :=
  fun w => match m w with
           | (inl e, w') => (inl e, w')
           | (inr a, w') => k a w'
           end.

Notation "x <- m ;; k" := (bind m (fun x => k))
  (at level 61, m at next level, right associativity).
Notation "m ;;; k" := (bind m (fun _ => k))
  (at level 61, right associativity).

Definition warn (ws : list warning) : M unit :=
  fun w => (inr tt, {| rng := rng w; warnings := warnings w ++ ws;
                       dirs := dirs w; files := files w;
     refused := refused w |}).

(* ================================================================== *)
(** ** Python and numpy primitives *)

Definition len {A} (l : list A) : Z := Z.of_nat (length l).

(** [int(x)] on a Python float. *)
Definition py_int (a : float) : M Z :=
  match a with
  | Fin x => ret (Rtrunc x)
  | Inf _ => raise OverflowError
  | NaN => raise ValueError
  end.

(** [a / b] on Python scalars: a zero divisor raises. *)
Definition py_truediv (a b : float) : M float :=
  match b with
  | Fin y => if Reqb y 0 then raise ZeroDivisionError else ret (fdiv a b)
  | _ => ret (fdiv a b)
  end.

(** [np.arange(a, b)] on integers. *)
Definition arange (a b : Z) : list Z :=
  map (fun i => (a + Z.of_nat i)%Z) (seq 0 (Z.to_nat (b - a))).

(** Elementwise binary operation on two arrays of one shape. *)
Fixpoint map2 {A B C} (f : A -> B -> C) (xs : list A) (ys : list B) : list C :=
  match xs, ys with
  | x :: xs', y :: ys' => f x y :: map2 f xs' ys'
  | _, _ => []
  end.

Fixpoint set_last {A} (l : list A) (v : A) : list A :=
  match l with
  | [] => []
  | [_] => [v]
  | x :: l' => x :: set_last l' v
  end.

(** [np.linspace(start, stop, num, endpoint)]: the values, then the call,
    which refuses a negative [num].  numpy multiplies the indices by the
    step [delta / div]; when the step is zero it divides the indices by
    [div] and multiplies by [delta] instead, which in exact arithmetic is
    the same value. *)
Definition linspace_values (start stop : float) (num : Z) (endpoint : bool)
  : list float :=
  let div := if endpoint then (num - 1)%Z else num in
  let delta := fsub stop start in
  let y := map of_int (arange 0 num) in
  let y := if (0 <? div)%Z
           then map (fun v => fmul v (fdiv delta (of_int div))) y
           else map (fun v => fmul v delta) y in
  let y := map (fun v => fadd v start) y in
  if endpoint && (1 <? num)%Z then set_last y stop else y.

Definition np_linspace (start stop : float) (num : Z) (endpoint : bool)
  : M (list float) :=
  if (num <? 0)%Z then raise ValueError
  else ret (linspace_values start stop num endpoint).

(** [np.random.normal(loc, scale, size)]: consumes [size] variates of the
    process-wide generator. *)
Definition np_random_normal (loc scale : R) (size : Z) : M (list float) :=
  if (size <? 0)%Z then raise ValueError else
  if Rltb scale 0 then raise ValueError else
  fun w =>
    let n := Z.to_nat size in
    (inr (map (fun i => Fin (loc + scale * rng w i)) (seq 0 n)),
     {| rng := fun i => rng w (n + i)%nat; warnings := warnings w;
        dirs := dirs w; files := files w;
     refused := refused w |}).

(** [np.fft.fftfreq(n, d)]: [val = 1.0 / (n * d)] is a Python division. *)
Definition fftfreq_values (n : Z) (val : float) : list float :=
  let N := ((n - 1) / 2 + 1)%Z in
  let results := arange 0 N ++ arange (- (n / 2)) 0 in
  map (fun k => fmul (of_int k) val) results.

Definition np_fft_fftfreq (n : Z) (d : float) : M (list float) :=
  val <- py_truediv (Fin 1) (fmul (of_int n) d) ;;
  if (n <? 0)%Z then raise ValueError else ret (fftfreq_values n val).

Definition csum (l : list complex) : complex :=
  fold_left cadd l (Fin 0, Fin 0).

(** exp(sign * 2 pi i k m / n) *)
Definition twiddle (sign : R) (n k m : nat) : complex :=
  let theta := 2 * PI * INR k * INR m / INR n in
  (Fin (cos theta), Fin (sign * sin theta)).

Definition dft (sign : R) (a : list complex) : list complex :=
  let n := length a in
  map (fun k => csum (map2 (fun m x => cmul x (twiddle sign n k m)) (seq 0 n) a))
      (seq 0 n).

(** [np.fft.fft(a)] and [np.fft.ifft(a)]. *)
Definition np_fft_fft (a : list complex) : M (list complex) :=
  if (len a <? 1)%Z then raise ValueError else ret (dft (-1) a).

Definition np_fft_ifft (a : list complex) : M (list complex) :=
  if (len a <? 1)%Z then raise ValueError else
  let fct := Fin (/ IZR (len a)) in
  ret (map (fun c => (fmul (fst c) fct, fmul (snd c) fct)) (dft 1 a)).

(** [np.where(cond, x, y)] with an array [x] and a scalar [y]. *)
Definition np_where (cond : list bool) (x : list float) (y : float) : list float :=
  map2 (fun (c : bool) v => if c then v else y) cond x.

(** The flags one ufunc call reports: each kind at most once.  The
    divisions are followed here and the cast to int16 with [astype_int16]:
    on finite input no other operation of the script can raise a
    floating-point flag. *)
Definition warning_eqb (a b : warning) : bool :=
  match a, b with
  | DivideByZero, DivideByZero | InvalidValue, InvalidValue
  | InvalidCast, InvalidCast => true
  | _, _ => false
  end.

Definition raised (k : warning) (fl : list (option warning)) : bool :=
  existsb (fun o => match o with Some k' => warning_eqb k k' | None => false end) fl.

Definition report (fl : list (option warning)) : list warning :=
  (if raised DivideByZero fl then [DivideByZero] else []) ++
  (if raised InvalidValue fl then [InvalidValue] else []).

(** [a / x] with a scalar dividend and an array divisor: every element is
    divided, a zero divisor is reported as a warning. *)
Definition np_rdivide (a : float) (x : list float) : M (list float) :=
  warn (report (map (fun v => fdiv_flag a v) x)) ;;;
  ret (map (fun v => fdiv a v) x).

(** [x / b] with an array dividend and a numpy scalar divisor. *)
Definition np_divide (x : list float) (b : float) : M (list float) :=
  warn (report (map (fun v => fdiv_flag v b) x)) ;;;
  ret (map (fun v => fdiv v b) x).

(** [np.max(x)]: raises on an empty array. *)
Definition np_max (x : list float) : M float :=
  match x with
  | [] => raise ValueError
  | v :: x' => ret (fold_left fmaximum x' v)
  end.

(** [x[0] = v]. *)
Definition setitem0 (x : list float) (v : float) : M (list float) :=
  match x with
  | [] => raise IndexError
  | _ :: x' => ret (v :: x')
  end.

(** A slice bound as Python resolves it against a length. *)
Definition slice_bound (i n : Z) : Z :=
  if (i <? 0)%Z then Z.max (n + i) 0 else Z.min i n.

(** [x[start:stop] = v] with resolved bounds: [v] must have the length of the
    slice or length 1. *)
Definition setslice (x : list float) (start stop : Z) (v : list float)
  : M (list float) :=
  let a := Z.to_nat start in
  let l := Z.to_nat (stop - start) in
  if (len v =? Z.of_nat l)%Z then
    ret (firstn a x ++ v ++ skipn (a + l) x)
  else match v with
       | [c] => ret (firstn a x ++ repeat c l ++ skipn (a + l) x)
       | _ => raise ValueError
       end.

Definition np_clip (x lo hi : float) : float := fminimum (fmaximum x lo) hi.

(** [os.makedirs(path, exist_ok=True)] and [scipy.io.wavfile.write]: both
    raise [OSError] when the operating system refuses the path. *)
Definition os_makedirs (path : String.string) : M unit :=
  fun w =>
    if refused w path then (inl OSError, w) else
    (inr tt, {| rng := rng w; warnings := warnings w;
                dirs := path :: dirs w; files := files w;
                refused := refused w |}).

Definition wav_write (path : String.string) (rate : Z) (data : list Z) : M unit :=
  fun w =>
    let f := {| wav_rate := rate; wav_channels := 1; wav_bits := 16;
                wav_data := data |} in
    if refused w path then (inl OSError, w) else
    (inr tt, {| rng := rng w; warnings := warnings w;
                dirs := dirs w; files := (path, f) :: files w;
                refused := refused w |}).

(* ================================================================== *)
(** ** The script *)

Section Generator.

(** The integer a C cast produces from a float64 where C leaves the result
    undefined (NaN, an infinity, a value out of range).  It depends on the
    platform, so it is a parameter of the development; whatever it is, the
    array element keeps its low 16 bits. *)
Variable cast_undefined : float -> Z.

Definition int16_wrap (z : Z) : Z := ((z + 32768) mod 65536 - 32768)%Z.

(** [x.astype(np.int16)] on one element: truncation toward zero. *)
Definition astype_int16 (a : float) : Z :=
  match a with
  | Fin x => if Rltb (-32769) x && Rltb x 32768 then Rtrunc x
             else int16_wrap (cast_undefined a)
  | _ => int16_wrap (cast_undefined a)
  end.

(** The elements for which the cast raises the invalid flag: NumPy (1.24
    and later) reports it once per call. *)
Definition cast_invalid (a : float) : bool :=
  match a with
  | Fin x => negb (Rltb (-32769) x && Rltb x 32768)
  | _ => true
  end.

Definition cast_report (x : list float) : list warning :=
  if existsb cast_invalid x then [InvalidCast] else [].

Definition np_astype_int16 (x : list float) : M (list Z) :=
  warn (cast_report x) ;;;
  ret (map astype_int16 x).

(** Lines 25-27: the gain of every frequency bin.  [np.where] receives the
    quotient array already computed for every bin. *)
Definition pink_filter_of (frequencies : list float) : M (list float) :=
  inv <- np_rdivide (of_int 1) (map fsqrt (map fabs frequencies)) ;;
  let pink_filter :=
    np_where (map (fun f => fne f (of_int 0)) frequencies) inv (of_int 1) in
  setitem0 pink_filter (of_int 1).

(** Lines 17-30: the noise and its spectral shaping, for the time array [t]. *)
Definition filtered_noise_of (t : list float) (sample_rate : Z) : M (list float) :=
  white_noise <- np_random_normal 0 0.1 (len t) ;;
  d <- py_truediv (of_int 1) (of_int sample_rate) ;;
  frequencies <- np_fft_fftfreq (len t) d ;;
  fft_noise <- np_fft_fft (map of_real white_noise) ;;
  pink_filter <- pink_filter_of frequencies ;;
  let fft_filtered := map2 cmul fft_noise (map of_real pink_filter) in
  back <- np_fft_ifft fft_filtered ;;
  ret (map fst back).

(** Line 33: [pink_noise / np.max(np.abs(pink_noise)) * 0.3]. *)
Definition normalize (pink_noise : list float) : M (list float) :=
  peak <- np_max (map fabs pink_noise) ;;
  scaled <- np_divide pink_noise peak ;;
  ret (map (fun v => fmul v (Fin 0.3)) scaled).

Definition pink_noise_of (t : list float) (sample_rate : Z) : M (list float) :=
  pink_noise <- filtered_noise_of t sample_rate ;;
  normalize pink_noise.

(** One damped partial: [amp * np.sin(2 * np.pi * freq * t) * np.exp(-t * decay)]. *)
Definition partial (amp freq decay : R) (t : list float) : list float :=
  map2 fmul
    (map (fun v => fmul (Fin amp) v)
         (map fsin (map (fun v => fmul (Fin (2 * PI * freq)) v) t)))
    (map fexp (map (fun v => fmul (fneg v) (Fin decay)) t)).

(** Lines 35-37. *)
Definition harmonic_of (t : list float) : list float :=
  map2 fadd (partial 0.1 2000 5 t) (partial 0.05 3000 8 t).

(** Line 44: [int(0.05 * sample_rate)]. *)
Definition fade_samples_of (sample_rate : Z) : M Z :=
  py_int (fmul (Fin 0.05) (of_int sample_rate)).

(** Lines 43-46. *)
Definition envelope_of (t : list float) (sample_rate : Z) : M (list float) :=
  let envelope := map (fun _ => Fin 1) t in
  fade_samples <- fade_samples_of sample_rate ;;
  ramp_in <- np_linspace (Fin 0) (Fin 1) fade_samples true ;;
  envelope <- setslice envelope 0 (slice_bound fade_samples (len envelope))
                       ramp_in ;;
  ramp_out <- np_linspace (Fin 1) (Fin 0) fade_samples true ;;
  envelope <- setslice envelope (slice_bound (- fade_samples) (len envelope))
                       (len envelope) ramp_out ;;
  ret envelope.

(** Line 51 before the cast, on one sample: [sound * 32767] rounded to
    float64, then clipped. *)
Definition scale_clip (v : float) : float :=
  np_clip (fmul64 v (of_int 32767)) (of_int (-32768)) (of_int 32767).

(** Line 51 on one sample and on the buffer, without the warning. *)
Definition quantize1 (v : float) : Z := astype_int16 (scale_clip v).

Definition quantize (sound : list float) : list Z := map quantize1 sound.

(** Lines 14-48: the signal before quantization. *)
Definition pencil_signal (duration : float) (sample_rate : Z) : M (list float) :=
  n <- py_int (fmul64 (of_int sample_rate) duration) ;;
  t <- np_linspace (Fin 0) duration n false ;;
  pink_noise <- pink_noise_of t sample_rate ;;
  let harmonic := harmonic_of t in
  let sound := map2 fadd pink_noise harmonic in
  envelope <- envelope_of t sample_rate ;;
  ret (map2 fmul sound envelope).

Definition generate_pencil_sound (duration : float) (sample_rate : Z)
  : M (list Z * Z) :=
  sound <- pencil_signal duration sample_rate ;;
  sound <- np_astype_int16 (map scale_clip sound) ;;
  ret (sound, sample_rate).

(** The divisor of line 33 as the run computes it: the script up to
    [np.max(np.abs(pink_noise))].  It is read by the statements only. *)
Definition normalization_divisor (duration : float) (sample_rate : Z) : M float :=
  n <- py_int (fmul64 (of_int sample_rate) duration) ;;
  t <- np_linspace (Fin 0) duration n false ;;
  pink_noise <- filtered_noise_of t sample_rate ;;
  np_max (map fabs pink_noise).

Definition default_duration : float := Fin 0.5.
Definition default_sample_rate : Z := 44100.

(** [main], without its console output. *)
Definition main : M unit :=
  r <- generate_pencil_sound default_duration default_sample_rate ;;
  let output_dir := "../src/Artisense.UI/Assets"%string in
  os_makedirs output_dir ;;;
  let output_path := "../src/Artisense.UI/Assets/pencil_loop.wav"%string in
  wav_write output_path (snd r) (fst r).

End Generator.

(** Finite floats and their real value. *)
Definition finite (a : float) : Prop :=
  match a with Fin _ => True | _ => False end.

Definition to_R (a : float) : R :=
  match a with Fin x => x | _ => 0 end.

Definition cfinite (c : complex) : Prop := finite (fst c) /\ finite (snd c).

(* ================================================================== *)
(** ** Closed forms and the vocabulary of the statements *)

(** The envelope the two slice assignments leave, for a buffer of [n]
    samples and [f] fade samples. *)
Definition envelope_values (n : nat) (f : Z) : list float :=
  let env1 := linspace_values (Fin 0) (Fin 1) f true
              ++ skipn (Z.to_nat f) (repeat (Fin 1) n) in
  firstn (n - Z.to_nat f) env1 ++ linspace_values (Fin 1) (Fin 0) f true.

(** The gain [j] steps into a ramp of [f] samples: [j / (f - 1)]. *)
Definition ramp (f : Z) (j : nat) : R := IZR (Z.of_nat j) / IZR (f - 1).

(** The bins of [np.fft.fftfreq] as reals. *)
Definition bins (n : Z) (val : R) : list R :=
  map (fun k => IZR k * val) (arange 0 ((n - 1) / 2 + 1) ++ arange (- (n / 2)) 0).

(** The gain the filter is meant to give a bin of frequency [x]. *)
Definition gain (x : R) : R := if Reqb x 0 then 1 else 1 / sqrt (Rabs x).

Definition bin_flags (xs : list R) : list (option warning) :=
  map (fun x => if Reqb x 0 then Some DivideByZero else None) xs.

Definition add_warnings (ws : list warning) (w : world) : world :=
  {| rng := rng w; warnings := warnings w ++ ws; dirs := dirs w; files := files w;
     refused := refused w |}.

Definition advance_rng (n : nat) (w : world) : world :=
  {| rng := fun i => rng w (n + i)%nat; warnings := warnings w;
     dirs := dirs w; files := files w;
     refused := refused w |}.

(** The white noise [np.random.normal(0, 0.1, n)] draws from the variates [g]. *)
Definition white_values (g : nat -> R) (n : nat) : list float :=
  map (fun i => Fin (0 + 0.1 * g i)) (seq 0 n).

Definition ifft_values (a : list complex) : list complex :=
  map (fun c => (fmul (fst c) (Fin (/ IZR (len a))), fmul (snd c) (Fin (/ IZR (len a)))))
      (dft 1 a).

(** The bin spacing [1.0 / (n * d)] for [d = 1 / sample_rate]. *)
Definition bin_width (n sample_rate : Z) : R :=
  1 / (IZR n * (1 / IZR sample_rate)).

(** Lines 17-30 as a function of the white noise. *)
Definition filtered_values (white : list float) (sample_rate : Z) : list float :=
  let pink_filter :=
    Fin 1 :: map (fun x => Fin (gain x))
                 (tl (bins (len white) (bin_width (len white) sample_rate))) in
  let fft_filtered :=
    map2 cmul (dft (-1) (map of_real white)) (map of_real pink_filter) in
  map fst (ifft_values fft_filtered).

(** The largest absolute value of a buffer. *)
Definition peak_of (xs : list R) : R :=
  match xs with
  | [] => 0
  | x :: xs' => fold_left Rmax (map Rabs xs') (Rabs x)
  end.

(** Line 33 on a finite buffer [rs]: the samples and the warnings. *)
Definition normalized (rs : list R) : list float :=
  if Reqb (peak_of rs) 0 then map (fun _ => NaN) rs
  else map (fun x => Fin (x / peak_of rs * 0.3)) rs.

Definition normalize_warnings (rs : list R) : list warning :=
  if Reqb (peak_of rs) 0 then [InvalidValue] else [].

(** The filtered noise of a run, as reals: it is always finite. *)
Definition raw_noise (g : nat -> R) (n : nat) (sample_rate : Z) : list R :=
  map to_R (filtered_values (white_values g n) sample_rate).

Definition noise_world (n : nat) (sample_rate : Z) (w : world) : world :=
  add_warnings (normalize_warnings (raw_noise (rng w) n sample_rate))
    (add_warnings [DivideByZero] (advance_rng n w)).

(** Line 15: the number of samples, the float64 product truncated. *)
Definition sample_count (D : R) (sample_rate : Z) : Z :=
  Rtrunc (fl64 (IZR sample_rate * D)).

(** The samples before quantization, for a run that reaches line 48. *)
Definition signal_values (g : nat -> R) (D : R) (sample_rate : Z) : list float :=
  let n := sample_count D sample_rate in
  let t := linspace_values (Fin 0) (Fin D) n false in
  map2 fmul
    (map2 fadd (normalized (raw_noise g (Z.to_nat n) sample_rate)) (harmonic_of t))
    (envelope_values (Z.to_nat n) (sample_rate ÷ 20)).

(** The run reaches the end exactly when there is at least one fade sample
    and at least as many samples as fade samples. *)
Definition well_sized (D : R) (sample_rate : Z) : Prop :=
  (1 <= sample_rate ÷ 20 <= sample_count D sample_rate)%Z.

(** The world a returning run leaves: the variates drawn, the warnings of
    the filter, of the normalization and of the cast. *)
Definition final_world (D : R) (sample_rate : Z) (w : world) : world :=
  add_warnings (cast_report (map scale_clip (signal_values (rng w) D sample_rate)))
    (noise_world (Z.to_nat (sample_count D sample_rate)) sample_rate w).

(** The float64 values: the dyadic numbers with a significand of 53 bits
    and an exponent of at least -1074. *)
Definition is_float64 (g : R) : Prop :=
  exists m e : Z, (Z.abs m <= 2 ^ 53)%Z /\ (-1074 <= e)%Z /\ g = IZR m * bpow e.

(** The float64 value of the literal [0.05] of line 44. *)
Definition float_0_05 : R := 3602879701896397 / 72057594037927936.

(** The floor of the specification: the greatest integer not above [x]. *)
Definition floor (x : R) : Z := Int_part x.

(** A world to run the script in: a generator that delivers the variate 1
    forever, nothing reported or written yet. *)
Definition world0 : world :=
  {| rng := fun _ => 1; warnings := []; dirs := []; files := [];
     refused := fun _ => false |}.

(** Two more worlds: a generator that delivers 0 forever, and one that
    delivers 1 once and 2 ever after. *)
Definition silent_world : world :=
  {| rng := fun _ => 0; warnings := []; dirs := []; files := [];
     refused := fun _ => false |}.

Definition world1 : world :=
  {| rng := fun i => match i with O => 1 | S _ => 2 end;
     warnings := []; dirs := []; files := [];
     refused := fun _ => false |}.

(** What the specification calls rounding to the nearest integer: no
    integer is closer to [y] than [z]. *)
Definition nearest_integer (y : R) (z : Z) : Prop :=
  forall m : Z, Rabs (y - IZR z) <= Rabs (y - IZR m).

(** [np.clip] on reals. *)
Definition clipR (y : R) : R := Rmin (Rmax y (-32768)) 32767.





(** A finite sample of absolute value at most [b]; a gain between 0 and 1;
    a time that is not negative. *)
Definition bounded (b : R) (v : float) : Prop := exists x, v = Fin x /\ Rabs x <= b.
Definition unit_gain (v : float) : Prop := exists x, v = Fin x /\ 0 <= x <= 1.
Definition nonneg_time (v : float) : Prop := exists x, v = Fin x /\ 0 <= x.

(** The transforms on pairs of reals, for the statements about the
    spectrum. *)
Definition rsum (l : list R) : R := fold_right Rplus 0 l.

Definition cfin (p : R * R) : complex := (Fin (fst p), Fin (snd p)).

Definition rcmul (p q : R * R) : R * R :=
  (fst p * fst q + - (snd p * snd q), fst p * snd q + snd p * fst q).

Definition theta (n k m : nat) : R := 2 * PI * INR k * INR m / INR n.

Definition rtw (sign : R) (n k m : nat) : R * R :=
  (cos (theta n k m), sign * sin (theta n k m)).

Definition rdft (sign : R) (a : list (R * R)) : list (R * R) :=
  let n := length a in
  map (fun k =>
         let terms := map (fun m => rcmul (nth m a (0, 0)) (rtw sign n k m)) (seq 0 n) in
         (0 + rsum (map fst terms), 0 + rsum (map snd terms)))
      (seq 0 n).

(** The array the inverse transform hands to [np.real], for the white
    noise [white]. *)
Definition back_values (white : list float) (sample_rate : Z) : list complex :=
  let pink_filter :=
    Fin 1 :: map (fun x => Fin (gain x))
                 (tl (bins (len white) (bin_width (len white) sample_rate))) in
  ifft_values (map2 cmul (dft (-1) (map of_real white)) (map of_real pink_filter)).

(* ================================================================== *)
(** ** Rounding to float64 *)

Lemma bpow_pos (e : Z) : 0 < bpow e.
Proof. apply powerRZ_lt. lra. Qed.

Lemma bpow_add (a b : Z) : bpow (a + b) = bpow a * bpow b.
Proof. unfold bpow. apply powerRZ_add. lra. Qed.

Lemma bpow_IZR (k : Z) : (0 <= k)%Z -> bpow k = IZR (2 ^ k).
Proof.
  intros Hk. destruct k as [|p|p]; [reflexivity| |lia].
  unfold bpow, powerRZ. rewrite pow_IZR, positive_nat_Z. reflexivity.
Qed.

Lemma bpow_ge_1 (k : Z) : (0 <= k)%Z -> 1 <= bpow k.
Proof.
  intros Hk. rewrite bpow_IZR by assumption. apply IZR_le.
  pose proof (Z.pow_pos_nonneg 2 k). lia.
Qed.

Lemma bpow_ge_2 (k : Z) : (1 <= k)%Z -> 2 <= bpow k.
Proof.
  intros Hk. rewrite bpow_IZR by lia. apply IZR_le.
  pose proof (Z.pow_le_mono_r 2 1 k). lia.
Qed.

Lemma bpow_le (a b : Z) : (a <= b)%Z -> bpow a <= bpow b.
Proof.
  intros H. replace b with (a + (b - a))%Z by lia. rewrite bpow_add.
  pose proof (bpow_ge_1 (b - a)). pose proof (bpow_pos a).
  assert (1 <= bpow (b - a)) by (apply H0; lia). nra.
Qed.

Lemma bpow_lt (a b : Z) : (a < b)%Z -> bpow a < bpow b.
Proof.
  intros H. replace b with (a + (b - a))%Z by lia. rewrite bpow_add.
  pose proof (bpow_ge_2 (b - a)). pose proof (bpow_pos a).
  assert (2 <= bpow (b - a)) by (apply H0; lia). nra.
Qed.

Lemma exp_le (x y : R) : x <= y -> exp x <= exp y.
Proof.
  intros [H | ->]; [left; now apply exp_increasing | right; reflexivity].
Qed.

Lemma ln2_pos : 0 < ln 2.
Proof. pose proof ln_lt_2. lra. Qed.

Lemma bpow_exp (k : Z) : bpow k = exp (IZR k * ln 2).
Proof. unfold bpow. rewrite powerRZ_Rpower by lra. reflexivity. Qed.

Lemma mag_spec (a : R) : 0 < a -> bpow (mag a) <= a < bpow (mag a + 1).
Proof.
  intros Ha. pose proof ln2_pos as H2.
  unfold mag. set (L := ln a / ln 2).
  destruct (base_Int_part L) as [H1 H3].
  assert (HL : ln a = L * ln 2) by (unfold L; field; lra).
  rewrite !bpow_exp, plus_IZR.
  assert (E : exp (L * ln 2) = a) by (rewrite <- HL; now apply exp_ln).
  clearbody L. rewrite <- E. split.
  - apply exp_le. nra.
  - apply exp_increasing. nra.
Qed.

Lemma mag_unique (k : Z) (a : R) : bpow k <= a < bpow (k + 1) -> mag a = k.
Proof.
  intros [H1 H2]. pose proof (bpow_pos k).
  destruct (mag_spec a) as [H3 H4]; [lra|].
  destruct (Z.lt_trichotomy (mag a) k) as [Hlt | [Heq | Hgt]]; [|assumption|].
  - pose proof (bpow_le (mag a + 1) k). assert (bpow (mag a + 1) <= bpow k) by (apply H0; lia). lra.
  - pose proof (bpow_le (k + 1) (mag a)). assert (bpow (k + 1) <= bpow (mag a)) by (apply H0; lia). lra.
Qed.

(** The nearest integer, ties to even. *)

Lemma rne_cases (y : R) :
  IZR (Int_part y) <= y < IZR (Int_part y) + 1
  /\ ((rne y = Int_part y /\ y - IZR (Int_part y) <= 1 / 2)
      \/ (rne y = (Int_part y + 1)%Z /\ 1 / 2 <= y - IZR (Int_part y))).
Proof.
  destruct (base_Int_part y) as [H1 H2]. split; [lra|].
  unfold rne. cbv zeta.
  destruct (Rlt_dec (y - IZR (Int_part y)) (1 / 2)); [left; split; [reflexivity|lra]|].
  destruct (Rlt_dec (1 / 2) (y - IZR (Int_part y))); [right; split; [reflexivity|lra]|].
  destruct (Z.even (Int_part y)); [left|right]; split; try reflexivity; lra.
Qed.

Lemma rne_nearest (y : R) (z : Z) :
  Rabs (y - IZR (rne y)) <= Rabs (y - IZR z).
Proof.
  destruct (rne_cases y) as [[H1 H2] H].
  assert (Hz : IZR z <= IZR (Int_part y) \/ IZR (Int_part y) + 1 <= IZR z).
  { destruct (Z_le_gt_dec z (Int_part y)) as [Hle | Hgt].
    - left. now apply IZR_le.
    - right. rewrite <- plus_IZR. apply IZR_le. lia. }
  destruct H as [[-> H] | [-> H]]; rewrite ?plus_IZR;
    unfold Rabs; repeat destruct Rcase_abs; lra.
Qed.

Lemma rne_snap (y : R) (K : Z) : Rabs (y - IZR K) < 1 / 2 -> rne y = K.
Proof.
  intros H. pose proof (rne_nearest y K) as Hn.
  assert (Hd : -1 < IZR (rne y - K) < 1).
  { rewrite minus_IZR. revert H Hn. unfold Rabs. repeat destruct Rcase_abs; lra. }
  apply one_IZR_lt1 in Hd. lia.
Qed.

Lemma rne_IZR (z : Z) : rne (IZR z) = z.
Proof. apply rne_snap. rewrite Rminus_diag, Rabs_R0. lra. Qed.

Lemma rne_le (y : R) (K : Z) : y <= IZR K -> (rne y <= K)%Z.
Proof.
  intros H. destruct (Z_le_gt_dec (rne y) K) as [Hle | Hgt]; [assumption|exfalso].
  assert (IZR K + 1 <= IZR (rne y)) by (rewrite <- plus_IZR; apply IZR_le; lia).
  pose proof (rne_nearest y K) as Hn. revert Hn.
  unfold Rabs. repeat destruct Rcase_abs; lra.
Qed.

Lemma rne_ge (y : R) (K : Z) : IZR K <= y -> (K <= rne y)%Z.
Proof.
  intros H. destruct (Z_le_gt_dec K (rne y)) as [Hle | Hgt]; [assumption|exfalso].
  assert (IZR (rne y) + 1 <= IZR K) by (rewrite <- plus_IZR; apply IZR_le; lia).
  pose proof (rne_nearest y K) as Hn. revert Hn.
  unfold Rabs. repeat destruct Rcase_abs; lra.
Qed.

(** Rounding a positive real. *)

Lemma ulp_pos (a : R) : 0 < ulp a.
Proof. apply bpow_pos. Qed.

Lemma round_pos_multiple (a : R) (K : Z) :
  Rabs (a - round_pos a) <= Rabs (a - IZR K * ulp a).
Proof.
  unfold round_pos. pose proof (ulp_pos a) as Hu.
  pose proof (rne_nearest (a / ulp a) K) as Hn.
  replace (a - IZR (rne (a / ulp a)) * ulp a)
    with ((a / ulp a - IZR (rne (a / ulp a))) * ulp a) by (field; lra).
  replace (a - IZR K * ulp a) with ((a / ulp a - IZR K) * ulp a) by (field; lra).
  rewrite !Rabs_mult, (Rabs_pos_eq (ulp a)) by lra.
  apply Rmult_le_compat_r; lra.
Qed.

Lemma below_ulp_range (a : R) :
  0 < a -> a < IZR (2 ^ 53) * ulp a.
Proof.
  intros Ha. destruct (mag_spec a Ha) as [_ H].
  unfold ulp. rewrite <- bpow_IZR by lia. rewrite <- bpow_add.
  eapply Rlt_le_trans; [exact H|]. apply bpow_le. lia.
Qed.

Lemma round_pos_float (a : R) : 0 < a -> is_float64 (round_pos a).
Proof.
  intros Ha. pose proof (ulp_pos a) as Hu. pose proof (below_ulp_range a Ha) as Hr.
  exists (rne (a / ulp a)), (Z.max (mag a) (-1022) - 52)%Z. split; [|split].
  - assert (0 <= rne (a / ulp a))%Z.
    { apply rne_ge. apply Rmult_le_pos; [lra|]. left. now apply Rinv_0_lt_compat. }
    assert (rne (a / ulp a) <= 2 ^ 53)%Z.
    { apply rne_le. apply Rmult_le_reg_r with (ulp a); [lra|].
      unfold Rdiv. rewrite Rmult_assoc, Rinv_l by lra. lra. }
    lia.
  - lia.
  - reflexivity.
Qed.

Lemma round_pos_nearest (a g : R) :
  0 < a -> is_float64 g -> Rabs (a - round_pos a) <= Rabs (a - g).
Proof.
  intros Ha (m & eg & Hm & He & ->).
  set (e := Z.max (mag a) (-1022)).
  destruct (Z_le_gt_dec (e - 52) eg) as [Hle | Hgt].
  - replace (IZR m * bpow eg) with (IZR (m * 2 ^ (eg - (e - 52))) * ulp a).
    + apply round_pos_multiple.
    + rewrite mult_IZR, <- bpow_IZR by lia. unfold ulp. fold e.
      rewrite Rmult_assoc, <- bpow_add. do 2 f_equal. lia.
  - assert (Hmag : e = mag a) by (unfold e in *; lia).
    destruct (mag_spec a Ha) as [Hlo _]. rewrite <- Hmag in Hlo.
    assert (Hg : IZR m * bpow eg <= bpow e).
    { apply Rle_trans with (IZR (2 ^ 53) * bpow eg).
      - apply Rmult_le_compat_r; [left; apply bpow_pos|]. apply IZR_le. lia.
      - rewrite <- bpow_IZR, <- bpow_add by lia. apply bpow_le. lia. }
    pose proof (round_pos_multiple a (2 ^ 52)) as Hn.
    replace (IZR (2 ^ 52) * ulp a) with (bpow e) in Hn.
    + eapply Rle_trans; [exact Hn|].
      unfold Rabs. repeat destruct Rcase_abs; lra.
    + unfold ulp. fold e. rewrite <- bpow_IZR, <- bpow_add by lia. f_equal. lia.
Qed.

(** Rounding any real: the result is a float64 and no float64 is nearer. *)

Lemma is_float64_0 : is_float64 0.
Proof. exists 0%Z, 0%Z. repeat split; try lia. simpl. lra. Qed.

Lemma is_float64_opp (g : R) : is_float64 g -> is_float64 (- g).
Proof.
  intros (m & e & Hm & He & ->). exists (- m)%Z, e. repeat split; try lia.
  rewrite opp_IZR. lra.
Qed.

Lemma is_float64_IZR (z : Z) : (Z.abs z <= 2 ^ 53)%Z -> is_float64 (IZR z).
Proof.
  intros H. exists z, 0%Z. repeat split; try lia. unfold bpow. simpl. lra.
Qed.

Lemma round64_float (x : R) : is_float64 (round64 x).
Proof.
  unfold round64. destruct (Rlt_dec 0 x); [now apply round_pos_float|].
  destruct (Rlt_dec x 0); [|apply is_float64_0].
  apply is_float64_opp, round_pos_float. lra.
Qed.

Lemma round64_nearest (x g : R) :
  is_float64 g -> Rabs (x - round64 x) <= Rabs (x - g).
Proof.
  intros Hg. unfold round64. destruct (Rlt_dec 0 x); [now apply round_pos_nearest|].
  destruct (Rlt_dec x 0).
  - pose proof (round_pos_nearest (- x) (- g)) as H.
    replace (x - - round_pos (- x)) with (- (- x - round_pos (- x))) by lra.
    replace (x - g) with (- (- x - - g)) by lra.
    rewrite !Rabs_Ropp. apply H; [lra|now apply is_float64_opp].
  - rewrite Rminus_0_r. replace x with 0 by lra. rewrite Rabs_R0. apply Rabs_pos.
Qed.

Lemma round64_opp (x : R) : round64 (- x) = - round64 x.
Proof.
  unfold round64.
  destruct (Rlt_dec 0 (- x)), (Rlt_dec 0 x), (Rlt_dec (- x) 0), (Rlt_dec x 0);
    try lra.
  now rewrite Ropp_involutive.
Qed.

Lemma round64_id (g : R) : is_float64 g -> round64 g = g.
Proof.
  intros Hg. pose proof (round64_nearest g g Hg) as H.
  rewrite Rminus_diag, Rabs_R0 in H.
  pose proof (Rabs_pos (g - round64 g)).
  assert (Rabs (g - round64 g) = 0) by lra.
  revert H1. unfold Rabs. destruct Rcase_abs; lra.
Qed.

Lemma round64_ge (g x : R) : is_float64 g -> g <= x -> g <= round64 x.
Proof.
  intros Hg Hx. pose proof (round64_nearest x g Hg) as H.
  revert H. unfold Rabs. repeat destruct Rcase_abs; lra.
Qed.

Lemma round64_le (g x : R) : is_float64 g -> x <= g -> round64 x <= g.
Proof.
  intros Hg Hx. pose proof (round64_nearest x g Hg) as H.
  revert H. unfold Rabs. repeat destruct Rcase_abs; lra.
Qed.

Lemma round64_monotone (x y : R) : x <= y -> round64 x <= round64 y.
Proof.
  intros [Hlt | ->]; [|lra].
  pose proof (round64_nearest x (round64 y) (round64_float y)) as H1.
  pose proof (round64_nearest y (round64 x) (round64_float x)) as H2.
  revert H1 H2. unfold Rabs. repeat destruct Rcase_abs; lra.
Qed.

(** The float64 values of one binade are the multiples of its unit. *)
Lemma float_spacing (g : R) (k : Z) :
  is_float64 g -> bpow k <= g -> exists K : Z, g = IZR K * bpow (k - 52).
Proof.
  intros (m & eg & Hm & He & ->) Hk.
  destruct (Z_le_gt_dec (k - 52) eg) as [Hle | Hgt].
  - exists (m * 2 ^ (eg - (k - 52)))%Z.
    rewrite mult_IZR, <- bpow_IZR by lia.
    rewrite Rmult_assoc, <- bpow_add. do 2 f_equal. lia.
  - exists (2 ^ 52)%Z.
    assert (Hg : IZR m * bpow eg <= bpow k).
    { apply Rle_trans with (IZR (2 ^ 53) * bpow eg).
      - apply Rmult_le_compat_r; [left; apply bpow_pos|]. apply IZR_le. lia.
      - rewrite <- bpow_IZR, <- bpow_add by lia. apply bpow_le. lia. }
    rewrite <- bpow_IZR, <- bpow_add by lia.
    replace (52 + (k - 52))%Z with k by lia. lra.
Qed.

(** A real close enough to a multiple of the unit of its binade rounds to it. *)
Lemma round64_snap (k K : Z) (x : R) :
  (-1022 <= k)%Z ->
  bpow k <= x < bpow (k + 1) ->
  Rabs (x - IZR K * bpow (k - 52)) < bpow (k - 52) / 2 ->
  round64 x = IZR K * bpow (k - 52).
Proof.
  intros Hk Hx Hd. pose proof (bpow_pos k).
  unfold round64. destruct (Rlt_dec 0 x) as [_|n]; [|lra].
  unfold round_pos, ulp. rewrite (mag_unique k x Hx).
  replace (Z.max k (-1022)) with k by lia.
  pose proof (bpow_pos (k - 52)) as Hu.
  f_equal. f_equal. apply rne_snap.
  replace (x / bpow (k - 52) - IZR K)
    with ((x - IZR K * bpow (k - 52)) * / bpow (k - 52)) by (field; lra).
  rewrite Rabs_mult, (Rabs_pos_eq (/ bpow (k - 52)))
    by (left; now apply Rinv_0_lt_compat).
  apply Rmult_lt_reg_r with (bpow (k - 52)); [assumption|].
  rewrite Rmult_assoc, Rinv_l by lra. lra.
Qed.

(** The rounding of the model. *)

Lemma is_float64_2p53 : is_float64 9007199254740992.
Proof. apply is_float64_IZR. vm_compute. discriminate. Qed.

Lemma fl64_opp (x : R) : fl64 (- x) = - fl64 x.
Proof.
  unfold fl64. rewrite Rabs_Ropp.
  destruct (Rlt_dec (Rabs x) 9007199254740992); [apply round64_opp|reflexivity].
Qed.

Lemma fl64_id (g : R) : is_float64 g -> fl64 g = g.
Proof.
  intros Hg. unfold fl64. destruct Rlt_dec; [now apply round64_id|reflexivity].
Qed.

Lemma fl64_ge (g x : R) : is_float64 g -> g <= x -> g <= fl64 x.
Proof.
  intros Hg Hx. unfold fl64. destruct Rlt_dec; [now apply round64_ge|assumption].
Qed.

Lemma fl64_le (g x : R) : is_float64 g -> x <= g -> fl64 x <= g.
Proof.
  intros Hg Hx. unfold fl64. destruct Rlt_dec; [now apply round64_le|assumption].
Qed.

Lemma fl64_monotone (x y : R) : x <= y -> fl64 x <= fl64 y.
Proof.
  intros H. unfold fl64.
  destruct (Rlt_dec (Rabs x) 9007199254740992) as [Hx | Hx],
           (Rlt_dec (Rabs y) 9007199254740992) as [Hy | Hy].
  - now apply round64_monotone.
  - assert (9007199254740992 <= y).
    { revert Hx Hy. unfold Rabs. repeat destruct Rcase_abs; lra. }
    apply Rle_trans with 9007199254740992; [|assumption].
    apply round64_le; [apply is_float64_2p53|].
    revert Hx. unfold Rabs. destruct Rcase_abs; lra.
  - assert (x <= - 9007199254740992).
    { revert Hx Hy. unfold Rabs. repeat destruct Rcase_abs; lra. }
    apply Rle_trans with (- 9007199254740992); [assumption|].
    apply round64_ge; [apply is_float64_opp, is_float64_2p53|].
    revert Hy. unfold Rabs. destruct Rcase_abs; lra.
  - assumption.
Qed.

Lemma fl64_0 : fl64 0 = 0.
Proof. apply fl64_id, is_float64_0. Qed.

Lemma fl64_IZR (z : Z) : (Z.abs z <= 2 ^ 53)%Z -> fl64 (IZR z) = IZR z.
Proof. intros H. now apply fl64_id, is_float64_IZR. Qed.

Lemma bpow_neg (k : Z) : (0 <= k)%Z -> bpow (- k) = / IZR (2 ^ k).
Proof.
  intros Hk. rewrite <- bpow_IZR by assumption. unfold bpow. apply powerRZ_neg'.
Qed.

(** A real within half a unit of an integer rounds to that integer. *)
Lemma fl64_snap (k z : Z) (x : R) :
  (-1022 <= k <= 52)%Z ->
  bpow k <= x < bpow (k + 1) ->
  Rabs (x - IZR z) < bpow (k - 53) ->
  fl64 x = IZR z.
Proof.
  intros Hk Hx Hd.
  assert (Hz : IZR z = IZR (z * 2 ^ (52 - k)) * bpow (k - 52)).
  { rewrite mult_IZR, <- bpow_IZR, Rmult_assoc, <- bpow_add by lia.
    replace (52 - k + (k - 52))%Z with 0%Z by lia. unfold bpow. simpl. lra. }
  assert (Hu : bpow (k - 52) / 2 = bpow (k - 53)).
  { replace (k - 52)%Z with (k - 53 + 1)%Z by lia. rewrite bpow_add.
    unfold bpow at 2. simpl. lra. }
  unfold fl64. destruct Rlt_dec as [_ | Hbig].
  - rewrite Hz. apply round64_snap; [lia|assumption|]. rewrite <- Hz, Hu. assumption.
  - exfalso. apply Hbig. pose proof (bpow_pos k).
    assert (bpow (k + 1) <= bpow 53) by (apply bpow_le; lia).
    rewrite (bpow_IZR 53) in H0 by lia.
    change (2 ^ 53)%Z with 9007199254740992%Z in H0.
    rewrite Rabs_pos_eq; lra.
Qed.

Ltac bpow_values :=
  repeat match goal with
  | |- context [bpow (Zneg ?p)] =>
      let v := eval vm_compute in (2 ^ Zpos p)%Z in
      replace (bpow (Zneg p)) with (/ IZR v)
        by (symmetry; apply (bpow_neg (Zpos p)); discriminate)
  | |- context [bpow (Zpos ?p)] =>
      let v := eval vm_compute in (2 ^ Zpos p)%Z in
      replace (bpow (Zpos p)) with (IZR v)
        by (symmetry; apply (bpow_IZR (Zpos p)); discriminate)
  | |- context [bpow 0] => replace (bpow 0) with 1 by reflexivity
  end.

Ltac snap k :=
  apply (fl64_snap k); [lia | simpl Z.add; bpow_values; lra
                       | simpl Z.sub; bpow_values; unfold Rabs; destruct Rcase_abs; lra].

(* ================================================================== *)
(** ** Truncation and real comparisons *)

Lemma Reqb_true (x y : R) : Reqb x y = true <-> x = y.
Proof. unfold Reqb. destruct (Req_dec_T x y); split; congruence. Qed.

Lemma Reqb_false (x y : R) : Reqb x y = false <-> x <> y.
Proof. unfold Reqb. destruct (Req_dec_T x y); split; congruence. Qed.

Lemma Reqb_refl (x : R) : Reqb x x = true.
Proof. now apply Reqb_true. Qed.

Lemma Rltb_true (x y : R) : Rltb x y = true <-> x < y.
Proof. unfold Rltb. destruct (Rlt_dec x y); split; congruence. Qed.

Lemma Rltb_false (x y : R) : Rltb x y = false <-> y <= x.
Proof.
  unfold Rltb. destruct (Rlt_dec x y); split; try congruence; intros; lra.
Qed.

Lemma Rtrunc_nonneg_spec (x : R) (z : Z) :
  0 <= x -> IZR z <= x < IZR z + 1 -> Rtrunc x = z.
Proof.
  intros Hx Hz. unfold Rtrunc. destruct (Rle_dec 0 x) as [_|n]; [|contradiction].
  symmetry. apply Int_part_spec. split; lra.
Qed.

Lemma Rtrunc_nonpos_spec (x : R) (z : Z) :
  x <= 0 -> IZR z - 1 < x <= IZR z -> Rtrunc x = z.
Proof.
  intros Hx Hz. unfold Rtrunc. destruct (Rle_dec 0 x) as [H0|H0].
  - assert (Hz0 : z = 0%Z).
    { assert (z < 1)%Z by (apply lt_IZR; lra).
      assert (0 <= z)%Z by (apply le_IZR; lra). lia. }
    subst z. symmetry. apply Int_part_spec. split; lra.
  - assert (E : (- z)%Z = Int_part (- x)).
    { apply Int_part_spec. rewrite opp_IZR. split; lra. }
    rewrite <- E. lia.
Qed.

Lemma Rtrunc_floor (x : R) : 0 <= x -> Rtrunc x = Int_part x.
Proof.
  intros Hx. unfold Rtrunc. now destruct (Rle_dec 0 x).
Qed.

Lemma Rtrunc_nonneg_bounds (x : R) :
  0 <= x -> IZR (Rtrunc x) <= x < IZR (Rtrunc x) + 1.
Proof.
  intros Hx. rewrite Rtrunc_floor by assumption.
  destruct (base_Int_part x). split; lra.
Qed.

Lemma Rtrunc_nonpos_bounds (x : R) :
  x <= 0 -> IZR (Rtrunc x) - 1 < x <= IZR (Rtrunc x).
Proof.
  intros Hx. unfold Rtrunc. destruct (Rle_dec 0 x) as [H0|H0].
  - assert (x = 0) by lra. subst x.
    rewrite <- (Int_part_spec 0 0) by (split; lra). split; lra.
  - destruct (base_Int_part (- x)). rewrite opp_IZR. split; lra.
Qed.

Lemma Rtrunc_IZR (z : Z) : Rtrunc (IZR z) = z.
Proof.
  destruct (Rle_dec 0 (IZR z)).
  - apply Rtrunc_nonneg_spec; [|split]; lra.
  - apply Rtrunc_nonpos_spec; [|split]; lra.
Qed.

Lemma Rtrunc_sign_nonneg (x : R) : 0 <= x -> (0 <= Rtrunc x)%Z.
Proof.
  intros Hx. pose proof (Rtrunc_nonneg_bounds x Hx) as [_ H].
  apply Z.lt_succ_r. apply lt_IZR. rewrite succ_IZR. lra.
Qed.

Lemma Rtrunc_sign_nonpos (x : R) : x <= 0 -> (Rtrunc x <= 0)%Z.
Proof.
  intros Hx. pose proof (Rtrunc_nonpos_bounds x Hx) as [H _].
  apply Z.lt_succ_r. apply lt_IZR. rewrite succ_IZR. lra.
Qed.

(** Truncation is monotone. *)
Lemma Rtrunc_le (x y : R) : x <= y -> (Rtrunc x <= Rtrunc y)%Z.
Proof.
  intros Hxy.
  destruct (Rle_dec 0 x) as [Hx|Hx]; destruct (Rle_dec 0 y) as [Hy|Hy].
  - pose proof (Rtrunc_nonneg_bounds x Hx). pose proof (Rtrunc_nonneg_bounds y Hy).
    apply Z.lt_succ_r. apply lt_IZR. rewrite succ_IZR. lra.
  - lra.
  - pose proof (Rtrunc_sign_nonneg y Hy).
    assert (x <= 0) as Hx' by lra. pose proof (Rtrunc_sign_nonpos x Hx'). lia.
  - assert (x <= 0) as Hx' by lra. assert (y <= 0) as Hy' by lra.
    pose proof (Rtrunc_nonpos_bounds x Hx'). pose proof (Rtrunc_nonpos_bounds y Hy').
    apply Z.lt_succ_r. apply lt_IZR. rewrite succ_IZR. lra.
Qed.

(** [int(0.05 * r)] on an integer [r] is the integer quotient by 20,
    rounded toward zero. *)
Lemma Rtrunc_opp (y : R) : Rtrunc (- y) = (- Rtrunc y)%Z.
Proof.
  destruct (Rle_dec 0 y) as [Hy|Hy].
  - destruct (Req_dec y 0) as [->|Hn].
    + rewrite Ropp_0, (Rtrunc_IZR 0). reflexivity.
    + pose proof (Rtrunc_nonneg_bounds y Hy) as [B1 B2].
      apply Rtrunc_nonpos_spec; [lra|]. rewrite opp_IZR. split; lra.
  - assert (Hy' : y <= 0) by lra.
    pose proof (Rtrunc_nonpos_bounds y Hy') as [B1 B2].
    apply Rtrunc_nonneg_spec; [lra|]. rewrite opp_IZR. split; lra.
Qed.

Lemma Rtrunc_twentieth (r : Z) : Rtrunc (0.05 * IZR r) = (r ÷ 20)%Z.
Proof.
  pose proof (Z.quot_rem' r 20) as E.
  assert (HE : IZR r = 20 * IZR (r ÷ 20) + IZR (Z.rem r 20)).
  { rewrite E at 1. rewrite plus_IZR, mult_IZR. reflexivity. }
  destruct (Z_le_gt_dec 0 r) as [Hr|Hr].
  - pose proof (Z.rem_bound_pos r 20 Hr ltac:(lia)) as [B1 B2].
    apply IZR_le in B1. apply IZR_lt in B2.
    apply Rtrunc_nonneg_spec.
    + apply IZR_le in Hr. lra.
    + split; lra.
  - assert (Hr' : (r <= 0)%Z) by lia.
    pose proof (Z.rem_bound_pos (- r) 20 ltac:(lia) ltac:(lia)) as B.
    rewrite Z.rem_opp_l in B by lia.
    assert (B1 : (-20 < Z.rem r 20)%Z) by lia.
    assert (B2 : (Z.rem r 20 <= 0)%Z) by lia.
    apply IZR_lt in B1. apply IZR_le in B2.
    apply Rtrunc_nonpos_spec.
    + apply IZR_le in Hr'. lra.
    + split; lra.
Qed.

(* ================================================================== *)
(** ** The monad *)

Lemma bind_ok {A B} (m : M A) (k : A -> M B) w a w1 :
  m w = (inr a, w1) -> bind m k w = k a w1.
Proof. intros H. unfold bind. now rewrite H. Qed.

Lemma bind_err {A B} (m : M A) (k : A -> M B) w e w1 :
  m w = (inl e, w1) -> bind m k w = (inl e, w1).
Proof. intros H. unfold bind. now rewrite H. Qed.

Lemma bind_inv {A B} (m : M A) (k : A -> M B) w b w2 :
  bind m k w = (inr b, w2) ->
  exists a w1, m w = (inr a, w1) /\ k a w1 = (inr b, w2).
Proof.
  unfold bind. destruct (m w) as [[e|a] w1]; intros H.
  - discriminate.
  - now exists a, w1.
Qed.

Lemma ret_inv {A} (a b : A) w w' : ret a w = (inr b, w') -> a = b /\ w = w'.
Proof. unfold ret. intros H. now inversion H. Qed.

(* ================================================================== *)
(** ** Arrays *)

Lemma len_nonneg {A} (l : list A) : (0 <= len l)%Z.
Proof. unfold len. lia. Qed.

Lemma arange_length (a b : Z) : length (arange a b) = Z.to_nat (b - a).
Proof. unfold arange. now rewrite length_map, length_seq. Qed.

Lemma arange_nth (a b : Z) (i : nat) (d : Z) :
  (i < Z.to_nat (b - a))%nat -> nth i (arange a b) d = (a + Z.of_nat i)%Z.
Proof.
  intros Hi. unfold arange.
  rewrite (nth_indep _ d (a + Z.of_nat 0)%Z) by now rewrite length_map, length_seq.
  rewrite (map_nth (fun i => (a + Z.of_nat i)%Z)), seq_nth by assumption.
  reflexivity.
Qed.

Lemma map2_length {A B C} (f : A -> B -> C) xs ys :
  length (map2 f xs ys) = Nat.min (length xs) (length ys).
Proof.
  revert ys. induction xs as [|x xs IH]; intros [|y ys]; simpl; auto.
Qed.

Lemma map2_nth {A B C} (f : A -> B -> C) xs ys i da db dc :
  (i < length xs)%nat -> (i < length ys)%nat ->
  nth i (map2 f xs ys) dc = f (nth i xs da) (nth i ys db).
Proof.
  revert ys i. induction xs as [|x xs IH]; intros [|y ys] [|i]; simpl;
    try lia; auto.
  intros. apply IH; lia.
Qed.

Lemma set_last_length {A} (l : list A) v : length (set_last l v) = length l.
Proof.
  induction l as [|x [|y l] IH]; simpl in *; auto.
Qed.

Lemma set_last_nth {A} (l : list A) v i d :
  (i < length l)%nat ->
  nth i (set_last l v) d = if (S i =? length l)%nat then v else nth i l d.
Proof.
  revert i. induction l as [|x [|y l] IH]; intros i Hi.
  - simpl in Hi. lia.
  - simpl in *. assert (i = 0)%nat by lia. now subst.
  - destruct i as [|i].
    + reflexivity.
    + change (nth (S i) (set_last (x :: y :: l) v) d)
        with (nth i (set_last (y :: l) v) d).
      rewrite IH by (simpl in *; lia). reflexivity.
Qed.

Lemma Forall_nth_iff {A} (P : A -> Prop) (l : list A) (d : A) :
  Forall P l <-> (forall i, (i < length l)%nat -> P (nth i l d)).
Proof.
  split.
  - intros H i Hi. rewrite Forall_forall in H. apply H. now apply nth_In.
  - intros H. apply Forall_forall. intros x Hx.
    destruct (In_nth l x d Hx) as (i & Hi & <-). now apply H.
Qed.

Lemma finite_to_R (a : float) : finite a -> a = Fin (to_R a).
Proof. destruct a; simpl; intros H; now try contradiction. Qed.

Lemma nth_map_lt {A B} (f : A -> B) (l : list A) i da db :
  (i < length l)%nat -> nth i (map f l) db = f (nth i l da).
Proof.
  intros Hi. rewrite (nth_indep _ db (f da)) by now rewrite length_map.
  apply map_nth.
Qed.

Lemma fdiv_fin (x y : R) : y <> 0 -> fdiv (Fin x) (Fin y) = Fin (x / y).
Proof. intros Hy. simpl. apply Reqb_false in Hy. now rewrite Hy. Qed.

Lemma fdiv_flag_fin (x y : R) : y <> 0 -> fdiv_flag (Fin x) (Fin y) = None.
Proof. intros Hy. simpl. apply Reqb_false in Hy. now rewrite Hy. Qed.

(** *** [np.linspace] *)

Lemma linspace_values_length a b num ep :
  length (linspace_values a b num ep) = Z.to_nat num.
Proof.
  unfold linspace_values.
  assert (L : forall f g : float -> float,
             length (map f (map g (map of_int (arange 0 num)))) = Z.to_nat num).
  { intros. rewrite !length_map, arange_length. f_equal. lia. }
  destruct ep; destruct (0 <? _)%Z; destruct (1 <? num)%Z;
    simpl; rewrite ?set_last_length; apply L.
Qed.

Lemma linspace_values_nth (a b : R) (num : Z) (ep : bool) (i : nat) (d : float) :
  let div := if ep then (num - 1)%Z else num in
  (0 < div)%Z -> (Z.of_nat i < num)%Z ->
  nth i (linspace_values (Fin a) (Fin b) num ep) d
  = Fin (a + IZR (Z.of_nat i) * (b - a) / IZR div).
Proof.
  intros div Hdiv Hi.
  assert (Hd : IZR div <> 0) by (apply not_0_IZR; lia).
  assert (Hlen : (i < length (arange 0 num))%nat)
    by (rewrite arange_length; lia).
  assert (Body : forall d',
    nth i (map (fun v => fadd v (Fin a))
            (map (fun v => fmul v (fdiv (fsub (Fin b) (Fin a)) (of_int div)))
               (map of_int (arange 0 num)))) d'
    = Fin (a + IZR (Z.of_nat i) * (b - a) / IZR div)).
  { intros d'. rewrite !map_map.
    rewrite (nth_map_lt _ _ _ 0%Z) by assumption.
    rewrite arange_nth by (rewrite arange_length in Hlen; exact Hlen).
    unfold of_int, fsub. simpl fneg. simpl fadd at 2.
    rewrite fdiv_fin by assumption. simpl. f_equal.
    rewrite ?Z.add_0_l. field. assumption. }
  unfold linspace_values. fold div.
  replace (0 <? div)%Z with true by (symmetry; apply Z.ltb_lt; lia).
  destruct ep; simpl andb.
  - subst div.
    replace (1 <? num)%Z with true by (symmetry; apply Z.ltb_lt; lia).
    rewrite set_last_nth by (rewrite !length_map; assumption).
    rewrite !length_map, arange_length.
    destruct (Nat.eqb_spec (S i) (Z.to_nat (num - 0))) as [E|E].
    + f_equal. replace (Z.of_nat i) with (num - 1)%Z by lia. field. assumption.
    + apply Body.
  - apply Body.
Qed.

Lemma linspace_values_one (a b : R) : linspace_values (Fin a) (Fin b) 1 true = [Fin a].
Proof.
  unfold linspace_values. simpl. f_equal. f_equal. ring.
Qed.

Lemma np_linspace_ok a b num ep w :
  (0 <= num)%Z -> np_linspace a b num ep w = (inr (linspace_values a b num ep), w).
Proof.
  intros H. unfold np_linspace.
  replace (num <? 0)%Z with false by (symmetry; apply Z.ltb_ge; lia).
  reflexivity.
Qed.

Lemma np_linspace_err a b num ep w :
  (num < 0)%Z -> np_linspace a b num ep w = (inl ValueError, w).
Proof.
  intros H. unfold np_linspace.
  replace (num <? 0)%Z with true by (symmetry; apply Z.ltb_lt; lia).
  reflexivity.
Qed.

(** *** The envelope *)

Lemma fade_samples_of_eq (sample_rate : Z) w :
  fade_samples_of sample_rate w = (inr (sample_rate ÷ 20)%Z, w).
Proof.
  unfold fade_samples_of, of_int. simpl. unfold ret.
  now rewrite Rtrunc_twentieth.
Qed.

(** Line 44 in float64.  The script multiplies the float64 value of 0.05
    by the rate and rounds the product; [fade_samples_of] keeps the product
    exact.  For every rate up to 2^52 in magnitude the two give the same
    number of fade samples. *)
Lemma fade_count_float64_nonneg (sample_rate : Z) :
  (0 <= sample_rate <= 2 ^ 52)%Z ->
  Rtrunc (fl64 (float_0_05 * IZR sample_rate)) = (sample_rate ÷ 20)%Z.
Proof.
  intros Hs. change (2 ^ 52)%Z with 4503599627370496%Z in Hs.
  pose proof (Z.quot_rem' sample_rate 20) as E.
  pose proof (Z.rem_bound_pos sample_rate 20 ltac:(lia) ltac:(lia)) as Hr.
  set (q := (sample_rate ÷ 20)%Z) in *. set (r := Z.rem sample_rate 20) in *.
  assert (Hq : (0 <= q <= 225179981368525)%Z) by lia.
  assert (ER : IZR sample_rate = 20 * IZR q + IZR r)
    by (rewrite E, plus_IZR, mult_IZR; reflexivity).
  assert (Q0 : 0 <= IZR q <= 225179981368525) by (split; apply IZR_le; lia).
  assert (R0 : 0 <= IZR r <= 19) by (split; apply IZR_le; lia).
  assert (L : IZR q <= fl64 (float_0_05 * IZR sample_rate)).
  { apply fl64_ge;
      [apply is_float64_IZR; change (2 ^ 53)%Z with 9007199254740992%Z; lia|].
    unfold float_0_05. rewrite ER. lra. }
  assert (U : fl64 (float_0_05 * IZR sample_rate) <= IZR (32 * q + 31) * bpow (-5)).
  { apply fl64_le.
    - exists (32 * q + 31)%Z, (-5)%Z. repeat split; try discriminate.
      change (2 ^ 53)%Z with 9007199254740992%Z. lia.
    - rewrite plus_IZR, mult_IZR. unfold bpow. simpl powerRZ.
      unfold float_0_05. rewrite ER. lra. }
  rewrite plus_IZR, mult_IZR in U. unfold bpow in U. simpl powerRZ in U.
  apply Rtrunc_nonneg_spec; [lra|]. split; lra.
Qed.

Lemma fade_count_float64 (sample_rate : Z) :
  (Z.abs sample_rate <= 2 ^ 52)%Z ->
  Rtrunc (fl64 (float_0_05 * IZR sample_rate)) = (sample_rate ÷ 20)%Z.
Proof.
  intros Hs. destruct (Z_le_gt_dec 0 sample_rate) as [Hp | Hn].
  - apply fade_count_float64_nonneg. lia.
  - replace sample_rate with (- (- sample_rate))%Z by lia.
    rewrite opp_IZR, Ropp_mult_distr_r_reverse, fl64_opp, Rtrunc_opp,
      Z.quot_opp_l by lia.
    f_equal. apply fade_count_float64_nonneg. lia.
Qed.

Lemma fade_samples_of_float64 (sample_rate : Z) w :
  (Z.abs sample_rate <= 2 ^ 52)%Z ->
  py_int (fmul64 (Fin float_0_05) (of_int sample_rate)) w
  = fade_samples_of sample_rate w.
Proof.
  intros Hs. rewrite fade_samples_of_eq.
  unfold of_int, fmul64. simpl. unfold ret.
  now rewrite fade_count_float64.
Qed.

Lemma setslice_ok x start stop v w :
  len v = Z.of_nat (Z.to_nat (stop - start)) ->
  setslice x start stop v w
  = (inr (firstn (Z.to_nat start) x ++ v
          ++ skipn (Z.to_nat start + Z.to_nat (stop - start)) x), w).
Proof.
  intros H. unfold setslice. rewrite H, Z.eqb_refl. reflexivity.
Qed.

Lemma setslice_err x start stop v w :
  len v <> Z.of_nat (Z.to_nat (stop - start)) -> length v <> 1%nat ->
  setslice x start stop v w = (inl ValueError, w).
Proof.
  intros H H1. unfold setslice.
  destruct (Z.eqb_spec (len v) (Z.of_nat (Z.to_nat (stop - start)))); [contradiction|].
  destruct v as [|c [|c' v]]; try reflexivity. now contradiction H1.
Qed.

Lemma map_const_repeat {A B} (b : B) (l : list A) :
  map (fun _ => b) l = repeat b (length l).
Proof. induction l; simpl; congruence. Qed.

Lemma envelope_of_ok t sample_rate w :
  let f := (sample_rate ÷ 20)%Z in
  (1 <= f <= len t)%Z ->
  envelope_of t sample_rate w = (inr (envelope_values (length t) f), w).
Proof.
  intros f Hf. unfold envelope_of, len in *.
  rewrite (bind_ok _ _ _ _ _ (fade_samples_of_eq sample_rate w)). fold f.
  rewrite (bind_ok _ _ _ _ _ (np_linspace_ok _ _ f true w ltac:(lia))).
  rewrite length_map.
  assert (B1 : slice_bound f (Z.of_nat (length t)) = f).
  { unfold slice_bound. destruct (Z.ltb_spec f 0); lia. }
  rewrite B1.
  erewrite bind_ok; cycle 1.
  { apply setslice_ok. unfold len. rewrite linspace_values_length. f_equal. lia. }
  rewrite (bind_ok _ _ _ _ _ (np_linspace_ok _ _ f true w ltac:(lia))).
  set (env1 := (firstn (Z.to_nat 0) _ ++ _ ++ _)).
  assert (L1 : length env1 = length t).
  { subst env1. simpl firstn. simpl app.
    rewrite length_app, linspace_values_length, length_skipn, length_map. lia. }
  rewrite L1.
  assert (B2 : slice_bound (- f) (Z.of_nat (length t)) = (Z.of_nat (length t) - f)%Z).
  { unfold slice_bound. destruct (Z.ltb_spec (- f) 0); lia. }
  rewrite B2.
  erewrite bind_ok; cycle 1.
  { apply setslice_ok. unfold len. rewrite linspace_values_length. f_equal. lia. }
  unfold ret, envelope_values. f_equal. f_equal.
  replace (Z.to_nat (Z.of_nat (length t) - f)) with (length t - Z.to_nat f)%nat by lia.
  rewrite skipn_all2 by lia. rewrite app_nil_r. f_equal. f_equal.
  subst env1. simpl. rewrite Z.sub_0_r, map_const_repeat. reflexivity.
Qed.

Lemma envelope_of_err t sample_rate w :
  let f := (sample_rate ÷ 20)%Z in
  (1 <= len t)%Z -> ~ (1 <= f <= len t)%Z ->
  envelope_of t sample_rate w = (inl ValueError, w).
Proof.
  intros f Ht Hf. unfold envelope_of, len in *.
  rewrite (bind_ok _ _ _ _ _ (fade_samples_of_eq sample_rate w)). fold f.
  destruct (Z.ltb_spec f 0) as [Hneg|Hpos].
  { now rewrite (bind_err _ _ _ _ _ (np_linspace_err _ _ f true w Hneg)). }
  rewrite (bind_ok _ _ _ _ _ (np_linspace_ok _ _ f true w Hpos)).
  rewrite length_map.
  destruct (Z.eq_dec f 0) as [H0|H0].
  - (* no fade sample: the second assignment offers an empty array to the
       whole envelope *)
    rewrite H0.
    erewrite bind_ok; cycle 1.
    { apply setslice_ok. unfold slice_bound.
      destruct (Z.ltb_spec 0 0); [lia|]. rewrite Z.min_l by lia. reflexivity. }
    rewrite (bind_ok _ _ _ _ _ (np_linspace_ok _ _ 0 true w ltac:(lia))).
    apply bind_err. apply setslice_err.
    + assert (S0 : slice_bound 0 (Z.of_nat (length t)) = 0%Z).
      { unfold slice_bound. destruct (Z.ltb_spec 0 0); lia. }
      change (- 0)%Z with 0%Z. rewrite !S0.
      change (linspace_values (Fin 0) (Fin 1) 0 true) with (@nil float).
      change (linspace_values (Fin 1) (Fin 0) 0 true) with (@nil float).
      simpl. rewrite length_map. unfold len. simpl. lia.
    + simpl. lia.
  - (* more fade samples than samples *)
    apply bind_err. apply setslice_err.
    + unfold len. rewrite linspace_values_length.
      unfold slice_bound. destruct (Z.ltb_spec f 0); lia.
    + rewrite linspace_values_length. lia.
Qed.

Lemma envelope_values_length (n : nat) (f : Z) :
  (0 <= f <= Z.of_nat n)%Z -> length (envelope_values n f) = n.
Proof.
  intros Hf. unfold envelope_values.
  rewrite length_app, length_firstn, length_app, !linspace_values_length,
    length_skipn, repeat_length. lia.
Qed.

Lemma envelope_fade_out (n : nat) (f : Z) (i : nat) d :
  (2 <= f <= Z.of_nat n)%Z -> (n - Z.to_nat f <= i < n)%nat ->
  nth i (envelope_values n f) d = Fin (1 - ramp f (i - (n - Z.to_nat f))).
Proof.
  intros Hf Hi. unfold envelope_values.
  rewrite app_nth2; rewrite length_firstn, length_app, linspace_values_length,
    length_skipn, repeat_length; [|lia].
  replace (Nat.min (n - Z.to_nat f) (Z.to_nat f + (n - Z.to_nat f)))
    with (n - Z.to_nat f)%nat by lia.
  rewrite linspace_values_nth by lia.
  unfold ramp. f_equal. field. apply not_0_IZR. lia.
Qed.

Lemma envelope_fade_in (n : nat) (f : Z) (i : nat) d :
  (2 <= f <= Z.of_nat n)%Z -> (i < Z.to_nat f)%nat -> (i < n - Z.to_nat f)%nat ->
  nth i (envelope_values n f) d = Fin (ramp f i).
Proof.
  intros Hf Hi1 Hi2. unfold envelope_values.
  rewrite app_nth1; [|rewrite length_firstn, length_app, linspace_values_length,
    length_skipn, repeat_length; lia].
  rewrite nth_firstn.
  replace (i <? n - Z.to_nat f)%nat with true by (symmetry; apply Nat.ltb_lt; lia).
  rewrite app_nth1 by (rewrite linspace_values_length; lia).
  rewrite linspace_values_nth by lia.
  unfold ramp. f_equal. field. apply not_0_IZR. lia.
Qed.

Lemma envelope_middle (n : nat) (f : Z) (i : nat) d :
  (0 <= f <= Z.of_nat n)%Z -> (Z.to_nat f <= i < n - Z.to_nat f)%nat ->
  nth i (envelope_values n f) d = Fin 1.
Proof.
  intros Hf Hi. unfold envelope_values.
  rewrite app_nth1; [|rewrite length_firstn, length_app, linspace_values_length,
    length_skipn, repeat_length; lia].
  rewrite nth_firstn.
  replace (i <? n - Z.to_nat f)%nat with true by (symmetry; apply Nat.ltb_lt; lia).
  rewrite app_nth2; rewrite linspace_values_length; [|lia].
  rewrite nth_skipn. apply nth_repeat_lt. lia.
Qed.

(** With a single fade sample there is no ramp: the first gain is 0 and the
    last gain is 1. *)
Lemma envelope_values_one (n : nat) :
  (1 <= n)%nat ->
  envelope_values n 1 = firstn (n - 1) (Fin 0 :: repeat (Fin 1) (n - 1)) ++ [Fin 1].
Proof.
  intros Hn. unfold envelope_values. rewrite !linspace_values_one.
  change (Z.to_nat 1) with 1%nat. simpl app at 1.
  destruct n as [|n]; [lia|].
  replace (S n - 1)%nat with n by lia. reflexivity.
Qed.

Lemma ramp_bounds (f : Z) (j : nat) :
  (2 <= f)%Z -> (Z.of_nat j < f)%Z -> 0 <= ramp f j <= 1.
Proof.
  intros Hf Hj. unfold ramp.
  assert (0 < IZR (f - 1)) by (apply IZR_lt; lia).
  assert (0 <= IZR (Z.of_nat j)) by (apply IZR_le; lia).
  assert (IZR (Z.of_nat j) <= IZR (f - 1)) by (apply IZR_le; lia).
  split.
  - apply Rmult_le_pos; [assumption|]. apply Rlt_le. now apply Rinv_0_lt_compat.
  - apply Rmult_le_reg_r with (IZR (f - 1)); [assumption|].
    unfold Rdiv. rewrite Rmult_assoc, Rinv_l by lra. lra.
Qed.


Lemma ramp_first (f : Z) : ramp f 0 = 0.
Proof. unfold ramp. simpl. unfold Rdiv. ring. Qed.

Lemma ramp_last (f : Z) : (2 <= f)%Z -> ramp f (Z.to_nat f - 1) = 1.
Proof.
  intros Hf. unfold ramp.
  replace (Z.of_nat (Z.to_nat f - 1)) with (f - 1)%Z by lia.
  field. apply not_0_IZR. lia.
Qed.

(** *** Finite values stay finite *)

Lemma finite_Fin (x : R) : finite (Fin x).
Proof. exact I. Qed.

Lemma finite_fadd a b : finite a -> finite b -> finite (fadd a b).
Proof. destruct a, b; simpl; tauto. Qed.

Lemma finite_fneg a : finite a -> finite (fneg a).
Proof. destruct a; simpl; tauto. Qed.

Lemma finite_fsub a b : finite a -> finite b -> finite (fsub a b).
Proof. intros. apply finite_fadd; [|apply finite_fneg]; assumption. Qed.

Lemma finite_fmul a b : finite a -> finite b -> finite (fmul a b).
Proof. destruct a, b; simpl; tauto. Qed.

Lemma cfinite_cadd a b : cfinite a -> cfinite b -> cfinite (cadd a b).
Proof. intros [] []. split; now apply finite_fadd. Qed.

Lemma cfinite_cmul a b : cfinite a -> cfinite b -> cfinite (cmul a b).
Proof.
  intros [] []. split; simpl.
  - apply finite_fsub; now apply finite_fmul.
  - apply finite_fadd; now apply finite_fmul.
Qed.

Lemma cfinite_of_real a : finite a -> cfinite (of_real a).
Proof. intros. now split. Qed.

Lemma Forall_map2 {A B C} (P : A -> Prop) (Q : B -> Prop) (S : C -> Prop)
      (f : A -> B -> C) xs ys :
  (forall x y, P x -> Q y -> S (f x y)) ->
  Forall P xs -> Forall Q ys -> Forall S (map2 f xs ys).
Proof.
  intros Hf Hxs. revert ys. induction Hxs as [|x xs Hx Hxs IH]; intros ys Hys.
  - constructor.
  - destruct Hys as [|y ys Hy Hys]; simpl; constructor; auto.
Qed.

Lemma cfinite_csum l : Forall cfinite l -> cfinite (csum l).
Proof.
  unfold csum. assert (H0 : cfinite (Fin 0, Fin 0)) by now split.
  revert H0. generalize (Fin 0, Fin 0). induction l as [|c l IH]; intros acc Hacc Hl.
  - exact Hacc.
  - inversion Hl; subst. simpl. apply IH; [now apply cfinite_cadd | assumption].
Qed.

Lemma dft_length sign a : length (dft sign a) = length a.
Proof. unfold dft. now rewrite length_map, length_seq. Qed.

Lemma cfinite_dft sign a : Forall cfinite a -> Forall cfinite (dft sign a).
Proof.
  intros Ha. unfold dft. apply Forall_map, Forall_forall. intros k _.
  apply cfinite_csum.
  apply Forall_map2 with (P := fun _ => True) (Q := cfinite).
  - intros m x _ Hx. apply cfinite_cmul; [assumption | now split].
  - apply Forall_forall. auto.
  - assumption.
Qed.

(** *** The frequency bins and their gains *)

Lemma fftfreq_values_length (n : Z) val :
  (0 <= n)%Z -> length (fftfreq_values n val) = Z.to_nat n.
Proof.
  intros Hn. unfold fftfreq_values.
  rewrite length_map, length_app, !arange_length.
  destruct (Z.eq_dec n 0) as [->|Hn0]; [reflexivity|].
  assert (0 <= (n - 1) / 2)%Z by (apply Z.div_pos; lia).
  assert (0 <= n / 2)%Z by (apply Z.div_pos; lia).
  assert (E : (((n - 1) / 2 + 1) + n / 2 = n)%Z).
  { pose proof (Z.div_mod n 2 ltac:(lia)).
    pose proof (Z.mod_pos_bound n 2 ltac:(lia)).
    pose proof (Z.div_mod (n - 1) 2 ltac:(lia)).
    pose proof (Z.mod_pos_bound (n - 1) 2 ltac:(lia)). lia. }
  lia.
Qed.

Lemma fftfreq_values_bins (n : Z) (val : R) :
  fftfreq_values n (Fin val) = map Fin (bins n val).
Proof. unfold fftfreq_values, bins. now rewrite map_map. Qed.

Lemma bins_head (n : Z) (val : R) :
  (1 <= n)%Z -> exists xs, bins n val = 0 :: xs.
Proof.
  intros Hn. unfold bins, arange.
  assert (0 <= (n - 1) / 2)%Z by (apply Z.div_pos; lia).
  replace (Z.to_nat ((n - 1) / 2 + 1 - 0)) with (S (Z.to_nat ((n - 1) / 2))) by lia.
  simpl. eexists. f_equal. ring.
Qed.

Lemma map2_map_same {A B C D} (h : B -> C -> D) (f : A -> B) (g : A -> C) l :
  map2 h (map f l) (map g l) = map (fun x => h (f x) (g x)) l.
Proof. induction l; simpl; congruence. Qed.

Lemma sqrt_abs_zero (x : R) : sqrt (Rabs x) = 0 <-> x = 0.
Proof.
  split.
  - intros H. apply sqrt_eq_0 in H; [|apply Rabs_pos].
    destruct (Req_dec x 0) as [|Hx]; [assumption|].
    apply Rabs_no_R0 in Hx. contradiction.
  - intros ->. rewrite Rabs_R0. apply sqrt_0.
Qed.

Lemma fsqrt_fabs_fin (x : R) : fsqrt (fabs (Fin x)) = Fin (sqrt (Rabs x)).
Proof.
  simpl. replace (Rltb (Rabs x) 0) with false; [reflexivity|].
  symmetry. apply Rltb_false. apply Rabs_pos.
Qed.

(** One bin of the filter as line 26 computes it. *)
Lemma where_bin (x : R) :
  (if fne (Fin x) (of_int 0) then fdiv (of_int 1) (fsqrt (fabs (Fin x)))
   else of_int 1) = Fin (gain x).
Proof.
  rewrite fsqrt_fabs_fin. unfold gain, of_int, fne.
  destruct (Reqb x 0) eqn:E; simpl negb; cbv iota.
  - reflexivity.
  - apply Reqb_false in E. apply fdiv_fin.
    intros H. apply (proj1 (sqrt_abs_zero x)) in H. contradiction.
Qed.

(** The floating-point flag the division of line 26 raises at one bin: the
    quotient is taken at the zero bin too. *)
Lemma rdivide_flag_bin (x : R) :
  fdiv_flag (of_int 1) (fsqrt (fabs (Fin x)))
  = if Reqb x 0 then Some DivideByZero else None.
Proof.
  rewrite fsqrt_fabs_fin. unfold of_int, fdiv_flag.
  destruct (Reqb x 0) eqn:E.
  - apply Reqb_true in E. subst x. rewrite Rabs_R0, sqrt_0, Reqb_refl.
    replace (Reqb 1 0) with false; [reflexivity|].
    symmetry. apply Reqb_false. lra.
  - apply Reqb_false in E.
    replace (Reqb (sqrt (Rabs x)) 0) with false; [reflexivity|].
    symmetry. apply Reqb_false. intros H. apply (proj1 (sqrt_abs_zero x)) in H. contradiction.
Qed.

Lemma raised_invalid_bins xs : raised InvalidValue (bin_flags xs) = false.
Proof.
  induction xs as [|x xs IH]; [reflexivity|].
  unfold bin_flags, raised in *. simpl.
  destruct (Reqb x 0); simpl; exact IH.
Qed.

Lemma report_bins_zero xs : report (bin_flags (0 :: xs)) = [DivideByZero].
Proof.
  unfold report. rewrite raised_invalid_bins.
  unfold bin_flags, raised. simpl. now rewrite Reqb_refl.
Qed.

Lemma pink_filter_of_ok (x0 : R) (xs : list R) w :
  pink_filter_of (map Fin (x0 :: xs)) w
  = (inr (Fin 1 :: map (fun x => Fin (gain x)) xs),
     add_warnings (report (bin_flags (x0 :: xs))) w).
Proof.
  unfold pink_filter_of, np_rdivide, np_where.
  set (l := map Fin (x0 :: xs)).
  assert (Efl : map (fun v => fdiv_flag (of_int 1) v) (map fsqrt (map fabs l))
                = bin_flags (x0 :: xs)).
  { subst l. rewrite !map_map. unfold bin_flags. apply map_ext.
    intros x. apply rdivide_flag_bin. }
  rewrite Efl.
  assert (Ew : map2 (fun (c : bool) v => if c then v else of_int 1)
                 (map (fun f => fne f (of_int 0)) l)
                 (map (fun v => fdiv (of_int 1) v) (map fsqrt (map fabs l)))
               = map (fun x => Fin (gain x)) (x0 :: xs)).
  { subst l. rewrite !map_map.
    rewrite (map2_map_same (fun (c : bool) v => if c then v else of_int 1)).
    apply map_ext. intros x. apply where_bin. }
  unfold bind, warn, ret. rewrite Ew. reflexivity.
Qed.

(** *** The noise stage *)

Lemma np_random_normal_ok (size : Z) w :
  (0 <= size)%Z ->
  np_random_normal 0 0.1 size w
  = (inr (white_values (rng w) (Z.to_nat size)), advance_rng (Z.to_nat size) w).
Proof.
  intros H. unfold np_random_normal.
  replace (size <? 0)%Z with false by (symmetry; apply Z.ltb_ge; lia).
  replace (Rltb 0.1 0) with false; [reflexivity|].
  symmetry. apply Rltb_false. lra.
Qed.

Lemma py_truediv_ok (x y : R) w :
  y <> 0 -> py_truediv (Fin x) (Fin y) w = (inr (Fin (x / y)), w).
Proof.
  intros Hy. unfold py_truediv. rewrite fdiv_fin by assumption.
  apply Reqb_false in Hy. now rewrite Hy.
Qed.

Lemma py_truediv_zero a w : py_truediv a (Fin 0) w = (inl ZeroDivisionError, w).
Proof. unfold py_truediv. now rewrite Reqb_refl. Qed.

Lemma np_fft_fft_ok a w : (1 <= len a)%Z -> np_fft_fft a w = (inr (dft (-1) a), w).
Proof.
  intros H. unfold np_fft_fft.
  replace (len a <? 1)%Z with false by (symmetry; apply Z.ltb_ge; lia).
  reflexivity.
Qed.

Lemma np_fft_ifft_ok a w : (1 <= len a)%Z -> np_fft_ifft a w = (inr (ifft_values a), w).
Proof.
  intros H. unfold np_fft_ifft.
  replace (len a <? 1)%Z with false by (symmetry; apply Z.ltb_ge; lia).
  reflexivity.
Qed.

Lemma white_values_length g n : length (white_values g n) = n.
Proof. unfold white_values. now rewrite length_map, length_seq. Qed.

Lemma bins_length (n : Z) val : (0 <= n)%Z -> length (bins n val) = Z.to_nat n.
Proof.
  intros Hn. rewrite <- (length_map Fin), <- fftfreq_values_bins.
  now apply fftfreq_values_length.
Qed.

Lemma np_fft_fftfreq_ok (n sample_rate : Z) w :
  (1 <= n)%Z -> sample_rate <> 0%Z ->
  np_fft_fftfreq n (Fin (1 / IZR sample_rate)) w
  = (inr (map Fin (bins n (bin_width n sample_rate))), w).
Proof.
  intros Hn Hs. unfold np_fft_fftfreq. simpl fmul.
  assert (Hs' : IZR sample_rate <> 0) by now apply not_0_IZR.
  assert (Hn' : IZR n <> 0) by (apply not_0_IZR; lia).
  assert (Hd : IZR n * (1 / IZR sample_rate) <> 0).
  { apply Rmult_integral_contrapositive_currified; [assumption|].
    unfold Rdiv. rewrite Rmult_1_l. now apply Rinv_neq_0_compat. }
  rewrite (bind_ok _ _ _ _ _ (py_truediv_ok 1 _ w Hd)).
  replace (n <? 0)%Z with false by (symmetry; apply Z.ltb_ge; lia).
  now rewrite fftfreq_values_bins.
Qed.

Lemma filtered_noise_of_ok t sample_rate w :
  (1 <= len t)%Z -> sample_rate <> 0%Z ->
  filtered_noise_of t sample_rate w
  = (inr (filtered_values (white_values (rng w) (length t)) sample_rate),
     add_warnings [DivideByZero] (advance_rng (length t) w)).
Proof.
  intros Ht Hs. unfold filtered_noise_of.
  rewrite (bind_ok _ _ _ _ _ (np_random_normal_ok (len t) w (len_nonneg t))).
  replace (Z.to_nat (len t)) with (length t) by (unfold len; lia).
  set (w1 := advance_rng (length t) w).
  set (white := white_values (rng w) (length t)).
  assert (Hs' : IZR sample_rate <> 0) by now apply not_0_IZR.
  unfold of_int.
  rewrite (bind_ok _ _ _ _ _ (py_truediv_ok 1 (IZR sample_rate) w1 Hs')).
  rewrite (bind_ok _ _ _ _ _ (np_fft_fftfreq_ok (len t) sample_rate w1 Ht Hs)).
  assert (Lw : len (map of_real white) = len t).
  { unfold len, white. now rewrite length_map, white_values_length. }
  erewrite bind_ok; cycle 1.
  { apply np_fft_fft_ok. rewrite Lw. exact Ht. }
  destruct (bins_head (len t) (bin_width (len t) sample_rate) Ht) as [xs Hxs].
  rewrite Hxs.
  rewrite (bind_ok _ _ _ _ _ (pink_filter_of_ok 0 xs w1)).
  rewrite report_bins_zero.
  erewrite bind_ok; cycle 1.
  { apply np_fft_ifft_ok. unfold len in *.
    rewrite map2_length, dft_length, !length_map. simpl length.
    unfold white. rewrite white_values_length.
    assert (length (bins (Z.of_nat (length t)) (bin_width (Z.of_nat (length t)) sample_rate))
            = length t) by (rewrite bins_length; lia).
    rewrite Hxs in H. simpl in H. lia. }
  unfold ret, filtered_values. f_equal. f_equal. f_equal.
  assert (Lw' : len white = len t).
  { unfold len, white. now rewrite white_values_length. }
  rewrite Lw', Hxs. reflexivity.
Qed.

Lemma filtered_values_length white sample_rate :
  (1 <= length white)%nat ->
  length (filtered_values white sample_rate) = length white.
Proof.
  intros H. unfold filtered_values, ifft_values.
  rewrite !length_map, dft_length, map2_length, dft_length, !length_map.
  simpl length. rewrite length_map.
  assert (L : length (bins (len white) (bin_width (len white) sample_rate))
              = length white) by (rewrite bins_length; unfold len; lia).
  destruct (bins _ _); simpl in *; lia.
Qed.

Lemma filtered_values_finite white sample_rate :
  Forall finite white -> Forall finite (filtered_values white sample_rate).
Proof.
  intros Hw. unfold filtered_values, ifft_values.
  rewrite map_map. apply Forall_map. simpl fst.
  eapply Forall_impl; [|apply cfinite_dft].
  - intros c [Hc _]. now apply finite_fmul.
  - apply Forall_map2 with (P := cfinite) (Q := cfinite).
    + apply cfinite_cmul.
    + apply cfinite_dft. apply Forall_map.
      eapply Forall_impl; [|exact Hw]. apply cfinite_of_real.
    + apply Forall_map. constructor; [now split|].
      apply Forall_map. apply Forall_forall. intros; now split.
Qed.

Lemma white_values_finite g n : Forall finite (white_values g n).
Proof. unfold white_values. apply Forall_map, Forall_forall. intros; exact I. Qed.

Lemma Forall_finite_map (l : list float) : Forall finite l -> l = map Fin (map to_R l).
Proof.
  induction 1 as [|a l Ha _ IH]; [reflexivity|].
  simpl. rewrite <- IH. f_equal. now apply finite_to_R.
Qed.

(** *** The peak and the normalization *)

Lemma fold_Rmax_ge_acc l a : a <= fold_left Rmax l a.
Proof.
  revert a. induction l as [|x l IH]; intros a; simpl; [lra|].
  eapply Rle_trans; [apply Rmax_l | apply IH].
Qed.

Lemma fold_Rmax_ge_elem l a x : In x l -> x <= fold_left Rmax l a.
Proof.
  revert a. induction l as [|y l IH]; intros a Hx; [contradiction|].
  destruct Hx as [->|Hx]; simpl.
  - eapply Rle_trans; [apply Rmax_r | apply fold_Rmax_ge_acc].
  - now apply IH.
Qed.

Lemma fold_Rmax_attained l a : fold_left Rmax l a = a \/ In (fold_left Rmax l a) l.
Proof.
  revert a. induction l as [|y l IH]; intros a; simpl; [now left|].
  destruct (IH (Rmax a y)) as [E|E].
  - rewrite E. unfold Rmax. destruct (Rle_dec a y); auto.
  - auto.
Qed.

Lemma peak_of_ge xs x : In x xs -> Rabs x <= peak_of xs.
Proof.
  destruct xs as [|x0 xs]; [contradiction|]. intros [->|Hx]; simpl.
  - apply fold_Rmax_ge_acc.
  - apply fold_Rmax_ge_elem. now apply in_map.
Qed.

Lemma peak_of_attained xs : xs <> [] -> exists x, In x xs /\ Rabs x = peak_of xs.
Proof.
  destruct xs as [|x0 xs]; [congruence|]. intros _. simpl.
  destruct (fold_Rmax_attained (map Rabs xs) (Rabs x0)) as [E|E].
  - exists x0. auto.
  - apply in_map_iff in E. destruct E as (x & E & Hx). exists x. auto.
Qed.

Lemma peak_of_nonneg xs : 0 <= peak_of xs.
Proof.
  destruct xs as [|x0 xs]; simpl; [lra|].
  eapply Rle_trans; [apply Rabs_pos | apply fold_Rmax_ge_acc].
Qed.

Lemma peak_of_unique xs p :
  (forall x, In x xs -> Rabs x <= p) -> (exists x, In x xs /\ Rabs x = p) ->
  peak_of xs = p.
Proof.
  intros Hle (x & Hx & Ex).
  assert (xs <> []) as Hne by (intros ->; contradiction).
  destruct (peak_of_attained xs Hne) as (y & Hy & Ey).
  apply Rle_antisym.
  - rewrite <- Ey. now apply Hle.
  - rewrite <- Ex. now apply peak_of_ge.
Qed.

Lemma fold_fmaximum_fin l a :
  fold_left fmaximum (map Fin l) (Fin a) = Fin (fold_left Rmax l a).
Proof.
  revert a. induction l as [|x l IH]; intros a; simpl; [reflexivity|apply IH].
Qed.

Lemma np_max_abs_fin (xs : list R) w :
  xs <> [] -> np_max (map fabs (map Fin xs)) w = (inr (Fin (peak_of xs)), w).
Proof.
  destruct xs as [|x xs]; [congruence|]. intros _.
  rewrite map_map.
  change (map (fun x => fabs (Fin x)) (x :: xs))
    with (Fin (Rabs x) :: map (fun x => Fin (Rabs x)) xs).
  unfold np_max, ret. f_equal. f_equal.
  rewrite <- (map_map Rabs Fin). apply fold_fmaximum_fin.
Qed.

Lemma report_none {A} (l : list A) : report (map (fun _ => None) l) = [].
Proof.
  unfold report, raised.
  assert (F : existsb (fun _ : A => false) l = false)
    by (induction l; simpl; auto).
  assert (E : forall f, existsb f (map (fun _ : A => @None warning) l)
                        = existsb (fun _ => f None) l).
  { clear F. intros f. induction l; simpl; congruence. }
  rewrite !E. simpl. now rewrite F.
Qed.

Lemma raised_divide_invalid {A} (l : list A) :
  raised DivideByZero (map (fun _ => Some InvalidValue) l) = false.
Proof. induction l; simpl; auto. Qed.

Lemma report_invalid {A} (l : list A) :
  l <> [] -> report (map (fun _ => Some InvalidValue) l) = [InvalidValue].
Proof.
  intros Hl. unfold report. rewrite raised_divide_invalid.
  destruct l as [|a l]; [congruence|]. reflexivity.
Qed.

Lemma normalize_ok (xs : list R) w :
  xs <> [] -> peak_of xs <> 0 ->
  normalize (map Fin xs) w
  = (inr (map (fun x => Fin (x / peak_of xs * 0.3)) xs), add_warnings [] w).
Proof.
  intros Hne Hp. unfold normalize.
  rewrite (bind_ok _ _ _ _ _ (np_max_abs_fin xs w Hne)).
  unfold np_divide, bind, warn, ret.
  rewrite !map_map.
  rewrite (map_ext (fun x => fdiv_flag (Fin x) (Fin (peak_of xs))) (fun _ => None))
    by (intros; now apply fdiv_flag_fin).
  rewrite report_none.
  rewrite (map_ext (fun x => fmul (fdiv (Fin x) (Fin (peak_of xs))) (Fin 0.3))
                   (fun x => Fin (x / peak_of xs * 0.3)))
    by (intros; now rewrite fdiv_fin).
  reflexivity.
Qed.

Lemma peak_zero_all_zero (xs : list R) :
  peak_of xs = 0 -> forall x, In x xs -> x = 0.
Proof.
  intros Hp x Hx. pose proof (peak_of_ge xs x Hx) as H. rewrite Hp in H.
  destruct (Req_dec x 0) as [|Hn]; [assumption|].
  apply Rabs_pos_lt in Hn. lra.
Qed.

(** An identically zero buffer is divided by zero: every sample becomes NaN
    and numpy reports an invalid value; nothing is raised. *)
Lemma normalize_degenerate (xs : list R) w :
  xs <> [] -> peak_of xs = 0 ->
  normalize (map Fin xs) w
  = (inr (map (fun _ => NaN) xs), add_warnings [InvalidValue] w).
Proof.
  intros Hne Hp. unfold normalize.
  rewrite (bind_ok _ _ _ _ _ (np_max_abs_fin xs w Hne)).
  unfold np_divide, bind, warn, ret.
  rewrite !map_map, Hp.
  rewrite (map_ext_in (fun x => fdiv_flag (Fin x) (Fin 0)) (fun _ => Some InvalidValue)).
  2:{ intros x Hx. rewrite (peak_zero_all_zero xs Hp x Hx). simpl.
      now rewrite Reqb_refl. }
  rewrite report_invalid by assumption.
  rewrite (map_ext_in (fun x => fmul (fdiv (Fin x) (Fin 0)) (Fin 0.3)) (fun _ => NaN)).
  2:{ intros x Hx. rewrite (peak_zero_all_zero xs Hp x Hx). simpl.
      now rewrite Reqb_refl. }
  reflexivity.
Qed.

(** *** The whole pipeline *)

Lemma normalize_fin (rs : list R) w :
  rs <> [] ->
  normalize (map Fin rs) w = (inr (normalized rs), add_warnings (normalize_warnings rs) w).
Proof.
  intros Hne. unfold normalized, normalize_warnings.
  destruct (Reqb (peak_of rs) 0) eqn:E.
  - apply Reqb_true in E. now apply normalize_degenerate.
  - apply Reqb_false in E. now apply normalize_ok.
Qed.

Lemma normalized_length rs : length (normalized rs) = length rs.
Proof. unfold normalized. destruct (Reqb _ _); now rewrite length_map. Qed.

Lemma raw_noise_length g n sample_rate :
  (1 <= n)%nat -> length (raw_noise g n sample_rate) = n.
Proof.
  intros Hn. unfold raw_noise.
  rewrite length_map, filtered_values_length; rewrite white_values_length; auto.
Qed.

Lemma filtered_values_raw g n sample_rate :
  filtered_values (white_values g n) sample_rate = map Fin (raw_noise g n sample_rate).
Proof.
  unfold raw_noise. apply Forall_finite_map.
  apply filtered_values_finite, white_values_finite.
Qed.

(** The filtered noise of a single sample is the sample itself. *)
Lemma raw_noise_single g sample_rate : raw_noise g 1 sample_rate = [0.1 * g 0%nat].
Proof.
  unfold raw_noise, filtered_values, white_values, ifft_values, dft, bins.
  simpl. unfold csum. simpl.
  change (len [cmul (cadd (Fin 0, Fin 0)
                       (cmul (of_real (Fin (0 + 0.1 * g 0%nat))) (twiddle (-1) 1 0 0)))
                    (of_real (Fin 1))]) with 1%Z.
  replace (2 * PI * 0 * 0 / 1) with 0 by (unfold Rdiv; ring).
  rewrite cos_0, sin_0. f_equal. field.
Qed.

Lemma pink_noise_of_ok t sample_rate w :
  (1 <= len t)%Z -> sample_rate <> 0%Z ->
  pink_noise_of t sample_rate w
  = (inr (normalized (raw_noise (rng w) (length t) sample_rate)),
     noise_world (length t) sample_rate w).
Proof.
  intros Ht Hs. unfold pink_noise_of.
  rewrite (bind_ok _ _ _ _ _ (filtered_noise_of_ok t sample_rate w Ht Hs)).
  rewrite filtered_values_raw. apply normalize_fin.
  intros E. apply (f_equal (@length R)) in E.
  rewrite raw_noise_length in E; unfold len in Ht; simpl in E; lia.
Qed.

Lemma filtered_noise_of_empty sample_rate w :
  filtered_noise_of [] sample_rate w = (inl ZeroDivisionError, advance_rng 0 w).
Proof.
  unfold filtered_noise_of.
  rewrite (bind_ok _ _ _ _ _ (np_random_normal_ok (len []) w (len_nonneg []))).
  change (Z.to_nat (len (@nil float))) with 0%nat.
  destruct (Z.eq_dec sample_rate 0) as [->|Hs].
  - apply bind_err. apply py_truediv_zero.
  - assert (Hs' : IZR sample_rate <> 0) by now apply not_0_IZR.
    unfold of_int.
    rewrite (bind_ok _ _ _ _ _ (py_truediv_ok 1 (IZR sample_rate) _ Hs')).
    apply bind_err. unfold np_fft_fftfreq. apply bind_err.
    change (len (@nil float)) with 0%Z. simpl fmul.
    replace (0 * (1 / IZR sample_rate)) with 0 by ring.
    apply py_truediv_zero.
Qed.

Lemma well_sized_rate D sample_rate : well_sized D sample_rate -> sample_rate <> 0%Z.
Proof.
  unfold well_sized. intros H ->. change (0 ÷ 20)%Z with 0%Z in H. lia.
Qed.

Lemma pencil_signal_ok (D : R) sample_rate w :
  well_sized D sample_rate ->
  pencil_signal (Fin D) sample_rate w
  = (inr (signal_values (rng w) D sample_rate),
     noise_world (Z.to_nat (sample_count D sample_rate)) sample_rate w).
Proof.
  intros Hw. pose proof (well_sized_rate _ _ Hw) as Hs. unfold well_sized in Hw.
  unfold pencil_signal, signal_values. unfold of_int, fmul64. simpl fmul.
  unfold py_int. fold (sample_count D sample_rate).
  set (n := sample_count D sample_rate) in *.
  rewrite (bind_ok _ _ _ _ _ (eq_refl : ret n w = (inr n, w))).
  rewrite (bind_ok _ _ _ _ _ (np_linspace_ok _ _ n false w ltac:(lia))).
  set (t := linspace_values (Fin 0) (Fin D) n false).
  assert (Lt : length t = Z.to_nat n) by apply linspace_values_length.
  assert (Ht : (1 <= len t)%Z) by (unfold len; lia).
  rewrite (bind_ok _ _ _ _ _ (pink_noise_of_ok t sample_rate w Ht Hs)).
  erewrite bind_ok; cycle 1.
  { apply envelope_of_ok. unfold len. lia. }
  rewrite Lt. reflexivity.
Qed.

Lemma pencil_signal_start (D : R) sample_rate w :
  pencil_signal (Fin D) sample_rate w
  = (t <- np_linspace (Fin 0) (Fin D) (sample_count D sample_rate) false ;;
     pink_noise <- pink_noise_of t sample_rate ;;
     envelope <- envelope_of t sample_rate ;;
     ret (map2 fmul (map2 fadd pink_noise (harmonic_of t)) envelope)) w.
Proof. reflexivity. Qed.

(** Outside these sizes the run raises, and which exception it raises does
    not depend on the world. *)
Lemma pencil_signal_err (D : R) sample_rate :
  ~ well_sized D sample_rate ->
  exists e, forall w, exists w',
    pencil_signal (Fin D) sample_rate w = (inl e, w')
    /\ files w' = files w /\ dirs w' = dirs w.
Proof.
  intros Hw. unfold well_sized in Hw.
  set (n := sample_count D sample_rate) in *.
  set (t := linspace_values (Fin 0) (Fin D) n false).
  assert (Lt : length t = Z.to_nat n) by apply linspace_values_length.
  destruct (Z.ltb_spec n 0) as [Hneg|Hpos].
  { exists ValueError. intros w. exists w. rewrite pencil_signal_start. fold n.
    now rewrite (bind_err _ _ _ _ _ (np_linspace_err _ _ n false w Hneg)). }
  destruct (Z.eq_dec n 0) as [H0|H0].
  - exists ZeroDivisionError. intros w. exists (advance_rng 0 w).
    rewrite pencil_signal_start. fold n.
    rewrite (bind_ok _ _ _ _ _ (np_linspace_ok _ _ n false w Hpos)). fold t.
    assert (Et : t = []) by (destruct t; [reflexivity|simpl in Lt; lia]).
    rewrite Et. unfold pink_noise_of.
    erewrite bind_err; [|apply bind_err; apply filtered_noise_of_empty].
    now split.
  - exists ValueError. intros w.
    rewrite pencil_signal_start. fold n.
    rewrite (bind_ok _ _ _ _ _ (np_linspace_ok _ _ n false w Hpos)). fold t.
    assert (Ht : (1 <= len t)%Z) by (unfold len; lia).
    assert (Hs : sample_rate <> 0%Z).
    { intros ->. subst n. unfold sample_count in H0.
      rewrite Rmult_0_l, fl64_0 in H0.
      now rewrite (Rtrunc_IZR 0) in H0. }
    rewrite (bind_ok _ _ _ _ _ (pink_noise_of_ok t sample_rate w Ht Hs)).
    erewrite bind_err; cycle 1.
    { apply envelope_of_err; [exact Ht|]. unfold len. rewrite Lt. lia. }
    eexists. split; [reflexivity|]. split; reflexivity.
Qed.

(** A duration that is not a finite number is refused by [int]. *)
Lemma pencil_signal_not_finite duration sample_rate :
  ~ finite duration ->
  exists e, forall w, pencil_signal duration sample_rate w = (inl e, w).
Proof.
  intros Hd. unfold pencil_signal.
  destruct duration as [x|s|]; simpl in Hd; [tauto| |].
  - unfold of_int, fmul64. simpl fmul.
    destruct (Reqb (IZR sample_rate) 0); simpl; eexists; reflexivity.
  - eexists; reflexivity.
Qed.

(** *** The returned buffer *)

Lemma np_astype_int16_ok cu (x : list float) w :
  np_astype_int16 cu x w
  = (inr (map (astype_int16 cu) x), add_warnings (cast_report x) w).
Proof. reflexivity. Qed.

Lemma quantize_eq cu (sound : list float) :
  map (astype_int16 cu) (map scale_clip sound) = quantize cu sound.
Proof. unfold quantize, quantize1. now rewrite map_map. Qed.

Lemma generate_of_signal cu duration sample_rate w sound w1 :
  pencil_signal duration sample_rate w = (inr sound, w1) ->
  generate_pencil_sound cu duration sample_rate w
  = (inr (quantize cu sound, sample_rate),
     add_warnings (cast_report (map scale_clip sound)) w1).
Proof.
  intros H. unfold generate_pencil_sound.
  rewrite (bind_ok _ _ _ _ _ H).
  rewrite (bind_ok _ _ _ _ _ (np_astype_int16_ok cu _ w1)).
  now rewrite quantize_eq.
Qed.

Lemma generate_ok cu (D : R) sample_rate w :
  well_sized D sample_rate ->
  generate_pencil_sound cu (Fin D) sample_rate w
  = (inr (quantize cu (signal_values (rng w) D sample_rate), sample_rate),
     final_world D sample_rate w).
Proof.
  intros Hw.
  now rewrite (generate_of_signal cu _ _ _ _ _ (pencil_signal_ok D sample_rate w Hw)).
Qed.

Lemma pencil_signal_inv duration sample_rate w sound w' :
  pencil_signal duration sample_rate w = (inr sound, w') ->
  exists D, duration = Fin D /\ well_sized D sample_rate
            /\ sound = signal_values (rng w) D sample_rate.
Proof.
  intros H.
  assert (Hfin : finite duration).
  { destruct duration as [x|s|]; [exact I| |].
    - destruct (pencil_signal_not_finite (Inf s) sample_rate (fun F => F)) as [e E].
      specialize (E w). congruence.
    - destruct (pencil_signal_not_finite NaN sample_rate (fun F => F)) as [e E].
      specialize (E w). congruence. }
  destruct duration as [D|s|]; try contradiction.
  exists D. split; [reflexivity|].
  destruct (Z_le_dec 1 (sample_rate ÷ 20)) as [H1|H1];
    [destruct (Z_le_dec (sample_rate ÷ 20) (sample_count D sample_rate)) as [H2|H2]|].
  - assert (Hw : well_sized D sample_rate) by (unfold well_sized; lia).
    rewrite (pencil_signal_ok D sample_rate w Hw) in H.
    split; [assumption|]. congruence.
  - destruct (pencil_signal_err D sample_rate) as (e & He).
    { unfold well_sized. lia. }
    destruct (He w) as (w1 & E & _). congruence.
  - destruct (pencil_signal_err D sample_rate) as (e & He).
    { unfold well_sized. lia. }
    destruct (He w) as (w1 & E & _). congruence.
Qed.

Lemma generate_inv cu duration sample_rate w buf sr' w' :
  generate_pencil_sound cu duration sample_rate w = (inr (buf, sr'), w') ->
  exists D, duration = Fin D /\ well_sized D sample_rate
            /\ buf = quantize cu (signal_values (rng w) D sample_rate)
            /\ sr' = sample_rate.
Proof.
  unfold generate_pencil_sound. intros H.
  apply bind_inv in H. destruct H as (sound & w1 & H1 & H2).
  rewrite (bind_ok _ _ _ _ _ (np_astype_int16_ok cu _ w1)) in H2.
  apply ret_inv in H2. destruct H2 as [H2 _]. inversion H2; subst.
  destruct (pencil_signal_inv _ _ _ _ _ H1) as (D & -> & Hw & ->).
  exists D. now rewrite quantize_eq.
Qed.

Lemma partial_length amp freq decay t : length (partial amp freq decay t) = length t.
Proof. unfold partial. rewrite map2_length, !length_map. lia. Qed.

Lemma harmonic_of_length t : length (harmonic_of t) = length t.
Proof. unfold harmonic_of. rewrite map2_length, !partial_length. lia. Qed.

Lemma signal_values_length g D sample_rate :
  well_sized D sample_rate ->
  length (signal_values g D sample_rate) = Z.to_nat (sample_count D sample_rate).
Proof.
  unfold well_sized. intros Hw. unfold signal_values.
  rewrite !map2_length, normalized_length, harmonic_of_length,
    linspace_values_length, raw_noise_length, envelope_values_length by lia.
  lia.
Qed.

Lemma floor_spec (x : R) : IZR (floor x) <= x < IZR (floor x) + 1.
Proof. unfold floor. destruct (base_Int_part x). split; lra. Qed.

(** An exact product that is a whole number below 2^53 is the count. *)
Lemma sample_count_exact (D : R) (sample_rate n : Z) :
  IZR sample_rate * D = IZR n -> (Z.abs n <= 2 ^ 53)%Z ->
  sample_count D sample_rate = n.
Proof.
  intros E Hn. unfold sample_count. rewrite E, fl64_IZR by assumption.
  apply Rtrunc_IZR.
Qed.

Lemma fl64_big (x : R) : 9007199254740992 <= Rabs x -> fl64 x = x.
Proof. intros H. unfold fl64. destruct Rlt_dec; [lra|reflexivity]. Qed.

Lemma floor_ge (z : Z) (y : R) : IZR z <= y -> (z <= floor y)%Z.
Proof.
  intros H. pose proof (floor_spec y) as [_ F].
  assert (IZR z < IZR (floor y + 1)) by (rewrite plus_IZR; lra).
  apply lt_IZR in H0. lia.
Qed.

Lemma floor_le (z : Z) (y : R) : y <= IZR z -> (floor y <= z)%Z.
Proof.
  intros H. pose proof (floor_spec y) as [F _]. apply le_IZR. lra.
Qed.

(** Rounding moves the floor of a non-negative real by at most one, and
    never down. *)
Lemma floor_fl64_bounds (x : R) :
  0 <= x -> (floor x <= floor (fl64 x) <= floor x + 1)%Z.
Proof.
  intros Hx. pose proof (floor_spec x) as [F1 F2].
  destruct (Rlt_dec x 9007199254740992) as [Hs | Hb].
  - assert (Hz : (0 <= floor x < 2 ^ 53)%Z).
    { split.
      - apply floor_ge. simpl. lra.
      - apply lt_IZR. change (2 ^ 53)%Z with 9007199254740992%Z. lra. }
    split.
    + apply floor_ge. apply fl64_ge; [apply is_float64_IZR; lia|assumption].
    + apply floor_le. apply fl64_le; [apply is_float64_IZR; lia|].
      rewrite plus_IZR. lra.
  - rewrite fl64_big by (rewrite Rabs_pos_eq; lra). lia.
Qed.

Lemma sample_count_nonpos (D : R) (sample_rate : Z) :
  IZR sample_rate * D <= 0 -> (sample_count D sample_rate <= 0)%Z.
Proof.
  intros H. unfold sample_count. apply Rtrunc_sign_nonpos.
  apply fl64_le; [apply is_float64_0|assumption].
Qed.

Lemma sample_count_floor (D : R) (sample_rate : Z) :
  0 <= IZR sample_rate * D ->
  sample_count D sample_rate = floor (fl64 (D * IZR sample_rate)).
Proof.
  intros H. unfold sample_count, floor. rewrite (Rmult_comm D).
  apply Rtrunc_floor. apply fl64_ge; [apply is_float64_0|assumption].
Qed.

Lemma well_sized_product (D : R) (sample_rate : Z) :
  well_sized D sample_rate -> 0 < IZR sample_rate * D.
Proof.
  unfold well_sized. intros [H1 H2].
  destruct (Rlt_dec 0 (IZR sample_rate * D)) as [|Hn]; [assumption|].
  pose proof (sample_count_nonpos D sample_rate ltac:(lra)). lia.
Qed.

Lemma fl64_ge_IZR (z : Z) (x : R) : (0 <= z)%Z -> IZR z <= x -> IZR z <= fl64 x.
Proof.
  intros Hz Hx. destruct (Z_le_gt_dec z (2 ^ 53)) as [Hs | Hb].
  - apply fl64_ge; [apply is_float64_IZR; lia|assumption].
  - rewrite fl64_big; [assumption|].
    assert (9007199254740992 <= IZR z)
      by (apply IZR_le; change (2 ^ 53)%Z with 9007199254740992%Z in Hb; lia).
    rewrite Rabs_pos_eq; lra.
Qed.

(** The float64 product never falls below a whole number that the exact
    product reaches. *)
Lemma sample_count_ge (z : Z) (D : R) (sample_rate : Z) :
  (0 <= z)%Z -> IZR z <= IZR sample_rate * D -> (z <= sample_count D sample_rate)%Z.
Proof.
  intros Hz H. unfold sample_count.
  rewrite <- (Rtrunc_IZR z). apply Rtrunc_le. now apply fl64_ge_IZR.
Qed.

Lemma sample_count_small (D : R) (sample_rate : Z) :
  0 <= IZR sample_rate * D <= 1 / 2 -> sample_count D sample_rate = 0%Z.
Proof.
  intros [H1 H2]. unfold sample_count.
  assert (L : 0 <= fl64 (IZR sample_rate * D))
    by (apply fl64_ge; [apply is_float64_0|assumption]).
  assert (U : fl64 (IZR sample_rate * D) <= 1 / 2).
  { apply fl64_le; [|assumption]. exists 1%Z, (-1)%Z.
    repeat split; try discriminate. unfold bpow. simpl. lra. }
  apply Rtrunc_nonneg_spec; [assumption|]. simpl. lra.
Qed.

(** A negative count stays negative under rounding. *)
Lemma sample_count_negative (D : R) (sample_rate : Z) :
  (Rtrunc (IZR sample_rate * D) < 0)%Z -> (sample_count D sample_rate < 0)%Z.
Proof.
  intros H. set (x := IZR sample_rate * D) in *.
  assert (Hx : x <= -1).
  { destruct (Rle_dec 0 x) as [Hp | Hn].
    - pose proof (Rtrunc_sign_nonneg x Hp). lia.
    - pose proof (Rtrunc_nonpos_bounds x ltac:(lra)) as [_ B].
      assert (IZR (Rtrunc x) <= -1) by (apply IZR_le; lia). lra. }
  unfold sample_count. fold x.
  assert (U : fl64 x <= -1)
    by (apply fl64_le; [apply (is_float64_IZR (-1)); discriminate|assumption]).
  apply Rtrunc_le in U. rewrite (Rtrunc_IZR (-1)) in U. lia.
Qed.

Lemma sample_count_default : sample_count 0.5 44100 = 22050%Z.
Proof. apply sample_count_exact; [lra|vm_compute; discriminate]. Qed.

Lemma well_sized_default : well_sized 0.5 44100.
Proof.
  unfold well_sized. rewrite sample_count_default.
  change (44100 ÷ 20)%Z with 2205%Z. lia.
Qed.

(* ================================================================== *)
(** ** Properties of the generator *)

(** C1, as stated, fails.  The float64 value written 0.3 is
    5404319552844595 / 2^54; at 44100 Hz the product D * R is
    13229.9999999999995..., whose floor is 13229, and float64
    multiplication rounds it to 13230 before [int] truncates it: the buffer
    has 13230 entries. *)
Lemma buffer_length_not_floor :
  ~ (forall cu w D sample_rate buf sr' w',
        0 <= D ->
        generate_pencil_sound cu (Fin D) sample_rate w = (inr (buf, sr'), w') ->
        len buf = floor (D * IZR sample_rate)).
Proof.
  intros H.
  set (D := 5404319552844595 / 18014398509481984).
  assert (C : sample_count D 44100 = 13230%Z).
  { unfold sample_count, D.
    replace (fl64 (44100 * (5404319552844595 / 18014398509481984))) with 13230
      by (symmetry; snap 13%Z).
    apply (Rtrunc_IZR 13230). }
  assert (Hw : well_sized D 44100).
  { unfold well_sized. rewrite C. change (44100 ÷ 20)%Z with 2205%Z. lia. }
  specialize (H (fun _ => 0%Z) world0 D 44100%Z _ _ _ ltac:(unfold D; lra)
                (generate_ok (fun _ => 0%Z) D 44100 world0 Hw)).
  unfold len, quantize in H.
  rewrite length_map, signal_values_length, C in H by assumption.
  assert (F : floor (D * 44100) = 13229%Z).
  { unfold floor. symmetry. apply Int_part_spec. unfold D. split; lra. }
  rewrite F in H. discriminate H.
Qed.

(** C1, amended.  For a duration D >= 0 and a sample rate R, a returned
    buffer has floor(fl(D * R)) entries, where fl rounds the product to
    float64 as the multiplication of line 15 does.  That is floor(D * R) or
    one more, and it is floor(D * R) whenever the product D * R is itself a
    float64.  A run whose sizes fit returns such a buffer, and the default
    run (0.5 s at 44100 Hz) returns 22050 entries. *)
Theorem buffer_length_is_floor_of_float64_product cu w :
  (forall D sample_rate buf sr' w',
      0 <= D ->
      generate_pencil_sound cu (Fin D) sample_rate w = (inr (buf, sr'), w') ->
      len buf = floor (fl64 (D * IZR sample_rate))
      /\ (floor (D * IZR sample_rate) <= len buf <= floor (D * IZR sample_rate) + 1)%Z
      /\ (is_float64 (D * IZR sample_rate) -> len buf = floor (D * IZR sample_rate)))
  /\ (forall D sample_rate,
         0 <= D -> well_sized D sample_rate ->
         exists buf w',
           generate_pencil_sound cu (Fin D) sample_rate w
           = (inr (buf, sample_rate), w')
           /\ len buf = floor (fl64 (D * IZR sample_rate)))
  /\ (exists buf w',
         generate_pencil_sound cu default_duration default_sample_rate w
         = (inr (buf, 44100%Z), w')
         /\ len buf = 22050%Z).
Proof.
  assert (Len : forall D sample_rate, well_sized D sample_rate ->
            len (quantize cu (signal_values (rng w) D sample_rate))
            = floor (fl64 (D * IZR sample_rate))).
  { intros D sample_rate Hw. unfold len, quantize.
    rewrite length_map, signal_values_length by assumption.
    pose proof (well_sized_product _ _ Hw) as Hp.
    unfold well_sized in Hw. rewrite Z2Nat.id by lia.
    apply sample_count_floor. lra. }
  split; [|split].
  - intros D sample_rate buf sr' w' _ H.
    destruct (generate_inv _ _ _ _ _ _ _ H) as (D' & E & Hw & -> & ->).
    inversion E; subst D'. rewrite (Len _ _ Hw).
    pose proof (well_sized_product _ _ Hw) as Hp.
    split; [reflexivity|split].
    + apply floor_fl64_bounds. lra.
    + intros Hf. now rewrite fl64_id.
  - intros D sample_rate _ Hw. eexists _, _. split.
    + now apply generate_ok.
    + now apply Len.
  - eexists _, _. split.
    + apply (generate_ok cu 0.5 44100 w well_sized_default).
    + unfold len, quantize.
      rewrite length_map, signal_values_length, sample_count_default
        by apply well_sized_default.
      reflexivity.
Qed.

Lemma buffer_length_is_floor_of_float64_product_witness :
  exists buf w',
    generate_pencil_sound (fun _ => 0%Z) (Fin 0.5) 44100 world0
    = (inr (buf, 44100%Z), w')
    /\ len buf = floor (fl64 (0.5 * IZR 44100))
    /\ len buf = floor (0.5 * IZR 44100).
Proof.
  destruct (buffer_length_is_floor_of_float64_product (fun _ => 0%Z) world0)
    as (H1 & H2 & _).
  destruct (H2 0.5 44100%Z ltac:(lra) well_sized_default) as (buf & w' & E & _).
  exists buf, w'. split; [exact E|].
  destruct (H1 0.5 44100%Z buf 44100%Z w' ltac:(lra) E) as (L1 & _ & L3).
  split; [exact L1|]. apply L3.
  replace (0.5 * IZR 44100) with (IZR 22050) by lra.
  apply is_float64_IZR. vm_compute. discriminate.
Defined.

Lemma int16_wrap_range (z : Z) : (-32768 <= int16_wrap z <= 32767)%Z.
Proof.
  unfold int16_wrap.
  pose proof (Z.mod_pos_bound (z + 32768) 65536 ltac:(lia)). lia.
Qed.

Lemma Rtrunc_int16 (x : R) :
  -32769 < x < 32768 -> (-32768 <= Rtrunc x <= 32767)%Z.
Proof.
  intros [Hlo Hhi]. destruct (Rle_dec 0 x) as [Hx|Hx].
  - pose proof (Rtrunc_nonneg_bounds x Hx) as [B1 B2].
    pose proof (Rtrunc_sign_nonneg x Hx).
    assert (Rtrunc x < 32768)%Z by (apply lt_IZR; lra). lia.
  - assert (Hx' : x <= 0) by lra.
    pose proof (Rtrunc_nonpos_bounds x Hx') as [B1 B2].
    pose proof (Rtrunc_sign_nonpos x Hx').
    assert (-32769 < Rtrunc x)%Z by (apply lt_IZR; lra). lia.
Qed.

Lemma astype_int16_range cu (a : float) : (-32768 <= astype_int16 cu a <= 32767)%Z.
Proof.
  unfold astype_int16. destruct a as [x|s|]; try apply int16_wrap_range.
  destruct (Rltb (-32769) x) eqn:E1; destruct (Rltb x 32768) eqn:E2; simpl;
    try apply int16_wrap_range.
  apply Rltb_true in E1, E2. now apply Rtrunc_int16.
Qed.

(** C2.  Every quantized sample lies in [-32768, 32767], whatever the
    sample was before scaling, and so does every sample of a returned
    buffer. *)
Theorem quantized_in_int16_range cu :
  (forall v : float, (-32768 <= quantize1 cu v <= 32767)%Z)
  /\ (forall duration sample_rate w buf sr' w',
         generate_pencil_sound cu duration sample_rate w = (inr (buf, sr'), w') ->
         Forall (fun q => (-32768 <= q <= 32767)%Z) buf).
Proof.
  split.
  - intros v. apply astype_int16_range.
  - intros duration sample_rate w buf sr' w' H.
    destruct (generate_inv _ _ _ _ _ _ _ H) as (D & _ & _ & -> & _).
    unfold quantize. apply Forall_map, Forall_forall. intros v _.
    apply astype_int16_range.
Qed.

Lemma quantized_in_int16_range_witness :
  exists buf w',
    generate_pencil_sound (fun _ => 0%Z) (Fin 0.5) 44100 world0
    = (inr (buf, 44100%Z), w')
    /\ Forall (fun q => (-32768 <= q <= 32767)%Z) buf.
Proof.
  pose proof (generate_ok (fun _ => 0%Z) 0.5 44100 world0 well_sized_default) as E.
  eexists _, _. split; [exact E|].
  exact (proj2 (quantized_in_int16_range (fun _ => 0%Z)) _ _ _ _ _ _ E).
Defined.

Lemma clipR_range (y : R) : -32768 <= clipR y <= 32767.
Proof.
  unfold clipR. split.
  - apply Rmin_glb; [apply Rmax_r | lra].
  - apply Rmin_r.
Qed.

Lemma clipR_id (y : R) : -32768 <= y <= 32767 -> clipR y = y.
Proof.
  intros [H1 H2]. unfold clipR. rewrite Rmax_left by lra. now rewrite Rmin_left.
Qed.

Lemma clipR_monotone (x y : R) : x <= y -> clipR x <= clipR y.
Proof.
  intros H. unfold clipR. apply Rle_min_compat_r. now apply Rle_max_compat_r.
Qed.

Lemma is_float64_int16 (z : Z) : (-32768 <= z <= 32767)%Z -> is_float64 (IZR z).
Proof.
  intros H. apply is_float64_IZR.
  assert (2 ^ 53 = 9007199254740992)%Z by reflexivity. lia.
Qed.

(** Clipping and rounding commute: the bounds are float64 values. *)
Lemma clipR_fl64 (y : R) : clipR (fl64 y) = fl64 (clipR y).
Proof.
  pose proof (is_float64_int16 (-32768) ltac:(lia)) as Flo.
  pose proof (is_float64_int16 32767 ltac:(lia)) as Fhi.
  unfold clipR.
  destruct (Rle_dec y (-32768)) as [Hlo | Hlo].
  - pose proof (fl64_le _ _ Flo Hlo).
    rewrite (Rmax_right (fl64 y)), (Rmax_right y) by lra.
    rewrite !Rmin_left by lra. now rewrite fl64_id.
  - destruct (Rle_dec 32767 y) as [Hhi | Hhi].
    + pose proof (fl64_ge _ _ Fhi Hhi).
      rewrite (Rmax_left (fl64 y)), (Rmax_left y) by lra.
      rewrite !Rmin_right by lra. now rewrite fl64_id.
    + pose proof (fl64_ge (-32768) y Flo ltac:(lra)).
      pose proof (fl64_le 32767 y Fhi ltac:(lra)).
      rewrite (Rmax_left (fl64 y)), (Rmax_left y) by lra.
      now rewrite !Rmin_left by lra.
Qed.

Lemma quantize1_fin cu (x : R) :
  quantize1 cu (Fin x) = Rtrunc (clipR (fl64 (x * 32767))).
Proof.
  unfold quantize1, scale_clip, np_clip, of_int, fmul64. simpl.
  fold (clipR (fl64 (x * 32767))).
  pose proof (clipR_range (fl64 (x * 32767))) as [H1 H2].
  replace (Rltb (-32769) (clipR (fl64 (x * 32767)))) with true
    by (symmetry; apply Rltb_true; lra).
  replace (Rltb (clipR (fl64 (x * 32767))) 32768) with true
    by (symmetry; apply Rltb_true; lra).
  reflexivity.
Qed.

(** Rounding a value of the int16 range moves its truncation by at most
    one. *)
Lemma Rtrunc_fl64_int16 (c : R) :
  -32768 <= c <= 32767 ->
  (Rtrunc c - 1 <= Rtrunc (fl64 c) <= Rtrunc c + 1)%Z.
Proof.
  intros Hc.
  assert (Hr : (-32768 <= Rtrunc c <= 32767)%Z) by (apply Rtrunc_int16; lra).
  destruct (Rle_dec 0 c) as [Hp | Hn].
  - pose proof (Rtrunc_nonneg_bounds c Hp) as [B1 B2].
    pose proof (Rtrunc_sign_nonneg c Hp).
    assert (L : IZR (Rtrunc c) <= fl64 c)
      by (apply fl64_ge; [apply is_float64_int16; lia|assumption]).
    assert (U : fl64 c <= IZR (Rtrunc c + 1)).
    { apply fl64_le; [apply is_float64_IZR|rewrite plus_IZR; lra].
      assert (2 ^ 53 = 9007199254740992)%Z by reflexivity. lia. }
    pose proof (Rtrunc_le _ _ L) as L'. pose proof (Rtrunc_le _ _ U) as U'.
    rewrite Rtrunc_IZR in L', U'. lia.
  - assert (Hn' : c <= 0) by lra.
    pose proof (Rtrunc_nonpos_bounds c Hn') as [B1 B2].
    pose proof (Rtrunc_sign_nonpos c Hn').
    assert (U : fl64 c <= IZR (Rtrunc c))
      by (apply fl64_le; [apply is_float64_int16; lia|assumption]).
    assert (L : IZR (Rtrunc c - 1) <= fl64 c).
    { apply fl64_ge; [apply is_float64_IZR|rewrite minus_IZR; lra].
      assert (2 ^ 53 = 9007199254740992)%Z by reflexivity. lia. }
    pose proof (Rtrunc_le _ _ L) as L'. pose proof (Rtrunc_le _ _ U) as U'.
    rewrite Rtrunc_IZR in L', U'. lia.
Qed.

(** C4, as stated, fails: the sample 0.00005 scales to 1.63835, whose
    nearest integer is 2, and is quantized to 1. *)
Lemma quantizer_not_nearest :
  ~ (forall cu (x : R), nearest_integer (clipR (32767 * x)) (quantize1 cu (Fin x))).
Proof.
  intros H. specialize (H (fun _ => 0%Z) 0.00005 2%Z).
  rewrite quantize1_fin in H.
  assert (C' : clipR (32767 * 0.00005) = 1.63835) by (rewrite clipR_id; lra).
  assert (L : 1 <= fl64 (0.00005 * 32767))
    by (apply fl64_ge; [apply (is_float64_IZR 1); discriminate|lra]).
  assert (U : fl64 (0.00005 * 32767) <= 1.75).
  { apply fl64_le; [|lra]. exists 7%Z, (-2)%Z. repeat split; try discriminate.
    unfold bpow. simpl. lra. }
  assert (T : Rtrunc (clipR (fl64 (0.00005 * 32767))) = 1%Z).
  { rewrite clipR_id by lra. apply Rtrunc_nonneg_spec; [|split]; lra. }
  rewrite C', T in H.
  rewrite Rabs_pos_eq in H by lra. rewrite Rabs_left in H by lra. lra.
Qed.

(** C4, amended.  The quantizer maps a sample x to the value
    clip(fl(32767 * x), -32768, 32767) truncated toward zero, where fl
    rounds the product to float64 as the multiplication of line 51 does:
    the integer part of a non-negative value, minus the integer part of the
    opposite of a negative one.  The stored integer is within one of the
    truncation of clip(32767 * x, -32768, 32767). *)
Theorem quantizer_truncates_float64_product cu (x : R) :
  let c := clipR (fl64 (32767 * x)) in
  quantize1 cu (Fin x) = Rtrunc c
  /\ (0 <= c -> IZR (Rtrunc c) <= c < IZR (Rtrunc c) + 1)
  /\ (c <= 0 -> IZR (Rtrunc c) - 1 < c <= IZR (Rtrunc c))
  /\ (Rtrunc (clipR (32767 * x)) - 1 <= quantize1 cu (Fin x)
      <= Rtrunc (clipR (32767 * x)) + 1)%Z.
Proof.
  intros c.
  assert (E : quantize1 cu (Fin x) = Rtrunc c).
  { rewrite quantize1_fin. subst c. f_equal. f_equal. f_equal. ring. }
  split; [exact E|split; [|split]].
  - apply Rtrunc_nonneg_bounds.
  - apply Rtrunc_nonpos_bounds.
  - rewrite E. subst c. rewrite clipR_fl64.
    apply Rtrunc_fl64_int16. apply clipR_range.
Qed.

(** The rounding is visible: the float64 value nearest to 1/32767 is
    35185445863425 / 2^60, a little below 1/32767; its product with 32767
    rounds to 1, which is stored, where the exact product truncates to 0. *)
Lemma quantizer_rounds_before_truncating cu :
  let x := 35185445863425 / 1152921504606846976 in
  quantize1 cu (Fin x) = 1%Z /\ Rtrunc (clipR (32767 * x)) = 0%Z.
Proof.
  intros x. subst x. split.
  - rewrite quantize1_fin.
    replace (fl64 (35185445863425 / 1152921504606846976 * 32767)) with 1
      by (symmetry; snap (-1)%Z).
    rewrite clipR_id by lra. apply (Rtrunc_IZR 1).
  - rewrite clipR_id by lra. apply Rtrunc_nonneg_spec; [|split]; lra.
Qed.

(** C5, as stated, fails: at 39 Hz the product 0.05 * 39 = 1.95 has the
    nearest integer 2, and the envelope uses 1 fade sample. *)
Lemma fade_samples_not_rounded :
  ~ (forall sample_rate w,
        exists f, fade_samples_of sample_rate w = (inr f, w)
                  /\ nearest_integer (0.05 * IZR sample_rate) f).
Proof.
  intros H. destruct (H 39%Z world0) as (f & E & N).
  rewrite fade_samples_of_eq in E. inversion E as [Ef].
  change (39 ÷ 20)%Z with 1%Z in Ef. subst f.
  specialize (N 2%Z).
  rewrite Rabs_pos_eq in N by lra. rewrite Rabs_left in N by lra. lra.
Qed.

(** C5, amended.  For every sample rate R the number of fade samples is
    0.05 * R truncated toward zero, the integer quotient of R by 20. *)
Theorem fade_samples_truncated (sample_rate : Z) (w : world) :
  fade_samples_of sample_rate w = (inr (Rtrunc (0.05 * IZR sample_rate)), w)
  /\ Rtrunc (0.05 * IZR sample_rate) = (sample_rate ÷ 20)%Z.
Proof.
  split; [|apply Rtrunc_twentieth].
  rewrite fade_samples_of_eq. now rewrite Rtrunc_twentieth.
Qed.







Lemma filtered_noise_of_zero_rate t w :
  filtered_noise_of t 0 w = (inl ZeroDivisionError, advance_rng (Z.to_nat (len t)) w).
Proof.
  unfold filtered_noise_of.
  rewrite (bind_ok _ _ _ _ _ (np_random_normal_ok (len t) w (len_nonneg t))).
  apply bind_err. apply py_truediv_zero.
Qed.

(** The buffer the filter stage hands to the normalization is finite. *)
Lemma filtered_noise_finite t sample_rate w raw w1 :
  filtered_noise_of t sample_rate w = (inr raw, w1) -> Forall finite raw.
Proof.
  intros H.
  destruct (Z.eq_dec sample_rate 0) as [->|Hs].
  { rewrite filtered_noise_of_zero_rate in H. discriminate. }
  destruct t as [|v t].
  { rewrite filtered_noise_of_empty in H. discriminate. }
  rewrite filtered_noise_of_ok in H; [|unfold len; simpl length; lia|assumption].
  inversion H. apply filtered_values_finite, white_values_finite.
Qed.

(** C6.  The gains are as specified: for [n >= 1] bins the zero-frequency
    bin comes first and has gain 1, and a bin of frequency x <> 0 has gain
    1 / sqrt |x|.  But the quotient 1 / sqrt |x| is taken at every bin
    before [np.where] selects, the zero bin included: the division by zero
    is carried out and numpy reports it, here on the default run. *)
Theorem dc_bin_is_divided_by_zero cu w :
  (forall n sample_rate w0,
      (1 <= n)%Z -> sample_rate <> 0%Z ->
      exists xs,
        bins n (bin_width n sample_rate) = 0 :: xs
        /\ (frequencies <- np_fft_fftfreq n (Fin (1 / IZR sample_rate)) ;;
            pink_filter_of frequencies) w0
           = (inr (Fin 1 :: map (fun x => Fin (gain x)) xs),
              add_warnings [DivideByZero] w0)
        /\ forall x, x <> 0 -> gain x = 1 / sqrt (Rabs x))
  /\ exists buf w' rest,
      generate_pencil_sound cu default_duration default_sample_rate w
      = (inr (buf, 44100%Z), w')
      /\ warnings w' = warnings w ++ DivideByZero :: rest.
Proof.
  split.
  - intros n sample_rate w0 Hn Hs.
    destruct (bins_head n (bin_width n sample_rate) Hn) as [xs Hxs].
    exists xs. split; [exact Hxs|]. split.
    + rewrite (bind_ok _ _ _ _ _ (np_fft_fftfreq_ok n sample_rate w0 Hn Hs)).
      rewrite Hxs, pink_filter_of_ok, report_bins_zero. reflexivity.
    + intros x Hx. unfold gain. apply Reqb_false in Hx. now rewrite Hx.
  - eexists _, _, _. split.
    + apply (generate_ok cu 0.5 44100 w well_sized_default).
    + unfold final_world, noise_world, add_warnings. simpl warnings.
      rewrite <- !app_assoc. reflexivity.
Qed.

(** The normalization of any finite buffer with a nonzero peak. *)
Lemma normalize_finite_peak (raw : list float) (w : world) (m : float) :
  Forall finite raw ->
  np_max (map fabs raw) w = (inr m, w) ->
  m <> Fin 0 ->
  exists p w',
    normalize raw w = (inr p, w')
    /\ np_max (map fabs p) w' = (inr (Fin 0.3), w').
Proof.
  intros Hfin Hmax Hm.
  rewrite (Forall_finite_map raw Hfin) in *.
  set (rs := map to_R raw) in *.
  assert (Hne : rs <> []).
  { intros E. rewrite E in Hmax. discriminate. }
  rewrite np_max_abs_fin in Hmax by assumption.
  assert (Hp : peak_of rs <> 0).
  { intros E. apply Hm. inversion Hmax. now rewrite E. }
  assert (Hpos : 0 < peak_of rs).
  { pose proof (peak_of_nonneg rs). lra. }
  rewrite normalize_ok by assumption.
  eexists _, _. split; [reflexivity|].
  rewrite <- (map_map (fun x => x / peak_of rs * 0.3) Fin).
  rewrite np_max_abs_fin.
  2:{ intros E. apply map_eq_nil in E. contradiction. }
  do 3 f_equal.
  assert (A : forall x, Rabs (x / peak_of rs * 0.3) = Rabs x * (0.3 / peak_of rs)).
  { intros x. replace (x / peak_of rs * 0.3) with (x * (0.3 / peak_of rs))
      by (field; assumption).
    rewrite Rabs_mult. f_equal. apply Rabs_pos_eq.
    apply Rlt_le. apply Rdiv_lt_0_compat; lra. }
  apply peak_of_unique.
  - intros y Hy. apply in_map_iff in Hy. destruct Hy as (x & <- & Hx).
    rewrite A. pose proof (peak_of_ge rs x Hx) as Hle.
    replace 0.3 with (peak_of rs * (0.3 / peak_of rs)) at 2 by (field; assumption).
    apply Rmult_le_compat_r; [|assumption].
    apply Rlt_le. apply Rdiv_lt_0_compat; lra.
  - destruct (peak_of_attained rs Hne) as (x & Hx & Ex).
    exists (x / peak_of rs * 0.3).
    split; [exact (in_map (fun x => x / peak_of rs * 0.3) rs x Hx)|].
    rewrite A, Ex. field. assumption.
Qed.

(** C7.  For every buffer the filter stage returns whose largest absolute
    value is not zero, the largest absolute value after the normalization
    is exactly 0.3. *)
Theorem normalized_peak t sample_rate (w0 w : world) (raw : list float) (m : float) :
  filtered_noise_of t sample_rate w0 = (inr raw, w) ->
  np_max (map fabs raw) w = (inr m, w) ->
  m <> Fin 0 ->
  exists p w',
    normalize raw w = (inr p, w')
    /\ np_max (map fabs p) w' = (inr (Fin 0.3), w').
Proof.
  intros Hraw. apply normalize_finite_peak.
  exact (filtered_noise_finite _ _ _ _ _ Hraw).
Qed.

Lemma normalized_peak_witness :
  exists p w',
    normalize (filtered_values (white_values (rng world0) 1) 20)
              (add_warnings [DivideByZero] (advance_rng 1 world0)) = (inr p, w')
    /\ np_max (map fabs p) w' = (inr (Fin 0.3), w').
Proof.
  assert (Hraw : filtered_noise_of [Fin 0] 20 world0
                 = (inr (filtered_values (white_values (rng world0) 1) 20),
                    add_warnings [DivideByZero] (advance_rng 1 world0))).
  { apply (filtered_noise_of_ok [Fin 0] 20 world0); [unfold len; simpl; lia | lia]. }
  apply (normalized_peak [Fin 0] 20 world0 _ _
           (Fin (peak_of (raw_noise (rng world0) 1 20))) Hraw).
  - rewrite filtered_values_raw. apply np_max_abs_fin.
    rewrite raw_noise_single. discriminate.
  - rewrite raw_noise_single. simpl.
    intros H. inversion H as [E]. rewrite Rabs_pos_eq in E; lra.
Defined.

(** C8.  With duration 0.0 the generator raises before any sample buffer
    exists: no file is written and no directory created, and whatever
    follows the call (the writer in [main]) is not run. *)
Theorem zero_duration_fails cu (sample_rate : Z) :
  exists e, forall w, exists w',
    generate_pencil_sound cu (Fin 0) sample_rate w = (inl e, w')
    /\ files w' = files w
    /\ dirs w' = dirs w
    /\ forall (A : Type) (k : list Z * Z -> M A),
        bind (generate_pencil_sound cu (Fin 0) sample_rate) k w = (inl e, w').
Proof.
  destruct (pencil_signal_err 0 sample_rate) as (e & He).
  { unfold well_sized, sample_count. rewrite Rmult_0_r, fl64_0, (Rtrunc_IZR 0). lia. }
  exists e. intros w. destruct (He w) as (w' & E & Hf & Hd).
  exists w'.
  assert (G : generate_pencil_sound cu (Fin 0) sample_rate w = (inl e, w')).
  { unfold generate_pencil_sound. now apply bind_err. }
  split; [exact G|]. split; [exact Hf|]. split; [exact Hd|].
  intros A k. now apply bind_err.
Qed.

Lemma well_sized_dec D sample_rate :
  {well_sized D sample_rate} + {~ well_sized D sample_rate}.
Proof.
  unfold well_sized.
  destruct (Z_le_dec 1 (sample_rate ÷ 20));
    destruct (Z_le_dec (sample_rate ÷ 20) (sample_count D sample_rate));
    (left; lia) || (right; lia).
Qed.

Lemma white_values_ext_in g1 g2 n :
  (forall i, (i < n)%nat -> g1 i = g2 i) -> white_values g1 n = white_values g2 n.
Proof.
  intros H. unfold white_values. apply map_ext_in. intros i Hi.
  apply in_seq in Hi. rewrite H by lia. reflexivity.
Qed.

Lemma signal_values_ext_in g1 g2 D sample_rate :
  (forall i, (i < Z.to_nat (sample_count D sample_rate))%nat -> g1 i = g2 i) ->
  signal_values g1 D sample_rate = signal_values g2 D sample_rate.
Proof.
  intros H. unfold signal_values, raw_noise.
  now rewrite (white_values_ext_in g1 g2 _ H).
Qed.

(** The outcome of a run, buffer or exception, reads the world through the
    first variates only. *)
Lemma outcome_local cu (D : R) sample_rate (w1 w2 : world) :
  (forall i, (i < Z.to_nat (sample_count D sample_rate))%nat -> rng w1 i = rng w2 i) ->
  fst (generate_pencil_sound cu (Fin D) sample_rate w1)
  = fst (generate_pencil_sound cu (Fin D) sample_rate w2).
Proof.
  intros Hrng.
  destruct (well_sized_dec D sample_rate) as [Hw|Hw].
  - rewrite !generate_ok by assumption. simpl.
    now rewrite (signal_values_ext_in _ _ D sample_rate Hrng).
  - unfold generate_pencil_sound.
    destruct (pencil_signal_err D sample_rate Hw) as (e & He).
    destruct (He w1) as (w1' & E1 & _). destruct (He w2) as (w2' & E2 & _).
    now rewrite (bind_err _ _ _ _ _ E1), (bind_err _ _ _ _ _ E2).
Qed.

(** *** Amplitude bounds *)

Lemma Rabs_bound (x b : R) : Rabs x <= b <-> - b <= x <= b.
Proof.
  unfold Rabs. destruct (Rcase_abs x); split; intros; try split; lra.
Qed.

Lemma bounded_fadd a b u v : bounded a u -> bounded b v -> bounded (a + b) (fadd u v).
Proof.
  intros (x & -> & Hx) (y & -> & Hy). exists (x + y). split; [reflexivity|].
  eapply Rle_trans; [apply Rabs_triang | lra].
Qed.

Lemma bounded_fmul_gain a u v : bounded a u -> unit_gain v -> bounded a (fmul u v).
Proof.
  intros (x & -> & Hx) (e & -> & He). exists (x * e). split; [reflexivity|].
  apply Rabs_bound in Hx. apply Rabs_bound. split; nra.
Qed.

Lemma exp_nonpos_le_1 (x : R) : x <= 0 -> exp x <= 1.
Proof.
  intros [H | ->].
  - rewrite <- exp_0. apply Rlt_le. now apply exp_increasing.
  - rewrite exp_0. lra.
Qed.

Lemma partial_bounded amp freq decay t :
  0 <= amp -> 0 <= decay ->
  Forall nonneg_time t -> Forall (bounded amp) (partial amp freq decay t).
Proof.
  intros Ha Hd Ht. unfold partial. rewrite !map_map.
  rewrite (map2_map_same fmul). apply Forall_map.
  eapply Forall_impl; [|exact Ht].
  intros v (x & -> & Hx). simpl.
  exists (amp * sin (2 * PI * freq * x) * exp (- x * decay)). split; [reflexivity|].
  pose proof (SIN_bound (2 * PI * freq * x)) as [S1 S2].
  pose proof (exp_pos (- x * decay)) as E1.
  assert (E2 : exp (- x * decay) <= 1) by (apply exp_nonpos_le_1; nra).
  apply Rabs_bound.
  assert (B : - amp <= amp * sin (2 * PI * freq * x) <= amp) by (split; nra).
  split; nra.
Qed.

Lemma harmonic_bounded t :
  Forall nonneg_time t -> Forall (bounded (0.1 + 0.05)) (harmonic_of t).
Proof.
  intros Ht. unfold harmonic_of.
  apply Forall_map2 with (P := bounded 0.1) (Q := bounded 0.05).
  - intros. now apply bounded_fadd.
  - apply partial_bounded; [lra | lra | assumption].
  - apply partial_bounded; [lra | lra | assumption].
Qed.

Lemma time_axis_nonneg (D : R) (n : Z) :
  0 <= D -> Forall nonneg_time (linspace_values (Fin 0) (Fin D) n false).
Proof.
  intros HD. apply (Forall_nth_iff _ _ NaN). intros i Hi.
  rewrite linspace_values_length in Hi.
  rewrite linspace_values_nth by lia.
  eexists. split; [reflexivity|].
  assert (0 < IZR n) by (apply IZR_lt; lia).
  assert (0 <= IZR (Z.of_nat i)) by (apply IZR_le; lia).
  rewrite Rplus_0_l, Rminus_0_r.
  apply Rmult_le_pos; [nra|]. apply Rlt_le. now apply Rinv_0_lt_compat.
Qed.

Lemma normalized_bounded (rs : list R) :
  peak_of rs <> 0 -> Forall (bounded 0.3) (normalized rs).
Proof.
  intros Hp. unfold normalized.
  replace (Reqb (peak_of rs) 0) with false by (symmetry; now apply Reqb_false).
  apply Forall_map, Forall_forall. intros x Hx.
  exists (x / peak_of rs * 0.3). split; [reflexivity|].
  pose proof (peak_of_ge rs x Hx) as Hle. pose proof (peak_of_nonneg rs) as H0.
  assert (Hpos : 0 < peak_of rs) by lra.
  apply Rabs_bound in Hle. apply Rabs_bound.
  assert (B : -1 <= x / peak_of rs <= 1).
  { split.
    - apply Rmult_le_reg_r with (peak_of rs); [assumption|].
      unfold Rdiv. rewrite Rmult_assoc, Rinv_l by assumption. lra.
    - apply Rmult_le_reg_r with (peak_of rs); [assumption|].
      unfold Rdiv. rewrite Rmult_assoc, Rinv_l by assumption. lra. }
  split; lra.
Qed.

Lemma envelope_one_last (n : nat) :
  (1 <= n)%nat -> nth (n - 1) (envelope_values n 1) NaN = Fin 1.
Proof.
  intros Hn. rewrite envelope_values_one by assumption.
  rewrite app_nth2; rewrite length_firstn; simpl length; rewrite repeat_length.
  - replace (n - 1 - Nat.min (n - 1) (S (n - 1)))%nat with 0%nat by lia.
    reflexivity.
  - lia.
Qed.

Lemma envelope_one_first (n : nat) :
  (2 <= n)%nat -> nth 0 (envelope_values n 1) NaN = Fin 0.
Proof.
  intros Hn. rewrite envelope_values_one by lia.
  destruct n as [|[|n']]; try lia. reflexivity.
Qed.

Lemma envelope_unit_gains (n : nat) (f : Z) :
  (1 <= f <= Z.of_nat n)%Z -> Forall unit_gain (envelope_values n f).
Proof.
  intros Hf. apply (Forall_nth_iff _ _ NaN). intros i Hi.
  rewrite envelope_values_length in Hi by lia.
  set (k := Z.to_nat f).
  assert (One : unit_gain (Fin 1)) by (exists 1; split; [reflexivity|lra]).
  destruct (Nat.lt_ge_cases i (n - k)) as [Hlo|Hhi].
  - destruct (Nat.lt_ge_cases i k) as [Hin|Hmid].
    + destruct (Z.eq_dec f 1) as [->|Hf1].
      * assert (i = 0)%nat by (subst k; lia). subst i.
        rewrite envelope_one_first by (subst k; lia).
        exists 0. split; [reflexivity|lra].
      * rewrite envelope_fade_in by (subst k; lia).
        eexists. split; [reflexivity|]. apply ramp_bounds; subst k; lia.
    + rewrite envelope_middle by (subst k; lia). exact One.
  - destruct (Z.eq_dec f 1) as [->|Hf1].
    + assert (i = n - 1)%nat by (subst k; lia). subst i.
      rewrite envelope_one_last by lia. exact One.
    + rewrite envelope_fade_out by (subst k; lia).
      eexists. split; [reflexivity|].
      pose proof (ramp_bounds f (i - (n - k)) ltac:(lia) ltac:(subst k; lia)).
      subst k. lra.
Qed.

Lemma well_sized_positive (D : R) sample_rate :
  well_sized D sample_rate -> 0 < D.
Proof.
  unfold well_sized. intros [H1 H2].
  assert (Hs : (20 <= sample_rate)%Z).
  { destruct (Z_lt_le_dec sample_rate 20) as [Hlt|]; [|assumption].
    destruct (Z_le_gt_dec 0 sample_rate).
    - rewrite Z.quot_small in H1 by lia. lia.
    - pose proof (Z.quot_opp_l sample_rate 20 ltac:(lia)) as Q.
      pose proof (Z.quot_pos (- sample_rate) 20 ltac:(lia) ltac:(lia)). lia. }
  apply IZR_le in Hs.
  destruct (Rlt_dec 0 D) as [|HD]; [assumption|].
  assert (Hle : IZR sample_rate * D <= 0) by nra.
  pose proof (sample_count_nonpos _ _ Hle). lia.
Qed.

Lemma signal_values_bounded g D sample_rate :
  well_sized D sample_rate ->
  peak_of (raw_noise g (Z.to_nat (sample_count D sample_rate)) sample_rate) <> 0 ->
  Forall (bounded 0.45) (signal_values g D sample_rate).
Proof.
  intros Hw Hp. pose proof (well_sized_positive _ _ Hw) as HD.
  unfold well_sized in Hw. unfold signal_values.
  apply Forall_map2 with (P := bounded (0.3 + (0.1 + 0.05))) (Q := unit_gain).
  - intros u v Hu Hv. destruct (bounded_fmul_gain _ u v Hu Hv) as (x & E & Hx).
    exists x. split; [exact E | lra].
  - apply Forall_map2 with (P := bounded 0.3) (Q := bounded (0.1 + 0.05)).
    + intros. now apply bounded_fadd.
    + now apply normalized_bounded.
    + apply harmonic_bounded. apply time_axis_nonneg. lra.
  - apply envelope_unit_gains. lia.
Qed.

Lemma normalization_divisor_ok (D : R) sample_rate w :
  well_sized D sample_rate ->
  normalization_divisor (Fin D) sample_rate w
  = (inr (Fin (peak_of (raw_noise (rng w)
                          (Z.to_nat (sample_count D sample_rate)) sample_rate))),
     add_warnings [DivideByZero]
       (advance_rng (Z.to_nat (sample_count D sample_rate)) w)).
Proof.
  intros Hw. pose proof (well_sized_rate _ _ Hw) as Hs. unfold well_sized in Hw.
  unfold normalization_divisor. simpl fmul. unfold py_int.
  set (n := sample_count D sample_rate) in *.
  rewrite (bind_ok _ _ _ _ _ (eq_refl : ret n w = (inr n, w))).
  rewrite (bind_ok _ _ _ _ _ (np_linspace_ok _ _ n false w ltac:(lia))).
  set (t := linspace_values (Fin 0) (Fin D) n false).
  assert (Lt : length t = Z.to_nat n) by apply linspace_values_length.
  assert (Ht : (1 <= len t)%Z) by (unfold len; lia).
  rewrite (bind_ok _ _ _ _ _ (filtered_noise_of_ok t sample_rate w Ht Hs)).
  rewrite Lt, filtered_values_raw. apply np_max_abs_fin.
  intros E. apply (f_equal (@length R)) in E.
  rewrite raw_noise_length in E; simpl in E; lia.
Qed.

(** C10.  When the divisor of the normalization is not zero, every sample
    before quantization has absolute value at most 0.45 (noise at most 0.3,
    partials at most 0.1 + 0.05, gains between 0 and 1); so the clip leaves
    the scaled sample as it is, exact or rounded to float64, and every
    quantized sample lies strictly between -14746 and 14746. *)
Theorem signal_within_bounds cu duration sample_rate w m w1 sound w2 :
  normalization_divisor duration sample_rate w = (inr m, w1) ->
  m <> Fin 0 ->
  pencil_signal duration sample_rate w = (inr sound, w2) ->
  Forall (fun v =>
            exists x, v = Fin x
              /\ Rabs x <= 0.45
              /\ np_clip (fmul v (of_int 32767)) (of_int (-32768)) (of_int 32767)
                 = fmul v (of_int 32767)
              /\ scale_clip v = fmul64 v (of_int 32767)
              /\ (-14746 < quantize1 cu v < 14746)%Z) sound.
Proof.
  intros Hdiv Hm Hsig.
  destruct (pencil_signal_inv _ _ _ _ _ Hsig) as (D & -> & Hw & ->).
  rewrite (normalization_divisor_ok D sample_rate w Hw) in Hdiv.
  assert (Hp : peak_of (raw_noise (rng w)
                 (Z.to_nat (sample_count D sample_rate)) sample_rate) <> 0).
  { intros E. apply Hm. inversion Hdiv. now rewrite E. }
  eapply Forall_impl; [|apply (signal_values_bounded _ _ _ Hw Hp)].
  intros v (x & -> & Hx). exists x. split; [reflexivity|]. split; [exact Hx|].
  apply Rabs_bound in Hx.
  assert (Hy : -32768 <= x * 32767 <= 32767) by (split; lra).
  assert (F : is_float64 14745.5).
  { exists 29491%Z, (-1)%Z. repeat split; try discriminate.
    unfold bpow. simpl. lra. }
  assert (U : fl64 (x * 32767) <= 14745.5) by (apply fl64_le; [exact F|lra]).
  assert (L : Ropp 14745.5 <= fl64 (x * 32767))
    by (apply fl64_ge; [now apply is_float64_opp|lra]).
  split; [|split].
  - unfold np_clip, of_int. simpl. fold (clipR (x * 32767)).
    now rewrite clipR_id.
  - unfold scale_clip, np_clip, of_int, fmul64. simpl.
    fold (clipR (fl64 (x * 32767))). rewrite clipR_id by lra. reflexivity.
  - rewrite quantize1_fin.
    rewrite clipR_id by lra.
    apply Rtrunc_le in U, L.
    rewrite (Rtrunc_nonneg_spec 14745.5 14745) in U by (try split; lra).
    rewrite (Rtrunc_nonpos_spec (Ropp 14745.5) (-14745)) in L by (try split; lra).
    lia.
Qed.

Lemma sample_count_shortest : sample_count 0.05 20 = 1%Z.
Proof. apply sample_count_exact; [lra|discriminate]. Qed.

Lemma well_sized_shortest : well_sized 0.05 20.
Proof.
  unfold well_sized. rewrite sample_count_shortest.
  change (20 ÷ 20)%Z with 1%Z. lia.
Qed.

Lemma signal_within_bounds_witness :
  exists sound w2,
    pencil_signal (Fin 0.05) 20 world0 = (inr sound, w2)
    /\ Forall (fun v =>
                 exists x, v = Fin x
                   /\ Rabs x <= 0.45
                   /\ np_clip (fmul v (of_int 32767)) (of_int (-32768)) (of_int 32767)
                      = fmul v (of_int 32767)
                   /\ scale_clip v = fmul64 v (of_int 32767)
                   /\ (-14746 < quantize1 (fun _ => 0%Z) v < 14746)%Z) sound.
Proof.
  pose proof (pencil_signal_ok 0.05 20 world0 well_sized_shortest) as Hsig.
  pose proof (normalization_divisor_ok 0.05 20 world0 well_sized_shortest) as Hdiv.
  eexists _, _. split; [exact Hsig|].
  refine (signal_within_bounds (fun _ => 0%Z) _ _ _ _ _ _ _ Hdiv _ Hsig).
  rewrite sample_count_shortest. change (Z.to_nat 1) with 1%nat.
  rewrite raw_noise_single. simpl.
  intros H. inversion H as [H0]. rewrite Rabs_pos_eq in H0; lra.
Defined.

(** *** The random source *)

(** The shortest run (50 ms at 20 Hz) has one sample, and its sign is the
    sign of the one variate it draws. *)
Lemma single_sample_sign cu (g : nat -> R) :
  g 0%nat <> 0 ->
  exists q, quantize cu (signal_values g 0.05 20) = [q]
            /\ (0 < g 0%nat -> (4915 <= q)%Z)
            /\ (g 0%nat < 0 -> (q <= -4915)%Z).
Proof.
  intros Hg. unfold signal_values. rewrite sample_count_shortest.
  change (Z.to_nat 1) with 1%nat. rewrite raw_noise_single.
  change (20 ÷ 20)%Z with 1%Z. rewrite envelope_values_one by lia.
  change (firstn (1 - 1) (Fin 0 :: repeat (Fin 1) (1 - 1)) ++ [Fin 1])
    with [Fin 1].
  set (t := linspace_values (Fin 0) (Fin 0.05) 1 false).
  pose proof (harmonic_bounded t (time_axis_nonneg 0.05 1 ltac:(lra))) as Hh.
  pose proof (harmonic_of_length t) as Lh.
  unfold t in Lh at 2. rewrite linspace_values_length in Lh.
  destruct (harmonic_of t) as [|v [|v' l]]; try discriminate Lh.
  inversion Hh as [|? ? (h & -> & Bh) _]; subst.
  apply Rabs_bound in Bh.
  unfold normalized. simpl peak_of.
  assert (Hp : Rabs (0.1 * g 0%nat) <> 0) by (apply Rabs_no_R0; lra).
  replace (Reqb (Rabs (0.1 * g 0%nat)) 0) with false
    by (symmetry; now apply Reqb_false).
  simpl. eexists. split; [reflexivity|].
  rewrite quantize1_fin.
  assert (F : is_float64 4915) by (apply (is_float64_IZR 4915); discriminate).
  split; intros Hs.
  - rewrite Rabs_pos_eq by lra.
    replace (0.1 * g 0%nat / (0.1 * g 0%nat) * 0.3) with 0.3 by (field; lra).
    assert (L : 4915 <= fl64 ((0.3 + h) * 1 * 32767)) by (apply fl64_ge; [exact F|lra]).
    apply clipR_monotone, Rtrunc_le in L.
    rewrite clipR_id, (Rtrunc_IZR 4915) in L by lra. exact L.
  - rewrite Rabs_left by lra.
    replace (0.1 * g 0%nat / - (0.1 * g 0%nat) * 0.3) with (Ropp 0.3) by (field; lra).
    assert (U : fl64 ((Ropp 0.3 + h) * 1 * 32767) <= -4915)
      by (apply fl64_le; [apply (is_float64_IZR (-4915)); discriminate|lra]).
    apply clipR_monotone, Rtrunc_le in U.
    rewrite (clipR_id (-4915)), (Rtrunc_IZR (-4915)) in U by lra. exact U.
Qed.

(** C9.  The output is fixed by the parameters and by the variates the
    random generator delivers, which a seed fixes.  Two runs with the same
    duration and sample rate whose sizes fit and whose generators agree on
    the first [int(sample_rate * duration)] variates both return, and
    return the same buffer, of that many samples, element for element:
    nothing else of the world (files, warnings, later variates) is read.
    Whatever the sizes, two runs whose generators deliver the same variates
    have the same outcome, a buffer or an exception.  And the variates do
    decide the buffer: at 50 ms and 20 Hz a generator that starts with a
    positive variate and one that starts with a negative variate return
    different buffers. *)
Theorem same_variates_same_buffer cu :
  (forall (D : R) sample_rate (w1 w2 : world),
      well_sized D sample_rate ->
      (forall i, (i < Z.to_nat (sample_count D sample_rate))%nat ->
                 rng w1 i = rng w2 i) ->
      exists buf w1' w2',
        generate_pencil_sound cu (Fin D) sample_rate w1 = (inr (buf, sample_rate), w1')
        /\ generate_pencil_sound cu (Fin D) sample_rate w2 = (inr (buf, sample_rate), w2')
        /\ len buf = sample_count D sample_rate)
  /\ (forall duration sample_rate (w1 w2 : world),
         (forall i, rng w1 i = rng w2 i) ->
         fst (generate_pencil_sound cu duration sample_rate w1)
         = fst (generate_pencil_sound cu duration sample_rate w2))
  /\ (forall w1 w2 : world,
         0 < rng w1 0%nat -> rng w2 0%nat < 0 ->
         exists buf1 buf2 w1' w2',
           generate_pencil_sound cu (Fin 0.05) 20 w1 = (inr (buf1, 20%Z), w1')
           /\ generate_pencil_sound cu (Fin 0.05) 20 w2 = (inr (buf2, 20%Z), w2')
           /\ buf1 <> buf2).
Proof.
  split; [|split].
  - intros D sample_rate w1 w2 Hw Hrng.
    exists (quantize cu (signal_values (rng w1) D sample_rate)),
           (final_world D sample_rate w1), (final_world D sample_rate w2).
    split; [now apply generate_ok|]. split.
    + rewrite (signal_values_ext_in _ _ D sample_rate Hrng). now apply generate_ok.
    + unfold len, quantize. rewrite length_map, signal_values_length by assumption.
      unfold well_sized in Hw. lia.
  - intros duration sample_rate w1 w2 Hrng. destruct duration as [D|s|].
    + apply outcome_local. intros i _. apply Hrng.
    + unfold generate_pencil_sound.
      destruct (pencil_signal_not_finite (Inf s) sample_rate (fun F => F)) as (e & He).
      now rewrite (bind_err _ _ _ _ _ (He w1)), (bind_err _ _ _ _ _ (He w2)).
    + unfold generate_pencil_sound.
      destruct (pencil_signal_not_finite NaN sample_rate (fun F => F)) as (e & He).
      now rewrite (bind_err _ _ _ _ _ (He w1)), (bind_err _ _ _ _ _ (He w2)).
  - intros w1 w2 H1 H2.
    destruct (single_sample_sign cu (rng w1) ltac:(lra)) as (q1 & E1 & P1 & _).
    destruct (single_sample_sign cu (rng w2) ltac:(lra)) as (q2 & E2 & _ & N2).
    exists [q1], [q2], (final_world 0.05 20 w1), (final_world 0.05 20 w2).
    rewrite <- E1, <- E2.
    split; [apply (generate_ok cu 0.05 20 w1 well_sized_shortest)|].
    split; [apply (generate_ok cu 0.05 20 w2 well_sized_shortest)|].
    rewrite E1, E2. specialize (P1 H1). specialize (N2 H2).
    intros E. inversion E. lia.
Qed.

Lemma same_variates_same_buffer_witness :
  exists buf w1' w2',
    generate_pencil_sound (fun _ => 0%Z) (Fin 0.05) 20 world0
    = (inr (buf, 20%Z), w1')
    /\ generate_pencil_sound (fun _ => 0%Z) (Fin 0.05) 20
         (add_warnings [InvalidValue] world1)
       = (inr (buf, 20%Z), w2')
    /\ len buf = 1%Z.
Proof.
  destruct (same_variates_same_buffer (fun _ => 0%Z)) as (H & _ & _).
  rewrite <- sample_count_shortest.
  apply (H 0.05 20%Z world0 (add_warnings [InvalidValue] world1) well_sized_shortest).
  rewrite sample_count_shortest. intros i Hi.
  destruct i as [|i]; [reflexivity|]. simpl in Hi. lia.
Defined.

(* ================================================================== *)
(** ** Further properties: when the generator returns *)

(** X1.  The generator returns a buffer exactly when the duration is a
    finite number and there is at least one fade sample and at least as
    many samples as fade samples, the number of samples being the float64
    product [sample_rate * duration] truncated. *)
Theorem generate_returns_iff cu duration sample_rate w :
  (exists buf w',
      generate_pencil_sound cu duration sample_rate w = (inr (buf, sample_rate), w'))
  <-> (exists D, duration = Fin D
                 /\ (1 <= sample_rate ÷ 20 <= sample_count D sample_rate)%Z).
Proof.
  split.
  - intros (buf & w' & H).
    destruct (generate_inv _ _ _ _ _ _ _ H) as (D & E & Hw & _).
    now exists D.
  - intros (D & -> & Hw). eexists _, _. now apply generate_ok.
Qed.

(** At the 50 ms boundary: the float64 value 7205759403792793 / 2^57 is
    the last one below 0.05; at 44100 Hz its exact product with the rate is
    below 2205 and rounds to 2205, the number of fade samples. *)
Lemma sample_count_boundary :
  sample_count (7205759403792793 / 144115188075855872) 44100 = 2205%Z.
Proof.
  unfold sample_count.
  replace (fl64 (44100 * (7205759403792793 / 144115188075855872))) with 2205
    by (symmetry; snap 11%Z).
  apply (Rtrunc_IZR 2205).
Qed.

Lemma generate_returns_iff_witness :
  exists buf w',
    generate_pencil_sound (fun _ => 0%Z)
      (Fin (7205759403792793 / 144115188075855872)) 44100 world0
    = (inr (buf, 44100%Z), w').
Proof.
  apply (generate_returns_iff (fun _ => 0%Z)
           (Fin (7205759403792793 / 144115188075855872)) 44100 world0).
  eexists. split; [reflexivity|].
  rewrite sample_count_boundary. change (44100 ÷ 20)%Z with 2205%Z. lia.
Defined.

(** X2.  When [int(sample_rate * duration)], the float64 product
    truncated, is 0, the time array is empty and the run raises
    ZeroDivisionError; no variate has been consumed and no warning
    reported. *)
Theorem empty_time_axis_raises cu (D : R) sample_rate w :
  sample_count D sample_rate = 0%Z ->
  exists w',
    generate_pencil_sound cu (Fin D) sample_rate w = (inl ZeroDivisionError, w')
    /\ (forall i, rng w' i = rng w i)
    /\ warnings w' = warnings w.
Proof.
  intros Hn. exists (advance_rng 0 w). split; [|split; reflexivity].
  unfold generate_pencil_sound. apply bind_err.
  rewrite pencil_signal_start, Hn.
  rewrite (bind_ok _ _ _ _ _ (np_linspace_ok _ _ 0 false w ltac:(lia))).
  change (linspace_values (Fin 0) (Fin D) 0 false) with (@nil float).
  apply bind_err. unfold pink_noise_of. apply bind_err.
  apply filtered_noise_of_empty.
Qed.

Lemma empty_time_axis_raises_witness :
  exists w',
    generate_pencil_sound (fun _ => 0%Z) (Fin 0.01) 44 world0
    = (inl ZeroDivisionError, w')
    /\ (forall i, rng w' i = rng world0 i)
    /\ warnings w' = warnings world0.
Proof.
  apply (empty_time_axis_raises (fun _ => 0%Z) 0.01 44 world0).
  apply sample_count_small. lra.
Defined.

(** X3.  When there are samples but no fade sample (a rate below 20 Hz), or
    more fade samples than samples (a duration too short for the 50 ms
    fade), the run raises ValueError at the envelope, after the noise has
    been drawn and filtered: the variates are consumed and the division
    warning has been reported.  The number of samples is the float64
    product [sample_rate * duration] truncated. *)
Theorem short_buffer_raises_late cu (D : R) sample_rate w :
  let n := sample_count D sample_rate in
  let f := (sample_rate ÷ 20)%Z in
  (1 <= n)%Z -> (f < 1 \/ n < f)%Z ->
  exists w',
    generate_pencil_sound cu (Fin D) sample_rate w = (inl ValueError, w')
    /\ (forall i, rng w' i = rng w (Z.to_nat n + i)%nat)
    /\ In DivideByZero (warnings w').
Proof.
  intros n f Hn Hf.
  set (t := linspace_values (Fin 0) (Fin D) n false).
  assert (Lt : length t = Z.to_nat n) by apply linspace_values_length.
  assert (Ht : (1 <= len t)%Z) by (unfold len; lia).
  assert (Hs : sample_rate <> 0%Z).
  { intros E. subst n. unfold sample_count in Hn.
    rewrite E, Rmult_0_l, fl64_0, (Rtrunc_IZR 0) in Hn. lia. }
  exists (noise_world (length t) sample_rate w). split; [|split].
  - unfold generate_pencil_sound. apply bind_err.
    rewrite pencil_signal_start. fold n.
    rewrite (bind_ok _ _ _ _ _ (np_linspace_ok _ _ n false w ltac:(lia))). fold t.
    rewrite (bind_ok _ _ _ _ _ (pink_noise_of_ok t sample_rate w Ht Hs)).
    apply bind_err. apply envelope_of_err; [exact Ht|].
    fold f. unfold len. rewrite Lt. lia.
  - intros i. rewrite Lt. reflexivity.
  - unfold noise_world, add_warnings. simpl warnings.
    apply in_or_app. left. apply in_or_app. right. now left.
Qed.

(** The float64 value nearest to 1/48000 is 6148914691236517 / 2^68, a
    little below 1/48000; at 48000 Hz the product rounds to 1, so the run
    has one sample, draws one variate and fails at the envelope. *)
Lemma sample_count_one_period :
  sample_count (6148914691236517 / 295147905179352825856) 48000 = 1%Z.
Proof.
  unfold sample_count.
  replace (fl64 (48000 * (6148914691236517 / 295147905179352825856))) with 1
    by (symmetry; snap (-1)%Z).
  apply (Rtrunc_IZR 1).
Qed.

Lemma short_buffer_raises_late_witness :
  exists w',
    generate_pencil_sound (fun _ => 0%Z)
      (Fin (6148914691236517 / 295147905179352825856)) 48000 world0
    = (inl ValueError, w')
    /\ (forall i, rng w' i = rng world0 (1 + i)%nat)
    /\ In DivideByZero (warnings w').
Proof.
  pose proof (short_buffer_raises_late (fun _ => 0%Z)
                (6148914691236517 / 295147905179352825856) 48000 world0) as H.
  cbv zeta in H. rewrite sample_count_one_period in H.
  apply H; [lia|]. change (48000 ÷ 20)%Z with 2400%Z. lia.
Defined.

(** X4.  A duration that is not a number, an infinite duration, and a
    negative sample count are refused before anything is drawn: the world
    is left as it was. *)
Theorem refused_before_drawing cu sample_rate w :
  generate_pencil_sound cu NaN sample_rate w = (inl ValueError, w)
  /\ (forall s, sample_rate <> 0%Z ->
        generate_pencil_sound cu (Inf s) sample_rate w = (inl OverflowError, w))
  /\ (forall D, (Rtrunc (IZR sample_rate * D) < 0)%Z ->
        generate_pencil_sound cu (Fin D) sample_rate w = (inl ValueError, w)).
Proof.
  split; [reflexivity|]. split.
  - intros s Hs. unfold generate_pencil_sound, pencil_signal, of_int, fmul64.
    simpl fmul.
    replace (Reqb (IZR sample_rate) 0) with false; [reflexivity|].
    symmetry. apply Reqb_false. now apply not_0_IZR.
  - intros D Hn. unfold generate_pencil_sound. apply bind_err.
    rewrite pencil_signal_start. apply bind_err. apply np_linspace_err.
    now apply sample_count_negative.
Qed.

(** X5.  Every sample rate of at least 20 Hz with a duration of at least
    50 ms is accepted. *)
Theorem long_enough_returns cu (D : R) sample_rate w :
  (20 <= sample_rate)%Z -> 0.05 <= D ->
  exists buf w',
    generate_pencil_sound cu (Fin D) sample_rate w = (inr (buf, sample_rate), w').
Proof.
  intros Hs HD. eexists _, _. apply generate_ok. unfold well_sized.
  assert (Hq : (1 <= sample_rate ÷ 20)%Z) by (apply Z.quot_le_lower_bound; lia).
  split; [exact Hq|].
  apply sample_count_ge; [lia|].
  assert (Hf : IZR (sample_rate ÷ 20) <= 0.05 * IZR sample_rate).
  { rewrite <- Rtrunc_twentieth. apply Rtrunc_nonneg_bounds.
    apply IZR_le in Hs. lra. }
  apply IZR_le in Hs. nra.
Qed.

Lemma long_enough_returns_witness :
  exists buf w',
    generate_pencil_sound (fun _ => 0%Z) (Fin 2) 8000 world0 = (inr (buf, 8000%Z), w').
Proof.
  apply (long_enough_returns (fun _ => 0%Z) 2 8000 world0); [lia | lra].
Defined.

(* ================================================================== *)
(** ** Further properties: the random generator and the degenerate run *)

(** X6.  A run that returns has consumed one variate per sample, and has
    touched no file and no directory; the rate it returns is the rate it
    was given. *)
Theorem run_consumes_one_variate_per_sample cu duration sample_rate w buf sr' w' :
  generate_pencil_sound cu duration sample_rate w = (inr (buf, sr'), w') ->
  (forall i, rng w' i = rng w (length buf + i)%nat)
  /\ files w' = files w
  /\ dirs w' = dirs w
  /\ sr' = sample_rate.
Proof.
  intros H.
  destruct (generate_inv _ _ _ _ _ _ _ H) as (D & -> & Hw & -> & ->).
  rewrite (generate_ok cu D sample_rate w Hw) in H. inversion H as [Hw'].
  unfold quantize. rewrite length_map, signal_values_length by assumption.
  repeat split; reflexivity.
Qed.

Lemma run_consumes_one_variate_per_sample_witness :
  exists buf w',
    generate_pencil_sound (fun _ => 0%Z) (Fin 0.5) 44100 world0
    = (inr (buf, 44100%Z), w')
    /\ (forall i, rng w' i = rng world0 (length buf + i)%nat)
    /\ files w' = files world0.
Proof.
  pose proof (generate_ok (fun _ => 0%Z) 0.5 44100 world0 well_sized_default) as E.
  eexists _, _. split; [exact E|].
  destruct (run_consumes_one_variate_per_sample _ _ _ _ _ _ _ E) as (H1 & H2 & _).
  split; [exact H1 | exact H2].
Defined.

(** X7.  The outcome of a run reads the random generator only through its
    first [int(sample_rate * duration)] variates, the float64 product
    truncated: two generators that agree on them give the same buffer or
    the same exception, whatever the sizes. *)
Theorem outcome_reads_first_variates cu (D : R) sample_rate (w1 w2 : world) :
  (forall i, (i < Z.to_nat (sample_count D sample_rate))%nat -> rng w1 i = rng w2 i) ->
  fst (generate_pencil_sound cu (Fin D) sample_rate w1)
  = fst (generate_pencil_sound cu (Fin D) sample_rate w2).
Proof.
  apply outcome_local.
Qed.

Lemma outcome_reads_first_variates_witness :
  fst (generate_pencil_sound (fun _ => 0%Z) (Fin 0.05) 20 world0)
  = fst (generate_pencil_sound (fun _ => 0%Z) (Fin 0.05) 20 world1).
Proof.
  apply (outcome_reads_first_variates (fun _ => 0%Z) 0.05 20 world0 world1).
  rewrite sample_count_shortest. intros i Hi.
  destruct i as [|i]; [reflexivity|]. simpl in Hi. lia.
Defined.

Lemma quantize1_nan cu : quantize1 cu NaN = int16_wrap (cu NaN).
Proof. reflexivity. Qed.

Lemma fadd_nan_l b : fadd NaN b = NaN.
Proof. now destruct b. Qed.

Lemma fmul_nan_l b : fmul NaN b = NaN.
Proof. now destruct b. Qed.

Lemma cast_report_nan (l : list float) :
  l <> [] -> Forall (fun v => v = NaN) l -> cast_report (map scale_clip l) = [InvalidCast].
Proof.
  intros Hne H. destruct l as [|v l]; [congruence|].
  inversion H as [|? ? Hv _]; subst. reflexivity.
Qed.

(** X8.  When the filtered noise is identically zero the run does not
    fail: line 33 divides zero by zero, every sample becomes NaN, and the
    returned buffer holds in every place what the cast of NaN yields.
    numpy has reported three warnings: the division by zero of line 26, the
    invalid value of the division of line 33, and the invalid value of the
    cast of line 51 (as NumPy 1.24 and later report it). *)
Theorem zero_noise_gives_nan_buffer cu duration sample_rate w buf sr' w' w1 :
  generate_pencil_sound cu duration sample_rate w = (inr (buf, sr'), w') ->
  normalization_divisor duration sample_rate w = (inr (Fin 0), w1) ->
  Forall (fun q => q = int16_wrap (cu NaN)) buf
  /\ warnings w' = warnings w ++ [DivideByZero; InvalidValue; InvalidCast].
Proof.
  intros H Hdiv.
  destruct (generate_inv _ _ _ _ _ _ _ H) as (D & -> & Hw & -> & ->).
  rewrite (generate_ok cu D sample_rate w Hw) in H. inversion H as [Hw'].
  rewrite (normalization_divisor_ok D sample_rate w Hw) in Hdiv.
  inversion Hdiv as [[Hp Hw1]].
  assert (AllNaN : Forall (fun v => v = NaN) (signal_values (rng w) D sample_rate)).
  { unfold signal_values. unfold normalized. rewrite Hp, Reqb_refl.
    apply Forall_map2 with (P := fun v => v = NaN) (Q := fun _ => True).
    + intros u v -> _. apply fmul_nan_l.
    + apply Forall_map2 with (P := fun v => v = NaN) (Q := fun _ => True).
      * intros u v -> _. apply fadd_nan_l.
      * apply Forall_map, Forall_forall. reflexivity.
      * apply Forall_forall. auto.
    + apply Forall_forall. auto. }
  split.
  - unfold quantize. apply Forall_map.
    eapply Forall_impl; [|exact AllNaN].
    intros v ->. apply quantize1_nan.
  - assert (Hne : signal_values (rng w) D sample_rate <> []).
    { intros E. apply (f_equal (@length float)) in E.
      rewrite signal_values_length in E by assumption.
      unfold well_sized in Hw. simpl in E. lia. }
    unfold final_world. rewrite (cast_report_nan _ Hne AllNaN).
    unfold noise_world, add_warnings, normalize_warnings. simpl warnings.
    rewrite Hp, Reqb_refl, <- !app_assoc. reflexivity.
Qed.

Lemma zero_noise_gives_nan_buffer_witness :
  exists buf w',
    generate_pencil_sound (fun _ => 0%Z) (Fin 0.05) 20 silent_world
    = (inr (buf, 20%Z), w')
    /\ Forall (fun q => q = int16_wrap 0) buf
    /\ warnings w'
       = warnings silent_world ++ [DivideByZero; InvalidValue; InvalidCast].
Proof.
  pose proof (generate_ok (fun _ => 0%Z) 0.05 20 silent_world well_sized_shortest) as E.
  pose proof (normalization_divisor_ok 0.05 20 silent_world well_sized_shortest) as Hdiv.
  rewrite sample_count_shortest in Hdiv. change (Z.to_nat 1) with 1%nat in Hdiv.
  rewrite raw_noise_single in Hdiv. simpl in Hdiv.
  rewrite Rmult_0_r, Rabs_R0 in Hdiv.
  eexists _, _. split; [exact E|].
  exact (zero_noise_gives_nan_buffer (fun _ => 0%Z) _ _ _ _ _ _ _ E Hdiv).
Defined.

(* ================================================================== *)
(** ** Further properties: the ends of the loop *)

(** The filtered noise of two samples: the two bins are the sum and the
    difference of the samples, the difference weighted by the gain of the
    second bin. *)
Lemma raw_noise_pair g sample_rate :
  let G := gain (-1 * bin_width 2 sample_rate) in
  raw_noise g 2 sample_rate
  = [ (0.1 * g 0%nat + 0.1 * g 1%nat + G * (0.1 * g 0%nat - 0.1 * g 1%nat)) / 2;
      (0.1 * g 0%nat + 0.1 * g 1%nat - G * (0.1 * g 0%nat - 0.1 * g 1%nat)) / 2 ].
Proof.
  intros G.
  unfold raw_noise, filtered_values, white_values, ifft_values, dft, bins.
  simpl. unfold csum. simpl. unfold len. simpl length. simpl Z.of_nat.
  fold G.
  replace (2 * PI * 0 * 0 / (1 + 1)) with 0 by (unfold Rdiv; ring).
  replace (2 * PI * 0 * 1 / (1 + 1)) with 0 by (unfold Rdiv; ring).
  replace (2 * PI * 1 * 0 / (1 + 1)) with 0 by (unfold Rdiv; ring).
  replace (2 * PI * 1 * 1 / (1 + 1)) with PI by field.
  rewrite cos_0, sin_0, cos_PI, sin_PI.
  f_equal; [field | f_equal; field].
Qed.

Lemma peak_of_nonzero xs x : In x xs -> x <> 0 -> peak_of xs <> 0.
Proof.
  intros Hx Hn E. pose proof (peak_of_ge xs x Hx) as H. rewrite E in H.
  apply Rabs_pos_lt in Hn. lra.
Qed.

(** With the constant generator of [world0] two samples of noise have a
    nonzero peak, whatever the rate. *)
Lemma pair_peak_nonzero sample_rate :
  peak_of (raw_noise (rng world0) 2 sample_rate) <> 0.
Proof.
  rewrite raw_noise_pair. simpl rng.
  eapply peak_of_nonzero; [left; reflexivity|].
  match goal with |- ?e <> 0 => replace e with 0.1 by field end. lra.
Qed.

Lemma pre_envelope_bounded g D sample_rate :
  well_sized D sample_rate ->
  peak_of (raw_noise g (Z.to_nat (sample_count D sample_rate)) sample_rate) <> 0 ->
  Forall (bounded 0.45)
    (map2 fadd
       (normalized (raw_noise g (Z.to_nat (sample_count D sample_rate)) sample_rate))
       (harmonic_of (linspace_values (Fin 0) (Fin D)
                       (sample_count D sample_rate) false))).
Proof.
  intros Hw Hp. pose proof (well_sized_positive _ _ Hw) as HD.
  apply Forall_map2 with (P := bounded 0.3) (Q := bounded (0.1 + 0.05)).
  - intros u v Hu Hv. destruct (bounded_fadd _ _ u v Hu Hv) as (x & E & Hx).
    exists x. split; [exact E | lra].
  - now apply normalized_bounded.
  - apply harmonic_bounded. apply time_axis_nonneg. lra.
Qed.

Lemma quantize1_zero_gain cu (x e : R) :
  e = 0 -> quantize1 cu (fmul (Fin x) (Fin e)) = 0%Z.
Proof.
  intros ->. simpl fmul. rewrite quantize1_fin.
  replace (x * 0 * 32767) with 0 by ring.
  rewrite fl64_0, clipR_id by lra. apply (Rtrunc_IZR 0).
Qed.

(** Where the envelope is 0 the quantized sample is 0, provided the noise
    was not degenerate. *)
Lemma quantized_zero_where_gain_zero cu g D sample_rate i :
  well_sized D sample_rate ->
  peak_of (raw_noise g (Z.to_nat (sample_count D sample_rate)) sample_rate) <> 0 ->
  (i < Z.to_nat (sample_count D sample_rate))%nat ->
  nth i (envelope_values (Z.to_nat (sample_count D sample_rate))
           (sample_rate ÷ 20)) NaN = Fin 0 ->
  nth i (quantize cu (signal_values g D sample_rate)) 1%Z = 0%Z.
Proof.
  intros Hw Hp Hi He.
  pose proof (pre_envelope_bounded g D sample_rate Hw Hp) as Hpre.
  unfold quantize.
  rewrite (nth_map_lt _ _ _ NaN) by (rewrite signal_values_length; assumption).
  unfold signal_values.
  set (n := Z.to_nat (sample_count D sample_rate)) in *.
  set (pre := map2 fadd _ _) in *.
  assert (Lpre : length pre = n).
  { subst pre. unfold well_sized in Hw.
    rewrite map2_length, normalized_length, harmonic_of_length,
      linspace_values_length, raw_noise_length by lia. lia. }
  assert (Lenv : length (envelope_values n (sample_rate ÷ 20)) = n).
  { unfold well_sized in Hw. apply envelope_values_length. lia. }
  rewrite (map2_nth fmul _ _ _ NaN NaN) by lia.
  rewrite He.
  rewrite (Forall_nth_iff _ _ NaN) in Hpre.
  destruct (Hpre i ltac:(lia)) as (x & -> & _).
  now apply quantize1_zero_gain.
Qed.

(** X9.  With at least two fade samples (a rate of at least 40 Hz) the
    last sample of a returned buffer is 0, provided the divisor of the
    normalization was not zero. *)
Theorem loop_ends_at_zero cu duration sample_rate w buf sr' w' m w1 :
  generate_pencil_sound cu duration sample_rate w = (inr (buf, sr'), w') ->
  normalization_divisor duration sample_rate w = (inr m, w1) ->
  m <> Fin 0 ->
  (40 <= sample_rate)%Z ->
  nth (length buf - 1) buf 1%Z = 0%Z.
Proof.
  intros H Hdiv Hm Hs.
  destruct (generate_inv _ _ _ _ _ _ _ H) as (D & -> & Hw & -> & ->).
  rewrite (normalization_divisor_ok D sample_rate w Hw) in Hdiv.
  assert (Hp : peak_of (raw_noise (rng w)
                 (Z.to_nat (sample_count D sample_rate)) sample_rate) <> 0).
  { intros E. apply Hm. inversion Hdiv. now rewrite E. }
  unfold quantize at 1. rewrite length_map, signal_values_length by assumption.
  assert (Hf : (2 <= sample_rate ÷ 20)%Z) by (apply Z.quot_le_lower_bound; lia).
  unfold well_sized in Hw.
  set (n := Z.to_nat (sample_count D sample_rate)) in *.
  apply quantized_zero_where_gain_zero; [exact Hw | exact Hp | fold n; lia |].
  fold n. rewrite envelope_fade_out by lia. f_equal.
  replace (n - 1 - (n - Z.to_nat (sample_rate ÷ 20)))%nat
    with (Z.to_nat (sample_rate ÷ 20) - 1)%nat by lia.
  rewrite ramp_last by lia. ring.
Qed.

Lemma well_sized_pair_40 : well_sized 0.05 40.
Proof.
  unfold well_sized.
  assert (E : sample_count 0.05 40 = 2%Z)
    by (apply sample_count_exact; [lra|discriminate]).
  rewrite E. change (40 ÷ 20)%Z with 2%Z. lia.
Qed.

Lemma loop_ends_at_zero_witness :
  exists buf w',
    generate_pencil_sound (fun _ => 0%Z) (Fin 0.05) 40 world0 = (inr (buf, 40%Z), w')
    /\ nth (length buf - 1) buf 1%Z = 0%Z.
Proof.
  pose proof (generate_ok (fun _ => 0%Z) 0.05 40 world0 well_sized_pair_40) as E.
  pose proof (normalization_divisor_ok 0.05 40 world0 well_sized_pair_40) as Hdiv.
  eexists _, _. split; [exact E|].
  refine (loop_ends_at_zero (fun _ => 0%Z) _ _ _ _ _ _ _ _ E Hdiv _ _); [|lia].
  assert (T : sample_count 0.05 40 = 2%Z)
    by (apply sample_count_exact; [lra|discriminate]).
  rewrite T. change (Z.to_nat 2) with 2%nat.
  intros F. inversion F as [F0]. exact (pair_peak_nonzero 40 F0).
Defined.

(** X10.  When there are more samples than fade samples the first sample
    of a returned buffer is 0, provided the divisor of the normalization
    was not zero. *)
Theorem loop_starts_at_zero cu duration sample_rate w buf sr' w' m w1 :
  generate_pencil_sound cu duration sample_rate w = (inr (buf, sr'), w') ->
  normalization_divisor duration sample_rate w = (inr m, w1) ->
  m <> Fin 0 ->
  (sample_rate ÷ 20 < len buf)%Z ->
  nth 0 buf 1%Z = 0%Z.
Proof.
  intros H Hdiv Hm Hlt.
  destruct (generate_inv _ _ _ _ _ _ _ H) as (D & -> & Hw & -> & ->).
  rewrite (normalization_divisor_ok D sample_rate w Hw) in Hdiv.
  assert (Hp : peak_of (raw_noise (rng w)
                 (Z.to_nat (sample_count D sample_rate)) sample_rate) <> 0).
  { intros E. apply Hm. inversion Hdiv. now rewrite E. }
  unfold len, quantize in Hlt.
  rewrite length_map, signal_values_length in Hlt by assumption.
  pose proof Hw as Hw'. unfold well_sized in Hw'.
  set (n := Z.to_nat (sample_count D sample_rate)) in *.
  apply quantized_zero_where_gain_zero; [exact Hw | exact Hp | fold n; lia |].
  fold n. destruct (Z.eq_dec (sample_rate ÷ 20) 1) as [E1|E1].
  - rewrite E1. apply envelope_one_first. rewrite E1 in Hlt. lia.
  - rewrite envelope_fade_in by lia. f_equal. apply ramp_first.
Qed.

Lemma well_sized_pair_20 : well_sized 0.1 20.
Proof.
  unfold well_sized.
  assert (E : sample_count 0.1 20 = 2%Z)
    by (apply sample_count_exact; [lra|discriminate]).
  rewrite E. change (20 ÷ 20)%Z with 1%Z. lia.
Qed.

Lemma loop_starts_at_zero_witness :
  exists buf w',
    generate_pencil_sound (fun _ => 0%Z) (Fin 0.1) 20 world0 = (inr (buf, 20%Z), w')
    /\ nth 0 buf 1%Z = 0%Z.
Proof.
  pose proof (generate_ok (fun _ => 0%Z) 0.1 20 world0 well_sized_pair_20) as E.
  pose proof (normalization_divisor_ok 0.1 20 world0 well_sized_pair_20) as Hdiv.
  assert (T : sample_count 0.1 20 = 2%Z)
    by (apply sample_count_exact; [lra|discriminate]).
  eexists _, _. split; [exact E|].
  refine (loop_starts_at_zero (fun _ => 0%Z) _ _ _ _ _ _ _ _ E Hdiv _ _).
  - rewrite T. change (Z.to_nat 2) with 2%nat.
    intros F. inversion F as [F0]. exact (pair_peak_nonzero 20 F0).
  - unfold len, quantize.
    rewrite length_map, signal_values_length by apply well_sized_pair_20.
    rewrite T. change (20 ÷ 20)%Z with 1%Z. simpl. lia.
Defined.

(* ================================================================== *)
(** ** Further properties: the envelope and the quantizer *)

Lemma ramp_mirror (f : Z) (i : nat) :
  (2 <= f)%Z -> (Z.of_nat i < f)%Z ->
  ramp f i = 1 - ramp f (Z.to_nat f - 1 - i).
Proof.
  intros Hf Hi. unfold ramp.
  replace (Z.of_nat (Z.to_nat f - 1 - i)) with (f - 1 - Z.of_nat i)%Z by lia.
  rewrite !minus_IZR. field.
  rewrite <- minus_IZR. apply not_0_IZR. lia.
Qed.

(** X11.  In exact arithmetic, when the two fades do not overlap (at least
    two fade samples, at most half the buffer) the envelope reads the same
    backwards: the gain at index i is the gain at index n - 1 - i.  (The
    two ramps are computed by two [np.linspace] calls, whose float64
    roundings need not mirror each other: the statement is about the
    values before rounding.) *)
Theorem envelope_is_symmetric (t : list float) (sample_rate : Z) (w : world) :
  (2 <= sample_rate ÷ 20)%Z -> (2 * (sample_rate ÷ 20) <= len t)%Z ->
  exists env,
    envelope_of t sample_rate w = (inr env, w)
    /\ forall i, (i < length t)%nat ->
                 nth i env NaN = nth (length t - 1 - i) env NaN.
Proof.
  intros Hf Hn. unfold len in Hn.
  set (n := length t) in *. set (f := (sample_rate ÷ 20)%Z) in *.
  exists (envelope_values n f). split.
  { apply envelope_of_ok. fold f. unfold len. fold n. lia. }
  intros i Hi. set (k := Z.to_nat f).
  destruct (Nat.lt_ge_cases i k) as [Hin|Hge].
  - rewrite envelope_fade_in by (subst k; lia).
    rewrite envelope_fade_out by (subst k; lia). f_equal.
    replace (n - 1 - i - (n - Z.to_nat f))%nat with (Z.to_nat f - 1 - i)%nat
      by (subst k; lia).
    apply ramp_mirror; subst k; lia.
  - destruct (Nat.lt_ge_cases i (n - k)) as [Hmid|Hout].
    + rewrite !envelope_middle by (subst k; lia). reflexivity.
    + rewrite envelope_fade_out by (subst k; lia).
      rewrite envelope_fade_in by (subst k; lia). f_equal.
      rewrite (ramp_mirror f (n - 1 - i)) by (subst k; lia).
      do 2 f_equal. subst k. lia.
Qed.

Lemma envelope_is_symmetric_witness :
  exists env,
    envelope_of (repeat (Fin 0) 44) 40 world0 = (inr env, world0)
    /\ forall i, (i < 44)%nat -> nth i env NaN = nth (44 - 1 - i) env NaN.
Proof.
  apply (envelope_is_symmetric (repeat (Fin 0) 44) 40 world0).
  - change (40 ÷ 20)%Z with 2%Z. lia.
  - change (40 ÷ 20)%Z with 2%Z. unfold len. simpl. lia.
Defined.

(** X12.  The quantizer is monotone: a larger sample never gets a smaller
    integer. *)
Theorem quantizer_monotone cu (x y : R) :
  x <= y -> (quantize1 cu (Fin x) <= quantize1 cu (Fin y))%Z.
Proof.
  intros H. rewrite !quantize1_fin.
  apply Rtrunc_le, clipR_monotone, fl64_monotone.
  apply Rmult_le_compat_r; lra.
Qed.

Lemma quantizer_monotone_witness :
  (quantize1 (fun _ => 0%Z) (Fin (-0.2)) <= quantize1 (fun _ => 0%Z) (Fin 0.3))%Z.
Proof.
  apply (quantizer_monotone (fun _ => 0%Z) (-0.2) 0.3). lra.
Defined.

Lemma clipR_high (y : R) : 32767 <= y -> clipR y = 32767.
Proof.
  intros H. unfold clipR. rewrite Rmax_left by lra. apply Rmin_right. lra.
Qed.

Lemma clipR_low (y : R) : y <= -32768 -> clipR y = -32768.
Proof.
  intros H. unfold clipR. rewrite Rmax_right by lra. apply Rmin_left. lra.
Qed.

(** X13.  The quantizer saturates: a sample of 1 or more, and plus
    infinity, give 32767; a sample of -32768/32767 or less, and minus
    infinity, give -32768; and a sample of -1 or more never gives -32768,
    so that value comes from clipping only. *)
Theorem quantizer_saturates cu :
  (forall x, 1 <= x -> quantize1 cu (Fin x) = 32767%Z)
  /\ (forall x, x * 32767 <= -32768 -> quantize1 cu (Fin x) = (-32768)%Z)
  /\ quantize1 cu (Inf false) = 32767%Z
  /\ quantize1 cu (Inf true) = (-32768)%Z
  /\ (forall x, -1 <= x -> (-32767 <= quantize1 cu (Fin x))%Z).
Proof.
  pose proof (is_float64_int16 32767 ltac:(lia)) as Fhi.
  pose proof (is_float64_int16 (-32768) ltac:(lia)) as Flo.
  pose proof (is_float64_int16 (-32767) ltac:(lia)) as Flo'.
  assert (Hneq : Reqb 32767 0 = false) by (apply Reqb_false; lra).
  assert (Hlt : Rltb 32767 0 = false) by (apply Rltb_false; lra).
  assert (H1 : Rltb (-32769) 32767 = true) by (apply Rltb_true; lra).
  assert (H2 : Rltb 32767 32768 = true) by (apply Rltb_true; lra).
  assert (H3 : Rltb (-32769) (-32768) = true) by (apply Rltb_true; lra).
  assert (H4 : Rltb (-32768) 32768 = true) by (apply Rltb_true; lra).
  split; [|split; [|split; [|split]]].
  - intros x Hx. rewrite quantize1_fin, clipR_high.
    + apply (Rtrunc_IZR 32767).
    + apply fl64_ge; [exact Fhi|lra].
  - intros x Hx. rewrite quantize1_fin, clipR_low.
    + apply (Rtrunc_IZR (-32768)).
    + apply fl64_le; [exact Flo|lra].
  - unfold quantize1, scale_clip, np_clip, of_int, fmul64. simpl fmul.
    rewrite Hneq, Hlt. simpl.
    rewrite H1, H2. simpl. apply (Rtrunc_IZR 32767).
  - unfold quantize1, scale_clip, np_clip, of_int, fmul64. simpl fmul.
    rewrite Hneq, Hlt. simpl.
    rewrite Rmin_left by lra. rewrite H3, H4. simpl. apply (Rtrunc_IZR (-32768)).
  - intros x Hx. rewrite quantize1_fin.
    assert (L : -32767 <= fl64 (x * 32767)) by (apply fl64_ge; [exact Flo'|lra]).
    assert (M : clipR (-32767) <= clipR (fl64 (x * 32767)))
      by now apply clipR_monotone.
    apply Rtrunc_le in M. rewrite clipR_id in M by lra.
    now rewrite (Rtrunc_IZR (-32767)) in M.
Qed.

(** X14.  On samples between -1 and 1 the quantizer is odd: the opposite
    sample gets the opposite integer (truncation is toward zero on both
    sides). *)
Theorem quantizer_odd cu (x : R) :
  -1 <= x <= 1 -> quantize1 cu (Fin (- x)) = (- quantize1 cu (Fin x))%Z.
Proof.
  intros [H1 H2]. rewrite !quantize1_fin.
  replace (- x * 32767) with (- (x * 32767)) by ring.
  rewrite fl64_opp.
  assert (L : -32767 <= fl64 (x * 32767))
    by (apply fl64_ge; [apply is_float64_int16; lia|lra]).
  assert (U : fl64 (x * 32767) <= 32767)
    by (apply fl64_le; [apply is_float64_int16; lia|lra]).
  rewrite !clipR_id by (split; lra).
  apply Rtrunc_opp.
Qed.

Lemma quantizer_odd_witness :
  quantize1 (fun _ => 0%Z) (Fin (Ropp 0.25)) = (- quantize1 (fun _ => 0%Z) (Fin 0.25))%Z.
Proof.
  apply (quantizer_odd (fun _ => 0%Z) 0.25). split; lra.
Defined.

(* ================================================================== *)
(** ** Further properties: the time axis, the bins and the partials *)



Lemma bins_nth (n : Z) (val : R) (k : nat) :
  (1 <= n)%Z -> (Z.of_nat k < n)%Z ->
  nth k (bins n val) 0
  = IZR (if (2 * Z.of_nat k <=? n - 1)%Z then Z.of_nat k else Z.of_nat k - n) * val.
Proof.
  intros Hn Hk. unfold bins.
  assert (Hq1 : (0 <= (n - 1) / 2)%Z) by (apply Z.div_pos; lia).
  assert (Hq2 : (0 <= n / 2)%Z) by (apply Z.div_pos; lia).
  pose proof (Z.div_mod n 2 ltac:(lia)) as D2.
  pose proof (Z.mod_pos_bound n 2 ltac:(lia)) as M2.
  pose proof (Z.div_mod (n - 1) 2 ltac:(lia)) as D1.
  pose proof (Z.mod_pos_bound (n - 1) 2 ltac:(lia)) as M1.
  assert (Hsum : ((n - 1) / 2 + 1 + n / 2 = n)%Z) by lia.
  rewrite (nth_map_lt _ _ _ 0%Z) by (rewrite length_app, !arange_length; lia).
  f_equal. f_equal.
  destruct (Z.leb_spec (2 * Z.of_nat k) (n - 1)) as [Hlo|Hhi].
  - rewrite app_nth1 by (rewrite arange_length; lia).
    rewrite arange_nth by lia. lia.
  - rewrite app_nth2 by (rewrite arange_length; lia).
    rewrite arange_length, arange_nth by lia. lia.
Qed.

(** X16.  The frequency bins [np.fft.fftfreq] gives for n samples at a
    positive rate R: bin k is k R / n for 2 k <= n - 1 and (k - n) R / n
    above; the first bin is the only zero one; the bins of the first half
    are not negative and those of the second half are negative. *)
Theorem frequency_bins (n sample_rate : Z) (w : world) :
  (1 <= n)%Z -> (0 < sample_rate)%Z ->
  exists frequencies,
    np_fft_fftfreq n (Fin (1 / IZR sample_rate)) w = (inr frequencies, w)
    /\ len frequencies = n
    /\ forall k, (Z.of_nat k < n)%Z ->
         exists x, nth k frequencies NaN = Fin x
           /\ x = IZR (if (2 * Z.of_nat k <=? n - 1)%Z then Z.of_nat k
                       else Z.of_nat k - n) * IZR sample_rate / IZR n
           /\ (x = 0 <-> k = 0%nat)
           /\ (0 <= x <-> (2 * Z.of_nat k <= n - 1)%Z).
Proof.
  intros Hn Hs.
  exists (map Fin (bins n (bin_width n sample_rate))).
  split; [apply np_fft_fftfreq_ok; lia|].
  split; [unfold len; rewrite length_map, bins_length; lia|].
  intros k Hk.
  rewrite (nth_map_lt _ _ _ 0) by (rewrite bins_length; lia).
  rewrite bins_nth by assumption.
  set (c := if (2 * Z.of_nat k <=? n - 1)%Z then Z.of_nat k else (Z.of_nat k - n)%Z).
  assert (Hn0 : 0 < IZR n) by (apply IZR_lt; lia).
  assert (Hs0 : 0 < IZR sample_rate) by (apply IZR_lt; lia).
  assert (Ew : bin_width n sample_rate = IZR sample_rate / IZR n).
  { unfold bin_width. field. split; lra. }
  assert (Hc0 : c = 0%Z <-> k = 0%nat).
  { subst c. destruct (Z.leb_spec (2 * Z.of_nat k) (n - 1)); lia. }
  assert (Hc1 : (0 <= c)%Z <-> (2 * Z.of_nat k <= n - 1)%Z).
  { subst c. destruct (Z.leb_spec (2 * Z.of_nat k) (n - 1)); lia. }
  eexists. split; [reflexivity|]. rewrite Ew.
  split; [field; lra|]. split.
  - split.
    + intros Hx. apply Hc0. apply eq_IZR.
      assert (Hq : 0 < IZR sample_rate / IZR n) by (apply Rdiv_lt_0_compat; lra).
      nra.
    + intros Hk0. apply Hc0 in Hk0. rewrite Hk0. ring.
  - assert (Hq : 0 < IZR sample_rate / IZR n) by (apply Rdiv_lt_0_compat; lra).
    rewrite <- Hc1. split.
    + intros Hx. apply le_IZR.
      destruct (Rle_dec 0 (IZR c)) as [|Hneg]; [assumption|exfalso]. nra.
    + intros Hc. apply IZR_le in Hc. nra.
Qed.

Lemma frequency_bins_witness :
  exists frequencies,
    np_fft_fftfreq 22050 (Fin (1 / IZR 44100)) world0 = (inr frequencies, world0)
    /\ len frequencies = 22050%Z
    /\ exists x, nth 1 frequencies NaN = Fin x /\ x = 2.
Proof.
  destruct (frequency_bins 22050 44100 world0 ltac:(lia) ltac:(lia))
    as (fr & H1 & H2 & H3).
  exists fr. split; [exact H1|]. split; [exact H2|].
  destruct (H3 1%nat ltac:(lia)) as (x & Hx & Ex & _).
  exists x. split; [exact Hx|]. rewrite Ex. simpl. lra.
Defined.

Lemma where_array_gains (xs : list R) :
  np_where (map (fun f => fne f (of_int 0)) (map Fin xs))
           (map (fun v => fdiv (of_int 1) v) (map fsqrt (map fabs (map Fin xs))))
           (of_int 1)
  = map (fun x => Fin (gain x)) xs.
Proof.
  unfold np_where. rewrite !map_map.
  rewrite (map2_map_same (fun (c : bool) v => if c then v else of_int 1)).
  apply map_ext. intros x. apply where_bin.
Qed.

(** X17.  The assignment [pink_filter[0] = 1] of line 27 changes nothing:
    the array [np.where] has built already holds 1 in its first place. *)
Theorem dc_assignment_changes_nothing (n sample_rate : Z) (w : world) :
  (1 <= n)%Z -> sample_rate <> 0%Z ->
  exists frequencies inv w',
    np_fft_fftfreq n (Fin (1 / IZR sample_rate)) w = (inr frequencies, w)
    /\ np_rdivide (of_int 1) (map fsqrt (map fabs frequencies)) w = (inr inv, w')
    /\ let pink_filter :=
         np_where (map (fun f => fne f (of_int 0)) frequencies) inv (of_int 1) in
       setitem0 pink_filter (of_int 1) w' = (inr pink_filter, w').
Proof.
  intros Hn Hs.
  destruct (bins_head n (bin_width n sample_rate) Hn) as [xs Hxs].
  eexists _, _, _. split; [now apply np_fft_fftfreq_ok|].
  split; [reflexivity|].
  rewrite where_array_gains, Hxs. simpl map.
  unfold gain at 1. rewrite Reqb_refl. reflexivity.
Qed.

Lemma dc_assignment_changes_nothing_witness :
  exists frequencies inv w',
    np_fft_fftfreq 4 (Fin (1 / IZR 8)) world0 = (inr frequencies, world0)
    /\ np_rdivide (of_int 1) (map fsqrt (map fabs frequencies)) world0 = (inr inv, w')
    /\ setitem0 (np_where (map (fun f => fne f (of_int 0)) frequencies) inv (of_int 1))
                (of_int 1) w'
       = (inr (np_where (map (fun f => fne f (of_int 0)) frequencies) inv (of_int 1)), w').
Proof.
  apply (dc_assignment_changes_nothing 4 8 world0); lia.
Defined.

(** X18.  Each sample of the harmonic content is bounded by the two
    decaying exponentials, 0.1 exp(-5 t) + 0.05 exp(-8 t) at the instant t,
    and is 0 at the instant 0. *)
Theorem harmonic_decays (t : list float) (i : nat) (tau : R) :
  (i < length t)%nat -> nth i t NaN = Fin tau ->
  exists h,
    nth i (harmonic_of t) NaN = Fin h
    /\ Rabs h <= 0.1 * exp (- tau * 5) + 0.05 * exp (- tau * 8)
    /\ (tau = 0 -> h = 0).
Proof.
  intros Hi Ht. unfold harmonic_of, partial. rewrite !map_map.
  rewrite !(map2_map_same fmul).
  rewrite (map2_map_same fadd).
  rewrite (nth_map_lt _ _ _ NaN) by assumption. rewrite Ht. simpl.
  eexists. split; [reflexivity|].
  pose proof (SIN_bound (2 * PI * 2000 * tau)) as [S1 S2].
  pose proof (SIN_bound (2 * PI * 3000 * tau)) as [S3 S4].
  pose proof (exp_pos (- tau * 5)) as E1.
  pose proof (exp_pos (- tau * 8)) as E2.
  split.
  - apply Rabs_bound. split; nra.
  - intros ->. rewrite !Rmult_0_r, sin_0. ring.
Qed.

Lemma harmonic_decays_witness :
  exists h,
    nth 0 (harmonic_of [Fin 0]) NaN = Fin h
    /\ Rabs h <= 0.1 * exp (- 0 * 5) + 0.05 * exp (- 0 * 8)
    /\ h = 0.
Proof.
  destruct (harmonic_decays [Fin 0] 0 0 ltac:(simpl; lia) eq_refl) as (h & H1 & H2 & H3).
  exists h. split; [exact H1|]. split; [exact H2|]. now apply H3.
Defined.

(* ================================================================== *)
(** ** Further properties: the normalization and [main] *)

Lemma peak_of_scale (c : R) (xs : list R) :
  0 < c -> peak_of (map (Rmult c) xs) = c * peak_of xs.
Proof.
  intros Hc. destruct xs as [|x0 xs'] eqn:E.
  { simpl. ring. }
  rewrite <- E. assert (Hne : xs <> []) by (rewrite E; discriminate).
  clear E. apply peak_of_unique.
  - intros y Hy. apply in_map_iff in Hy. destruct Hy as (x & <- & Hx).
    rewrite Rabs_mult, (Rabs_pos_eq c) by lra.
    pose proof (peak_of_ge xs x Hx). nra.
  - destruct (peak_of_attained xs Hne) as (x & Hx & Ex).
    exists (c * x). split; [now apply in_map|].
    rewrite Rabs_mult, (Rabs_pos_eq c) by lra. now rewrite Ex.
Qed.

(** X19.  In exact arithmetic the normalization forgets the scale of its
    input: a buffer multiplied by a positive factor normalizes to the same
    samples.  (So the standard deviation 0.1 of the white noise sets no
    level by itself: the peak is set to 0.3 whatever the level before.  In
    float64 the two quotients can differ in the last digit: the statement
    is about the values before rounding.) *)
Theorem normalize_ignores_scale (xs : list R) (c : R) (w : world) :
  0 < c ->
  fst (normalize (map Fin (map (Rmult c) xs)) w) = fst (normalize (map Fin xs) w).
Proof.
  intros Hc. destruct xs as [|x0 xs'] eqn:E; [reflexivity|].
  rewrite <- E. assert (Hne : xs <> []) by (rewrite E; discriminate). clear E.
  rewrite !normalize_fin; [| assumption | intros F; apply map_eq_nil in F; contradiction].
  simpl. f_equal. unfold normalized. rewrite peak_of_scale by assumption.
  destruct (Reqb (peak_of xs) 0) eqn:Ep.
  - apply Reqb_true in Ep. rewrite Ep, Rmult_0_r, Reqb_refl.
    now rewrite map_map.
  - apply Reqb_false in Ep.
    replace (Reqb (c * peak_of xs) 0) with false
      by (symmetry; apply Reqb_false; nra).
    rewrite map_map. apply map_ext. intros x. f_equal. field. split; lra.
Qed.

Lemma normalize_ignores_scale_witness :
  fst (normalize (map Fin (map (Rmult 3) [1; -2])) world0)
  = fst (normalize (map Fin [1; -2]) world0).
Proof.
  apply (normalize_ignores_scale [1; -2] 3 world0). lra.
Defined.

(** X20.  [main] generates the default loop, then creates the directory,
    then writes the file.  The generator does not fail on the default
    parameters, so [main] raises nothing but [OSError], and only when the
    operating system refuses the directory or the file: a refused directory
    leaves nothing behind, a refused file leaves the directory.  Otherwise
    the file holds 22050 samples of the int16 range, mono, 16 bits, at
    44100 Hz.  In each case the run has consumed 22050 variates. *)
Theorem main_writes_unless_refused cu w :
  let dir := "../src/Artisense.UI/Assets"%string in
  let path := "../src/Artisense.UI/Assets/pencil_loop.wav"%string in
  exists data w',
    len data = 22050%Z
    /\ Forall (fun q => (-32768 <= q <= 32767)%Z) data
    /\ (forall i, rng w' i = rng w (Z.to_nat 22050 + i)%nat)
    /\ (refused w dir = true ->
        main cu w = (inl OSError, w')
        /\ dirs w' = dirs w /\ files w' = files w)
    /\ (refused w dir = false -> refused w path = true ->
        main cu w = (inl OSError, w')
        /\ dirs w' = dir :: dirs w /\ files w' = files w)
    /\ (refused w dir = false -> refused w path = false ->
        main cu w = (inr tt, w')
        /\ dirs w' = dir :: dirs w
        /\ files w' = (path, {| wav_rate := 44100; wav_channels := 1;
                                wav_bits := 16; wav_data := data |}) :: files w).
Proof.
  intros dir path.
  pose proof (generate_ok cu 0.5 44100 w well_sized_default) as G.
  exists (quantize cu (signal_values (rng w) 0.5 44100)).
  assert (L : len (quantize cu (signal_values (rng w) 0.5 44100)) = 22050%Z).
  { unfold quantize, len.
    rewrite length_map, signal_values_length by apply well_sized_default.
    now rewrite sample_count_default. }
  assert (R : Forall (fun q => (-32768 <= q <= 32767)%Z)
                (quantize cu (signal_values (rng w) 0.5 44100))).
  { unfold quantize. apply Forall_map, Forall_forall.
    intros v _. apply astype_int16_range. }
  assert (M : main cu w
              = (os_makedirs dir ;;;
                 wav_write path 44100
                   (quantize cu (signal_values (rng w) 0.5 44100)))
                  (final_world 0.5 44100 w)).
  { unfold main, default_duration, default_sample_rate.
    now rewrite (bind_ok _ _ _ _ _ G). }
  assert (V : forall i, rng (final_world 0.5 44100 w) i
                        = rng w (Z.to_nat 22050 + i)%nat).
  { intros i. unfold final_world. rewrite sample_count_default. reflexivity. }
  change (refused w) with (refused (final_world 0.5 44100 w)).
  change (dirs w) with (dirs (final_world 0.5 44100 w)).
  change (files w) with (files (final_world 0.5 44100 w)).
  rewrite M. clear M G. revert V. generalize (final_world 0.5 44100 w) as w1.
  intros w1 V. unfold bind, os_makedirs, wav_write.
  destruct (refused w1 dir) eqn:Ed.
  - exists w1. repeat split; try assumption; try discriminate.
  - simpl refused. destruct (refused w1 path) eqn:Ep.
    + exists {| rng := rng w1; warnings := warnings w1; dirs := dir :: dirs w1;
                files := files w1; refused := refused w1 |}.
      repeat split; try assumption; try discriminate.
    + exists {| rng := rng w1; warnings := warnings w1; dirs := dir :: dirs w1;
                files := (path, {| wav_rate := 44100; wav_channels := 1;
                                   wav_bits := 16;
                                   wav_data := quantize cu (signal_values (rng w) 0.5 44100) |})
                         :: files w1;
                refused := refused w1 |}.
      repeat split; try assumption; try discriminate.
Qed.

(** X22.  When the buffer holds at most [sample_rate] samples (a duration
    of at most one second) the filter amplifies no bin: every gain is
    positive and at most 1. *)
Theorem filter_never_amplifies (n sample_rate : Z) (w : world) :
  (1 <= n)%Z -> (n <= sample_rate)%Z ->
  exists frequencies pink_filter w',
    np_fft_fftfreq n (Fin (1 / IZR sample_rate)) w = (inr frequencies, w)
    /\ pink_filter_of frequencies w = (inr pink_filter, w')
    /\ Forall (fun v => exists g, v = Fin g /\ 0 < g <= 1) pink_filter.
Proof.
  intros Hn Hs.
  destruct (bins_head n (bin_width n sample_rate) Hn) as [xs Hxs].
  eexists _, _, _. split; [apply np_fft_fftfreq_ok; lia|].
  rewrite Hxs. split; [apply pink_filter_of_ok|].
  constructor; [exists 1; split; [reflexivity|lra]|].
  apply Forall_map, Forall_forall. intros x Hx.
  destruct (In_nth xs x 0 Hx) as (i & Hi & Ex).
  assert (L : length (bins n (bin_width n sample_rate)) = Z.to_nat n)
    by (apply bins_length; lia).
  rewrite Hxs in L. simpl in L.
  assert (Eb : nth (S i) (bins n (bin_width n sample_rate)) 0 = x)
    by (rewrite Hxs; exact Ex).
  rewrite bins_nth in Eb by lia.
  set (c := if (2 * Z.of_nat (S i) <=? n - 1)%Z then Z.of_nat (S i)
            else (Z.of_nat (S i) - n)%Z) in Eb.
  assert (Hc : (c <= -1 \/ 1 <= c)%Z).
  { subst c. destruct (Z.leb_spec (2 * Z.of_nat (S i)) (n - 1)); lia. }
  assert (Hn0 : 0 < IZR n) by (apply IZR_lt; lia).
  assert (Hsn : IZR n <= IZR sample_rate) by now apply IZR_le.
  assert (Ew : bin_width n sample_rate = IZR sample_rate / IZR n).
  { unfold bin_width. field. split; lra. }
  assert (Hw : 1 <= bin_width n sample_rate).
  { rewrite Ew. apply Rmult_le_reg_r with (IZR n); [assumption|].
    unfold Rdiv. rewrite Rmult_assoc, Rinv_l by lra. lra. }
  assert (Habs : 1 <= Rabs x).
  { rewrite <- Eb. destruct Hc as [Hc|Hc]; apply IZR_le in Hc.
    - rewrite Rabs_left by nra. nra.
    - rewrite Rabs_pos_eq by nra. nra. }
  assert (Hx0 : x <> 0).
  { intros Hz. rewrite Hz, Rabs_R0 in Habs. lra. }
  exists (gain x). split; [reflexivity|].
  unfold gain. replace (Reqb x 0) with false by (symmetry; now apply Reqb_false).
  assert (Hsq : 1 <= sqrt (Rabs x)).
  { rewrite <- sqrt_1. apply sqrt_le_1_alt. exact Habs. }
  split.
  - apply Rdiv_lt_0_compat; lra.
  - apply Rmult_le_reg_r with (sqrt (Rabs x)); [lra|].
    unfold Rdiv. rewrite Rmult_assoc, Rinv_l by lra. lra.
Qed.

Lemma filter_never_amplifies_witness :
  exists frequencies pink_filter w',
    np_fft_fftfreq 22050 (Fin (1 / IZR 44100)) world0 = (inr frequencies, world0)
    /\ pink_filter_of frequencies world0 = (inr pink_filter, w')
    /\ Forall (fun v => exists g, v = Fin g /\ 0 < g <= 1) pink_filter.
Proof.
  apply (filter_never_amplifies 22050 44100 world0); lia.
Defined.

(* ================================================================== *)
(** ** Further properties: the inverse transform is real *)

Lemma fold_left_Rplus l a : fold_left Rplus l a = a + rsum l.
Proof.
  revert a. induction l as [|x l IH]; intros a; simpl.
  - ring.
  - rewrite IH. ring.
Qed.

Lemma csum_cfin (l : list (R * R)) :
  csum (map cfin l) = cfin (0 + rsum (map fst l), 0 + rsum (map snd l)).
Proof.
  unfold csum.
  assert (G : forall a b,
            fold_left cadd (map cfin l) (Fin a, Fin b)
            = cfin (fold_left Rplus (map fst l) a, fold_left Rplus (map snd l) b)).
  { induction l as [|p l IH]; intros a b; [reflexivity|].
    simpl. unfold cadd at 2. simpl. apply IH. }
  rewrite G, !fold_left_Rplus. reflexivity.
Qed.

Lemma map2_seq_nth {A B} (h : nat -> A -> B) (a : list A) (d : A) (s : nat) :
  map2 h (seq s (length a)) a = map (fun m => h m (nth (m - s) a d)) (seq s (length a)).
Proof.
  revert s. induction a as [|x a IH]; intros s; [reflexivity|].
  simpl. rewrite Nat.sub_diag. f_equal.
  rewrite IH. apply map_ext_in. intros m Hm. apply in_seq in Hm.
  replace (m - s)%nat with (S (m - S s)) by lia. reflexivity.
Qed.

Lemma cmul_cfin p q : cmul (cfin p) (cfin q) = cfin (rcmul p q).
Proof. reflexivity. Qed.

Lemma twiddle_cfin sign n k m : twiddle sign n k m = cfin (rtw sign n k m).
Proof. reflexivity. Qed.

Lemma dft_cfin sign (a : list (R * R)) :
  dft sign (map cfin a) = map cfin (rdft sign a).
Proof.
  unfold dft, rdft. rewrite length_map, map_map. apply map_ext. intros k.
  rewrite <- csum_cfin. f_equal.
  rewrite <- (length_map cfin a) at 1.
  rewrite (map2_seq_nth _ _ (cfin (0, 0))), length_map, map_map.
  apply map_ext_in. intros m Hm. apply in_seq in Hm.
  rewrite Nat.sub_0_r, (nth_map_lt cfin a m (0,0)) by lia.
  reflexivity.
Qed.

Lemma rsum_app l l' : rsum (l ++ l') = rsum l + rsum l'.
Proof. induction l as [|x l IH]; simpl; [ring | rewrite IH; ring]. Qed.

Lemma rsum_rev l : rsum (rev l) = rsum l.
Proof.
  induction l as [|x l IH]; [reflexivity|].
  simpl. rewrite rsum_app, IH. simpl. ring.
Qed.

Lemma rsum_map_opp {A} (T : A -> R) l :
  rsum (map (fun k => - T k) l) = - rsum (map T l).
Proof. induction l as [|x l IH]; simpl; [ring | rewrite IH; ring]. Qed.

Lemma rsum_map_ext_in {A} (F G : A -> R) l :
  (forall x, In x l -> F x = G x) -> rsum (map F l) = rsum (map G l).
Proof. intros H. now rewrite (map_ext_in F G l H). Qed.

Lemma rsum_map_zero {A} (F : A -> R) l :
  (forall x, In x l -> F x = 0) -> rsum (map F l) = 0.
Proof.
  induction l as [|x l IH]; intros H; [reflexivity|].
  simpl. rewrite H by now left. rewrite IH; [ring|].
  intros y Hy. apply H. now right.
Qed.

Lemma rev_seq_1 (m : nat) :
  rev (seq 1 m) = map (fun k => (m + 1 - k)%nat) (seq 1 m).
Proof.
  induction m as [|m IH]; [reflexivity|].
  rewrite seq_S at 1. rewrite rev_app_distr. simpl rev. simpl app.
  rewrite IH. simpl seq. simpl map. f_equal; [lia|].
  rewrite <- (seq_shift m 1), map_map. apply map_ext_in.
  intros k Hk. apply in_seq in Hk. lia.
Qed.

(** A sum whose terms cancel in pairs (k against n - k) is zero. *)
Lemma rsum_antisymmetric (n : nat) (T : nat -> R) :
  T 0%nat = 0 ->
  (forall k, (1 <= k < n)%nat -> T (n - k)%nat = - T k) ->
  rsum (map T (seq 0 n)) = 0.
Proof.
  intros H0 Hs. destruct n as [|m]; [reflexivity|].
  simpl seq. simpl map. simpl rsum. rewrite H0.
  assert (E : rsum (map T (seq 1 m)) = - rsum (map T (seq 1 m))).
  { rewrite <- (rsum_rev (map T (seq 1 m))) at 1.
    rewrite <- map_rev, rev_seq_1, map_map.
    rewrite <- rsum_map_opp. apply rsum_map_ext_in.
    intros k Hk. apply in_seq in Hk.
    replace (m + 1 - k)%nat with (S m - k)%nat by lia.
    apply Hs. lia. }
  lra.
Qed.

Lemma theta_mirror (n k j : nat) :
  (1 <= k <= n)%nat -> theta n (n - k) j = - theta n k j + 2 * INR j * PI.
Proof.
  intros Hk. unfold theta. rewrite minus_INR by lia.
  assert (INR n <> 0) by (apply not_0_INR; lia). field. assumption.
Qed.

Lemma theta_mirror_r (n m k : nat) :
  (1 <= k <= n)%nat -> theta n m (n - k) = - theta n m k + 2 * INR m * PI.
Proof.
  intros Hk. unfold theta. rewrite minus_INR by lia.
  assert (INR n <> 0) by (apply not_0_INR; lia). field. assumption.
Qed.

Lemma cos_mirror x (j : nat) : cos (- x + 2 * INR j * PI) = cos x.
Proof. now rewrite cos_period, cos_neg. Qed.

Lemma sin_mirror x (j : nat) : sin (- x + 2 * INR j * PI) = - sin x.
Proof. now rewrite sin_period, sin_neg. Qed.

Lemma gain_opp x : gain (- x) = gain x.
Proof.
  unfold gain. rewrite Rabs_Ropp.
  destruct (Reqb x 0) eqn:E.
  - apply Reqb_true in E. subst. now rewrite Ropp_0, Reqb_refl.
  - apply Reqb_false in E.
    replace (Reqb (- x) 0) with false; [reflexivity|].
    symmetry. apply Reqb_false. lra.
Qed.

Lemma nth_map_seq {A} (F : nat -> A) (n k : nat) (d : A) :
  (k < n)%nat -> nth k (map F (seq 0 n)) d = F k.
Proof.
  intros Hk. rewrite (nth_map_lt F (seq 0 n) k 0%nat) by (rewrite length_seq; lia).
  now rewrite seq_nth.
Qed.

Lemma rdft_length sign a : length (rdft sign a) = length a.
Proof. unfold rdft. now rewrite length_map, length_seq. Qed.

Lemma rdft_nth sign a k :
  (k < length a)%nat ->
  nth k (rdft sign a) (0, 0)
  = (0 + rsum (map (fun m => fst (rcmul (nth m a (0, 0)) (rtw sign (length a) k m)))
                   (seq 0 (length a))),
     0 + rsum (map (fun m => snd (rcmul (nth m a (0, 0)) (rtw sign (length a) k m)))
                   (seq 0 (length a)))).
Proof.
  intros Hk. unfold rdft. rewrite nth_map_seq by assumption.
  now rewrite !map_map.
Qed.

Lemma theta_zero_l n m : theta n 0 m = 0.
Proof. unfold theta, Rdiv. simpl INR. ring. Qed.

Lemma theta_zero_r n k : theta n k 0 = 0.
Proof. unfold theta, Rdiv. simpl INR. ring. Qed.

(** The transform of a real signal is Hermitian. *)
Lemma rdft_real_hermitian (a : list (R * R)) (k : nat) :
  (forall j, snd (nth j a (0, 0)) = 0) ->
  (1 <= k < length a)%nat ->
  fst (nth (length a - k) (rdft (-1) a) (0, 0)) = fst (nth k (rdft (-1) a) (0, 0))
  /\ snd (nth (length a - k) (rdft (-1) a) (0, 0)) = - snd (nth k (rdft (-1) a) (0, 0)).
Proof.
  intros Hreal Hk. rewrite !rdft_nth by lia. simpl fst. simpl snd. split.
  - f_equal. apply rsum_map_ext_in. intros j _.
    unfold rcmul, rtw. simpl. rewrite theta_mirror by lia.
    rewrite cos_mirror, sin_mirror, Hreal. ring.
  - rewrite Rplus_0_l, Rplus_0_l, <- rsum_map_opp. apply rsum_map_ext_in. intros j _.
    unfold rcmul, rtw. simpl. rewrite theta_mirror by lia.
    rewrite cos_mirror, sin_mirror, Hreal. ring.
Qed.

Lemma rdft_real_dc (a : list (R * R)) :
  (forall j, snd (nth j a (0, 0)) = 0) ->
  (1 <= length a)%nat ->
  snd (nth 0 (rdft (-1) a) (0, 0)) = 0.
Proof.
  intros Hreal Hn. rewrite rdft_nth by lia. simpl snd.
  rewrite rsum_map_zero; [ring|]. intros j _.
  unfold rcmul, rtw. simpl. rewrite theta_zero_l, sin_0, Hreal. ring.
Qed.

(** Filtering a Hermitian spectrum with real gains that are the same at k
    and n - k, and transforming back, gives a real signal. *)
Lemma filtered_back_is_real (a : list (R * R)) (gs : list R) (m : nat) :
  (forall j, snd (nth j a (0, 0)) = 0) ->
  length gs = length a ->
  (forall k, (1 <= k < length a)%nat -> nth (length a - k) gs 0 = nth k gs 0) ->
  (m < length a)%nat ->
  snd (nth m (rdft 1 (map2 rcmul (rdft (-1) a) (map (fun g => (g, 0)) gs))) (0, 0)) = 0.
Proof.
  intros Hreal Hlen Hsym Hm.
  set (n := length a) in *.
  set (A := rdft (-1) a).
  set (B := map2 rcmul A (map (fun g => (g, 0)) gs)).
  assert (LA : length A = n) by apply rdft_length.
  assert (LB : length B = n).
  { subst B. rewrite map2_length, length_map, LA, Hlen. lia. }
  assert (NB : forall k, (k < n)%nat ->
             nth k B (0, 0) = rcmul (nth k A (0, 0)) (nth k gs 0, 0)).
  { intros k Hk. subst B.
    rewrite (map2_nth rcmul _ _ _ (0, 0) (0, 0)) by (rewrite ?length_map; lia).
    f_equal. now rewrite (nth_map_lt _ gs k 0) by lia. }
  rewrite rdft_nth by lia. rewrite LB. simpl snd.
  rewrite rsum_antisymmetric; [ring| |].
  - rewrite NB by lia. unfold rcmul, rtw. simpl.
    rewrite theta_zero_r, sin_0.
    subst A. rewrite (rdft_real_dc a Hreal) by (fold n; lia). ring.
  - intros k Hk. rewrite !NB by lia.
    destruct (rdft_real_hermitian a k Hreal) as [H1 H2]; [fold n; lia|].
    fold n in H1, H2. fold A in H1, H2.
    unfold rcmul, rtw. simpl. rewrite H1, H2, Hsym by lia.
    rewrite theta_mirror_r by lia. rewrite cos_mirror, sin_mirror. ring.
Qed.

Lemma nth_tl {A} (l : list A) (i : nat) (d : A) : nth i (tl l) d = nth (S i) l d.
Proof. destruct l; [now destruct i | reflexivity]. Qed.

(** The gains are the same at bin k and at bin n - k. *)
Lemma gains_symmetric (n : nat) (val : R) (k : nat) :
  (1 <= k < n)%nat ->
  nth (n - k) (1 :: map gain (tl (bins (Z.of_nat n) val))) 0
  = nth k (1 :: map gain (tl (bins (Z.of_nat n) val))) 0.
Proof.
  intros Hk.
  assert (G : forall i, (1 <= i < n)%nat ->
            nth i (1 :: map gain (tl (bins (Z.of_nat n) val))) 0
            = gain (IZR (if (2 * Z.of_nat i <=? Z.of_nat n - 1)%Z then Z.of_nat i
                         else Z.of_nat i - Z.of_nat n) * val)).
  { intros i Hi. destruct i as [|i]; [lia|]. simpl nth.
    assert (L : length (bins (Z.of_nat n) val) = n) by (rewrite bins_length; lia).
    rewrite (nth_map_lt gain _ i 0)
      by (destruct (bins (Z.of_nat n) val); simpl in *; lia).
    rewrite nth_tl, bins_nth by lia. reflexivity. }
  rewrite !G by lia.
  destruct (Z.leb_spec (2 * Z.of_nat (n - k)) (Z.of_nat n - 1));
    destruct (Z.leb_spec (2 * Z.of_nat k) (Z.of_nat n - 1)); try lia.
  - replace (Z.of_nat (n - k)) with (- (Z.of_nat k - Z.of_nat n))%Z by lia.
    rewrite opp_IZR, Ropp_mult_distr_l_reverse. apply gain_opp.
  - replace (Z.of_nat (n - k) - Z.of_nat n)%Z with (- Z.of_nat k)%Z by lia.
    rewrite opp_IZR, Ropp_mult_distr_l_reverse. apply gain_opp.
  - replace (Z.of_nat (n - k)) with (Z.of_nat k) by lia. reflexivity.
Qed.

Lemma map2_cfin (A G : list (R * R)) :
  map2 cmul (map cfin A) (map cfin G) = map cfin (map2 rcmul A G).
Proof.
  revert G. induction A as [|p A IH]; intros [|q G]; simpl; try reflexivity.
  now rewrite IH.
Qed.

Lemma back_values_imaginary_zero (ws : list R) sample_rate :
  (1 <= length ws)%nat ->
  Forall (fun c => snd c = Fin 0) (back_values (map Fin ws) sample_rate).
Proof.
  intros Hn. unfold back_values.
  set (val := bin_width (len (map Fin ws)) sample_rate).
  assert (Ln : len (map Fin ws) = Z.of_nat (length ws))
    by (unfold len; now rewrite length_map).
  rewrite Ln.
  set (gs := 1 :: map gain (tl (bins (Z.of_nat (length ws)) val))).
  set (a := map (fun x : R => (x, 0)) ws).
  assert (Ea : map of_real (map Fin ws) = map cfin a).
  { subst a. now rewrite !map_map. }
  assert (Eg : map of_real (Fin 1 :: map (fun x => Fin (gain x))
                                     (tl (bins (Z.of_nat (length ws)) val)))
               = map cfin (map (fun g => (g, 0)) gs)).
  { subst gs. simpl. f_equal. now rewrite !map_map. }
  rewrite Ea, Eg, dft_cfin, map2_cfin.
  set (B := map2 rcmul (rdft (-1) a) (map (fun g => (g, 0)) gs)).
  unfold ifft_values. rewrite dft_cfin, map_map.
  apply Forall_map. apply (Forall_nth_iff _ _ (0, 0)). intros m Hm.
  rewrite rdft_length in Hm.
  assert (La : length a = length ws) by (subst a; now rewrite length_map).
  assert (Lgs : length gs = length a).
  { subst gs. simpl. rewrite length_map, La.
    assert (L : length (bins (Z.of_nat (length ws)) val) = length ws)
      by (rewrite bins_length; lia).
    destruct (bins _ _); simpl in *; lia. }
  assert (LB : length B = length a).
  { subst B. rewrite map2_length, rdft_length, length_map, Lgs. lia. }
  simpl snd. subst B.
  rewrite (filtered_back_is_real a gs m).
  - simpl. f_equal. ring.
  - intros j. subst a.
    change (0, 0) with ((fun x : R => (x, 0)) 0). now rewrite map_nth.
  - exact Lgs.
  - intros k Hk. rewrite La in *. subst gs. now apply gains_symmetric.
  - rewrite <- LB. exact Hm.
Qed.

Lemma filtered_spectrum_ok (t : list float) sample_rate w :
  (1 <= len t)%Z -> sample_rate <> 0%Z ->
  (white_noise <- np_random_normal 0 0.1 (len t) ;;
   d <- py_truediv (of_int 1) (of_int sample_rate) ;;
   frequencies <- np_fft_fftfreq (len t) d ;;
   fft_noise <- np_fft_fft (map of_real white_noise) ;;
   pink_filter <- pink_filter_of frequencies ;;
   np_fft_ifft (map2 cmul fft_noise (map of_real pink_filter))) w
  = (inr (back_values (white_values (rng w) (length t)) sample_rate),
     add_warnings [DivideByZero] (advance_rng (length t) w)).
Proof.
  intros Ht Hs.
  rewrite (bind_ok _ _ _ _ _ (np_random_normal_ok (len t) w (len_nonneg t))).
  replace (Z.to_nat (len t)) with (length t) by (unfold len; lia).
  set (w1 := advance_rng (length t) w).
  set (white := white_values (rng w) (length t)).
  assert (Hs' : IZR sample_rate <> 0) by now apply not_0_IZR.
  unfold of_int.
  rewrite (bind_ok _ _ _ _ _ (py_truediv_ok 1 (IZR sample_rate) w1 Hs')).
  rewrite (bind_ok _ _ _ _ _ (np_fft_fftfreq_ok (len t) sample_rate w1 Ht Hs)).
  assert (Lw : len (map of_real white) = len t).
  { unfold len, white. now rewrite length_map, white_values_length. }
  erewrite bind_ok; cycle 1.
  { apply np_fft_fft_ok. rewrite Lw. exact Ht. }
  destruct (bins_head (len t) (bin_width (len t) sample_rate) Ht) as [xs Hxs].
  rewrite Hxs.
  rewrite (bind_ok _ _ _ _ _ (pink_filter_of_ok 0 xs w1)).
  rewrite report_bins_zero.
  rewrite np_fft_ifft_ok.
  - unfold back_values.
    assert (Lw' : len white = len t).
    { unfold len, white. now rewrite white_values_length. }
    rewrite Lw', Hxs. reflexivity.
  - unfold len in *.
    rewrite map2_length, dft_length, !length_map. simpl length.
    unfold white. rewrite white_values_length.
    assert (length (bins (Z.of_nat (length t)) (bin_width (Z.of_nat (length t)) sample_rate))
            = length t) by (rewrite bins_length; lia).
    rewrite Hxs in H. simpl in H. lia.
Qed.

(** X21.  [np.real] on line 30 discards nothing: in exact arithmetic the
    imaginary part of every sample of the inverse transform is 0, because
    the transform of the real noise is Hermitian and the gains are the
    same at the bins k and n - k. *)
Theorem np_real_discards_nothing (t : list float) sample_rate w :
  (1 <= len t)%Z -> sample_rate <> 0%Z ->
  exists back w',
    (white_noise <- np_random_normal 0 0.1 (len t) ;;
     d <- py_truediv (of_int 1) (of_int sample_rate) ;;
     frequencies <- np_fft_fftfreq (len t) d ;;
     fft_noise <- np_fft_fft (map of_real white_noise) ;;
     pink_filter <- pink_filter_of frequencies ;;
     np_fft_ifft (map2 cmul fft_noise (map of_real pink_filter))) w
    = (inr back, w')
    /\ Forall (fun c => snd c = Fin 0) back
    /\ filtered_noise_of t sample_rate w = (inr (map fst back), w').
Proof.
  intros Ht Hs. eexists _, _. split; [now apply filtered_spectrum_ok|]. split.
  - unfold white_values.
    rewrite <- (map_map (fun i => 0 + 0.1 * rng w i) Fin).
    apply back_values_imaginary_zero. rewrite length_map, length_seq.
    unfold len in Ht. lia.
  - now apply filtered_noise_of_ok.
Qed.

Lemma np_real_discards_nothing_witness :
  exists back w',
    (white_noise <- np_random_normal 0 0.1 (len [Fin 0]) ;;
     d <- py_truediv (of_int 1) (of_int 20) ;;
     frequencies <- np_fft_fftfreq (len [Fin 0]) d ;;
     fft_noise <- np_fft_fft (map of_real white_noise) ;;
     pink_filter <- pink_filter_of frequencies ;;
     np_fft_ifft (map2 cmul fft_noise (map of_real pink_filter))) world0
    = (inr back, w')
    /\ Forall (fun c => snd c = Fin 0) back
    /\ filtered_noise_of [Fin 0] 20 world0 = (inr (map fst back), w').
Proof.
  apply (np_real_discards_nothing [Fin 0] 20 world0); [unfold len; simpl; lia | lia].
Defined.
